(** * phyluce alignment utilities: a shallow embedding

    This development embeds the two alignment scripts of the repository,

      - [bin/align/get_smilogram_from_alignments.py]
        (end-gap normaliser, column classifier, locus aggregator, result
        store, smilogram reducer), and
      - [bin/align/add_missing_data_designators.py]
        (padding of incomplete alignments with missing-data records),

    as executable Rocq functions, and states the properties of their
    specification over these functions.

    Conventions.
      - A Biopython [Seq] is a [list ascii]; identifiers and file names are
        [string]s.
      - Python code that can raise is a function into [result]; the
        exception that escapes is kept as a value of [exn].
      - A Python [int] that may become negative is a [Z]; counters and
        indices are [nat].
      - A Python [dict] is an association list in insertion order.  Python 2
        iterates a dict in hash order; every statement below that goes
        through such an iteration is about sums, membership or emptiness
        and does not depend on that order.
      - A value of an SQLite column declared [real] is an IEEE 754
        binary64, the [spec_float] of the Standard Library; the whole
        numbers stored there are kept as [Z] and converted where SQLite
        divides them. *)

From Stdlib Require Import List String Ascii Bool Arith ZArith NArith Lia.
From Stdlib Require Import Permutation SpecFloat.
Import ListNotations.

Local Open Scope list_scope.
Local Open Scope nat_scope.

Set Implicit Arguments.

(* ================================================================== *)
(** ** Python values the scripts rely on *)
(* ================================================================== *)

(** The exceptions that can leave the modelled functions. *)
Inductive exn : Type :=
| UnboundLocalError   (* a local name read before any assignment *)
| IndexError          (* [choice] on an empty list, [aln[0]] on no rows *)
| KeyError            (* dictionary lookup of an absent key *)
| ValueError          (* [list.remove] of an absent item, ragged append *)
| AssertionError      (* a failed [assert] *)
| AttributeError      (* a method called on [None] *)
| EOFError            (* [raw_input] without an answer to read *)
| IntegrityError      (* sqlite3: a primary key inserted twice *)
| OperationalError (message : string).  (* sqlite3 *)

Inductive result (A : Type) : Type :=
| Ok (a : A)
| Raise (e : exn).

Arguments Ok {A} a.
Arguments Raise {A} e.

Definition bind {A B : Type} (m : result A) (k : A -> result B) : result B :=
  match m with
  | Ok a => k a
  | Raise e => Raise e
  end.

Notation "x <- m ;; k" := (bind m (fun x => k))
  (at level 61, m at next level, right associativity).

(** A sequence, and the characters the scripts single out. *)
Definition seq_t : Type := list ascii.

Definition seq_of (s : string) : seq_t := list_ascii_of_string s.

Definition gap : ascii := "-"%char.
Definition qmark : ascii := "?"%char.

Definition is_gap (c : ascii) : bool := Ascii.eqb c gap.

(** [str.lower] on an ASCII character. *)
Definition lower (c : ascii) : ascii :=
  let n := N_of_ascii c in
  if (N.leb 65 n && N.leb n 90)%bool then ascii_of_N (n + 32) else c.

(** [x in [...]] for characters. *)
Definition char_in (c : ascii) (l : list ascii) : bool :=
  existsb (Ascii.eqb c) l.

(** [seq[start:stop]] for non-negative bounds: the items at the indices
    [i] with [start <= i < stop], the bounds being clipped to the
    sequence. *)
Definition slice {A : Type} (s : list A) (start stop : nat) : list A :=
  skipn start (firstn stop s).

(* ================================================================== *)
(** ** End-gap normaliser ([replace_gaps_at_start_and_ends]) *)
(* ================================================================== *)

Module Normalizer.

(** The body shared by the two [for ..., base in enumerate(...)] loops: it
    walks the sequence while it reads gaps, appending one ['?'] per gap,
    and stops at the first other character.  [idx] is the loop variable:
    [None] while it has never been bound, otherwise the last index bound by
    the [for] statement.  The boolean tells whether the loop left through
    [break]. *)
Fixpoint walk_gaps (s : seq_t) (i : nat) (acc : seq_t) (idx : option nat)
  : seq_t * option nat * bool :=
  match s with
  | [] => (acc, idx, false)
  | base :: rest =>
      if is_gap base
      then walk_gaps rest (S i) (acc ++ [qmark]) (Some i)
      else (acc, Some i, true)
  end.

Definition replace_gaps_at_start_and_ends (seq : seq_t) : result seq_t :=
  (* begin, end = [], [] *)
  let '(begin, start, _) := walk_gaps seq 0 [] None in
  let '(end_, stop0, broke) := walk_gaps (rev seq) 0 [] None in
  (* stop = len(seq) - stop is executed only on the way to [break] *)
  let stop :=
    match stop0 with
    | Some j => Some (if broke then List.length seq - j else j)
    | None => None
    end in
  (* newseq = ''.join(begin) + str(seq[start:stop]) + ''.join(end) *)
  match start, stop with
  | Some a, Some b => Ok (begin ++ slice seq a b ++ end_)
  | _, _ => Raise UnboundLocalError
  end.

End Normalizer.

Import Normalizer.

(* ================================================================== *)
(** ** Dictionaries and [collections.Counter] *)
(* ================================================================== *)

Section Dict.
Variables (K V : Type) (eqb : K -> K -> bool).

(** [d[k]] as a lookup. *)
Fixpoint dict_get (k : K) (d : list (K * V)) : option V :=
  match d with
  | [] => None
  | (k', v) :: t => if eqb k k' then Some v else dict_get k t
  end.

(** [d[k] = v]: replaces the value of a key already present, otherwise
    adds the key. *)
Fixpoint dict_set (k : K) (v : V) (d : list (K * V)) : list (K * V) :=
  match d with
  | [] => [(k, v)]
  | (k', v') :: t =>
      if eqb k k' then (k', v) :: t else (k', v') :: dict_set k v t
  end.

Definition keys (d : list (K * V)) : list K := map fst d.
Definition values (d : list (K * V)) : list V := map snd d.
End Dict.

Section Counter.
Variables (K : Type) (eqb : K -> K -> bool).

(** [c[k] += 1] *)
Fixpoint counter_incr (k : K) (c : list (K * nat)) : list (K * nat) :=
  match c with
  | [] => [(k, 1)]
  | (k', n) :: t =>
      if eqb k k' then (k', S n) :: t else (k', n) :: counter_incr k t
  end.

(** [Counter(iterable)] *)
Definition Counter (l : list K) : list (K * nat) :=
  fold_left (fun c k => counter_incr k c) l [].

(** [c[k]]; a key that was never counted reads as [0]. *)
Definition counter_get (c : list (K * nat)) (k : K) : nat :=
  match dict_get eqb k c with
  | Some n => n
  | None => 0
  end.

(** [insert_desc] places an item behind every item whose count is at
    least its own: repeated over the items in order it is the stable
    sort by decreasing count of [most_common]. *)
Fixpoint insert_desc (x : K * nat) (l : list (K * nat)) : list (K * nat) :=
  match l with
  | [] => [x]
  | y :: t =>
      if snd y <? snd x then x :: y :: t else y :: insert_desc x t
  end.

(** [c.most_common()] *)
Definition most_common (c : list (K * nat)) : list (K * nat) :=
  fold_left (fun acc x => insert_desc x acc) c [].

(** [set(l)], as the list of the distinct items. *)
Definition py_set (l : list K) : list K :=
  fold_left (fun s k => if existsb (eqb k) s then s else s ++ [k]) l [].
End Counter.

(** [max(iterable)] over naturals; Python raises [ValueError] on an empty
    argument. *)
Definition py_max (l : list nat) : result nat :=
  match l with
  | [] => Raise ValueError
  | x :: t => Ok (fold_left Nat.max t x)
  end.

(** [random.choice(l)], the random source made explicit: [r] is the number
    the generator draws for this call. *)
Definition choice {A : Type} (r : nat) (l : list A) : result A :=
  match nth_error l (r mod List.length l) with
  | Some x => Ok x
  | None => Raise IndexError
  end.

(* ================================================================== *)
(** ** Alignments (Biopython's [SeqRecord] and [MultipleSeqAlignment]) *)
(* ================================================================== *)

Record SeqRecord : Type := mkSeqRecord {
  rec_seq : seq_t;
  rec_id : string;
  rec_name : string;
  rec_description : string
}.

(** A [MultipleSeqAlignment] is the list of its records. *)
Definition alignment : Type := list SeqRecord.

(** [aln.get_alignment_length()]: the length of the first record, [0]
    without records. *)
Definition get_alignment_length (aln : alignment) : nat :=
  match aln with
  | [] => 0
  | r :: _ => List.length (rec_seq r)
  end.

(** [aln.append(record)]: Biopython refuses a record whose length differs
    from the alignment's once the alignment has a record. *)
Definition aln_append (aln : alignment) (r : SeqRecord) : result alignment :=
  match aln with
  | [] => Ok [r]
  | _ :: _ =>
      if List.length (rec_seq r) =? get_alignment_length aln
      then Ok (aln ++ [r])
      else Raise ValueError
  end.

(** [aln[:, idx]]: the column as a string. *)
Fixpoint column (aln : alignment) (idx : nat) : result seq_t :=
  match aln with
  | [] => Ok []
  | r :: t =>
      match nth_error (rec_seq r) idx with
      | Some c => rest <- column t idx ;; Ok (c :: rest)
      | None => Raise IndexError
      end
  end.

(** What [AlignIO.read] hands over: every record has the length of the
    alignment. *)
Definition rectangular (aln : alignment) : Prop :=
  Forall (fun r => List.length (rec_seq r) = get_alignment_length aln) aln.

Definition mk_aln (rows : list (string * string)) : alignment :=
  map (fun '(n, s) => mkSeqRecord (seq_of s) n n n) rows.

(* ================================================================== *)
(** ** Column classifier ([replace_gaps], [worker]) *)
(* ================================================================== *)

Module Classifier.

(** [replace_gaps]: every record is normalised and appended to a new
    alignment. *)
Fixpoint replace_gaps_from (aln new_aln : alignment) : result alignment :=
  match aln with
  | [] => Ok new_aln
  | taxon :: rest =>
      seq <- replace_gaps_at_start_and_ends (rec_seq taxon) ;;
      new_aln' <- aln_append new_aln
                    (mkSeqRecord seq (rec_id taxon) (rec_name taxon)
                       (rec_description taxon)) ;;
      replace_gaps_from rest new_aln'
  end.

Definition replace_gaps (aln : alignment) : result alignment :=
  replace_gaps_from aln [].

(** The five keys of the per-taxon dictionary of [worker]; [K_None] is the
    key [None], under which missing data is filed. *)
Inductive kind : Type :=
| K_insertion | K_deletion | K_substitution | K_majallele | K_None.

(** [results[taxon.id]]: one list of column indices per key. *)
Record events : Type := mkEvents {
  insertion : list nat;
  deletion : list nat;
  substitution : list nat;
  majallele : list nat;
  none_key : list nat
}.

Definition no_events : events := mkEvents [] [] [] [] [].

Definition events_get (k : kind) (e : events) : list nat :=
  match k with
  | K_insertion => insertion e
  | K_deletion => deletion e
  | K_substitution => substitution e
  | K_majallele => majallele e
  | K_None => none_key e
  end.

(** [e[k].append(idx)] *)
Definition events_append (k : kind) (idx : nat) (e : events) : events :=
  match k with
  | K_insertion =>
      mkEvents (insertion e ++ [idx]) (deletion e) (substitution e)
        (majallele e) (none_key e)
  | K_deletion =>
      mkEvents (insertion e) (deletion e ++ [idx]) (substitution e)
        (majallele e) (none_key e)
  | K_substitution =>
      mkEvents (insertion e) (deletion e) (substitution e ++ [idx])
        (majallele e) (none_key e)
  | K_majallele =>
      mkEvents (insertion e) (deletion e) (substitution e)
        (majallele e ++ [idx]) (none_key e)
  | K_None =>
      mkEvents (insertion e) (deletion e) (substitution e)
        (majallele e) (none_key e ++ [idx])
  end.

Definition results_t : Type := list (string * events).

(** The characters [re.sub('N|n|\?', "", col)] deletes, and the list the
    classification loop tests the lower-cased base against. *)
Definition missing_chars : list ascii := ["N"; "n"; "?"]%char.

(** The candidates of the tie-break. *)
Definition iupac_bases : list ascii :=
  ["a"; "c"; "t"; "g"; "r"; "y"; "s"; "w"; "k"; "m"; "b"; "d"; "h"; "v"]%char.

(** [bases = re.sub('N|n|\?', "", col)] *)
Definition strip_missing (col : seq_t) : seq_t :=
  filter (fun c => negb (char_in c missing_chars)) col.

(** The body of the [else] of the tie test: the lower-cased bases that
    reach the maximal count and are in [iupac_bases], in the order of
    [most_common]. *)
Fixpoint common_bases_of (mx : nat) (mc : list (ascii * nat)) : list ascii :=
  match mc with
  | [] => []
  | (base, c) :: rest =>
      let base := lower base in
      if ((c =? mx) && char_in base iupac_bases)%bool
      then base :: common_bases_of mx rest
      else common_bases_of mx rest
  end.

(** Which branch computes the major allele of a column. *)
Inductive branch : Type :=
| B_skip        (* len(bases) == 0 *)
| B_single      (* len(set(bases)) == 1 *)
| B_majority    (* one base holds the maximal count *)
| B_tie.        (* several bases hold it *)

Definition branch_of (bases : seq_t) : result branch :=
  if List.length bases =? 0 then Ok B_skip
  else if List.length (py_set Ascii.eqb bases) =? 1 then Ok B_single
  else
    let count := Counter Ascii.eqb bases in
    let count_of_count := Counter Nat.eqb (values count) in
    mx <- py_max (keys count_of_count) ;;
    if counter_get Nat.eqb count_of_count mx =? 1
    then Ok B_majority
    else Ok B_tie.

(** Lines 198-222: the value of [major] after the column's bases have been
    looked at.  [major] is the value left by the columns before ([None]
    while the name is unbound); [r] is the draw of the random source. *)
Definition major_allele (r : nat) (major : option ascii) (bases : seq_t)
  : result (option ascii) :=
  b <- branch_of bases ;;
  match b with
  | B_skip => Ok major
  | B_single =>
      match bases with
      | b0 :: _ => Ok (Some (lower b0))
      | [] => Raise IndexError
      end
  | B_majority =>
      match most_common (Counter Ascii.eqb bases) with
      | (b0, _) :: _ => Ok (Some b0)
      | [] => Raise IndexError
      end
  | B_tie =>
      let count := Counter Ascii.eqb bases in
      mx <- py_max (keys (Counter Nat.eqb (values count))) ;;
      m <- choice r (common_bases_of mx (most_common count)) ;;
      Ok (Some m)
  end.

(** Lines 225-235: the [if]/[elif] chain on one base.  [Ok None] is the
    chain falling through without any branch taken. *)
Definition classify (major : option ascii) (base : ascii)
  : result (option kind) :=
  let base := lower base in
  if char_in base missing_chars then Ok (Some K_None)
  else
    match major with
    | None => Raise UnboundLocalError
    | Some major =>
        if Ascii.eqb base major then Ok (Some K_majallele)
        else if (Ascii.eqb major gap && negb (Ascii.eqb base gap))%bool
        then Ok (Some K_insertion)
        else if (Ascii.eqb base gap && negb (Ascii.eqb major gap))%bool
        then Ok (Some K_deletion)
        else if (negb (Ascii.eqb base gap) && negb (Ascii.eqb major gap))%bool
        then Ok (Some K_substitution)
        else Ok None
    end.

(** [results[name_map[pos]][k].append(idx)] *)
Definition record_event (name_map : list (nat * string)) (results : results_t)
    (pos : nat) (k : kind) (idx : nat) : result results_t :=
  match dict_get Nat.eqb pos name_map with
  | None => Raise KeyError
  | Some name =>
      match dict_get String.eqb name results with
      | None => Raise KeyError
      | Some e => Ok (dict_set String.eqb name (events_append k idx e) results)
      end
  end.

(** [for pos, base in enumerate(col): ...] *)
Fixpoint classify_column (name_map : list (nat * string))
    (major : option ascii) (idx pos : nat) (col : seq_t)
    (results : results_t) : result results_t :=
  match col with
  | [] => Ok results
  | base :: rest =>
      k <- classify major base ;;
      results' <- match k with
                  | Some k => record_event name_map results pos k idx
                  | None => Ok results
                  end ;;
      classify_column name_map major idx (S pos) rest results'
  end.

(** The state the column loop carries from one column to the next. *)
Record state : Type := mkState {
  st_major : option ascii;
  st_results : results_t;
  st_base_count : list (nat * nat)
}.

(** One turn of [for idx in xrange(aln.get_alignment_length())]. *)
Definition column_step (rnd : nat -> nat) (aln : alignment)
    (name_map : list (nat * string)) (st : state) (idx : nat)
  : result state :=
  col <- column aln idx ;;
  let bases := strip_missing col in
  let base_count := dict_set Nat.eqb idx (List.length bases) (st_base_count st) in
  major <- major_allele (rnd idx) (st_major st) bases ;;
  results <- classify_column name_map major idx 0 col (st_results st) ;;
  Ok (mkState major results base_count).

Fixpoint column_loop (rnd : nat -> nat) (aln : alignment)
    (name_map : list (nat * string)) (idxs : list nat) (st : state)
  : result state :=
  match idxs with
  | [] => Ok st
  | idx :: rest =>
      st' <- column_step rnd aln name_map st idx ;;
      column_loop rnd aln name_map rest st'
  end.

(** [for idx, taxon in enumerate(aln)]: the position-to-name map and the
    empty per-taxon dictionaries. *)
Fixpoint init_maps (aln : alignment) (idx : nat)
    (name_map : list (nat * string)) (results : results_t)
  : list (nat * string) * results_t :=
  match aln with
  | [] => (name_map, results)
  | taxon :: rest =>
      init_maps rest (S idx)
        (dict_set Nat.eqb idx (rec_id taxon) name_map)
        (dict_set String.eqb (rec_id taxon) no_events results)
  end.

(** What [worker] returns: [(locus, results, length, base_count)]. *)
Record worker_result : Type := mkWorkerResult {
  wr_locus : string;
  wr_results : results_t;
  wr_length : nat;
  wr_bases : list (nat * nat)
}.

(** Lines 191-238 on the alignment at hand (after [replace_gaps]). *)
Definition classify_alignment (rnd : nat -> nat) (locus : string)
    (name_map : list (nat * string)) (results : results_t) (aln : alignment)
  : result worker_result :=
  st <- column_loop rnd aln name_map (seq 0 (get_alignment_length aln))
          (mkState None results []) ;;
  Ok (mkWorkerResult locus (st_results st) (get_alignment_length aln)
        (st_base_count st)).

(** [worker].  The file has been read: [locus] is the base name of the
    file without its extension and [aln] the alignment [AlignIO.read]
    returned.  [rnd idx] is what the random source draws at column
    [idx]. *)
Definition worker (rnd : nat -> nat) (locus : string) (aln : alignment)
  : result worker_result :=
  let '(name_map, results) := init_maps aln 0 [] [] in
  aln' <- replace_gaps aln ;;
  classify_alignment rnd locus name_map results aln'.

End Classifier.

Import Classifier.

(* ================================================================== *)
(** ** Locus aggregator and result store (the ingestion loop of [main]) *)
(* ================================================================== *)

Module Store.

(** The rows of the four tables.  The autoincrement column [idx] is the
    place of a row in its table.  A column declared [real] that only ever
    receives whole numbers holds them as such. *)
Record loci_row : Type := mkLoci {
  l_locus : string;
  l_length : nat
}.

Record by_taxon_row : Type := mkByTaxon {
  bt_taxon : string;
  bt_locus : string;
  bt_position : nat;
  bt_position_from_center : Z;
  bt_type : kind
}.

Record by_locus_row : Type := mkByLocus {
  bl_locus : string;
  bl_majallele : nat;
  bl_substitutions : nat;
  bl_deletions : nat;
  bl_insertions : nat;
  bl_missing : nat;
  bl_bases : nat;
  bl_position : nat;
  bl_position_from_center : Z;
  bl_type : string
}.

Record by_locus_missing_row : Type := mkByLocusMissing {
  blm_locus : string;
  blm_present : nat;
  blm_absent : Z;
  blm_position : nat;
  blm_position_from_center : Z;
  blm_type : string
}.

Record database : Type := mkDatabase {
  loci : list loci_row;
  by_taxon : list by_taxon_row;
  by_locus : list by_locus_row;
  by_locus_missing : list by_locus_missing_row
}.

Definition empty_database : database := mkDatabase [] [] [] [].

(** [center = length / 2]: Python 2 division of two [int]s rounds down. *)
Definition center (length : nat) : Z := (Z.of_nat length / 2)%Z.

(** [pos - center] *)
Definition position_from_center (pos length : nat) : Z :=
  (Z.of_nat pos - center length)%Z.

(** The keys of the inner dictionary, as [values.iteritems()] meets
    them. *)
Definition all_kinds : list kind :=
  [K_insertion; K_deletion; K_substitution; K_majallele; K_None].

(** Lines 261-279: one [by_taxon] row per recorded event. *)
Definition by_taxon_rows (wr : worker_result) : list by_taxon_row :=
  flat_map
    (fun '(taxon_name, vals) =>
       flat_map
         (fun typ =>
            map (fun pos =>
                   mkByTaxon taxon_name (wr_locus wr) pos
                     (position_from_center pos (wr_length wr)) typ)
              (events_get typ vals))
         all_kinds)
    (wr_results wr).

(** Lines 285-292: [maj.extend(v['majallele'])] and its siblings, over all
    taxa. *)
Definition gather (k : kind) (result : results_t) : list nat :=
  flat_map (fun '(_, v) => events_get k v) result.

(** Lines 294-298: [maj_cnt = Counter(maj)] and its siblings. *)
Definition position_counts (k : kind) (result : results_t)
  : list (nat * nat) :=
  Counter Nat.eqb (gather k result).

(** [sorted(l)] over naturals, by insertion. *)
Fixpoint insert_sorted (x : nat) (l : list nat) : list nat :=
  match l with
  | [] => [x]
  | y :: t => if x <=? y then x :: y :: t else y :: insert_sorted x t
  end.

Definition sorted (l : list nat) : list nat :=
  fold_right insert_sorted [] l.

(** [bases[pos]], for a key of [bases]. *)
Definition bases_at (bases : list (nat * nat)) (pos : nat) : nat :=
  counter_get Nat.eqb bases pos.

(** Lines 301-325. *)
Definition by_locus_rows (wr : worker_result) : list by_locus_row :=
  let result := wr_results wr in
  let maj_cnt := position_counts K_majallele result in
  let subs_cnt := position_counts K_substitution result in
  let dels_cnt := position_counts K_deletion result in
  let ins_cnt := position_counts K_insertion result in
  let n_cnt := position_counts K_None result in
  map (fun pos =>
         mkByLocus (wr_locus wr)
           (counter_get Nat.eqb maj_cnt pos)
           (counter_get Nat.eqb subs_cnt pos)
           (counter_get Nat.eqb dels_cnt pos)
           (counter_get Nat.eqb ins_cnt pos)
           (counter_get Nat.eqb n_cnt pos)
           (bases_at (wr_bases wr) pos)
           pos
           (position_from_center pos (wr_length wr))
           "substitutions")
    (sorted (keys (wr_bases wr))).

(** Lines 326-341. *)
Definition by_locus_missing_rows (wr : worker_result)
  : list by_locus_missing_row :=
  map (fun pos =>
         mkByLocusMissing (wr_locus wr)
           (bases_at (wr_bases wr) pos)
           (Z.of_nat (List.length (keys (wr_results wr)))
            - Z.of_nat (bases_at (wr_bases wr) pos))%Z
           pos
           (position_from_center pos (wr_length wr))
           "missing")
    (sorted (keys (wr_bases wr))).

(** One turn of [for locus, result, length, bases in results].  [loci] has
    [locus] as its primary key; the other tables refer to the row just
    inserted. *)
Definition ingest (db : database) (wr : worker_result) : result database :=
  if existsb (fun r => String.eqb (l_locus r) (wr_locus wr)) (loci db)
  then Raise IntegrityError
  else
    Ok (mkDatabase
          (loci db ++ [mkLoci (wr_locus wr) (wr_length wr)])
          (by_taxon db ++ by_taxon_rows wr)
          (by_locus db ++ by_locus_rows wr)
          (by_locus_missing db ++ by_locus_missing_rows wr)).

Fixpoint ingest_all (db : database) (results : list worker_result)
  : result database :=
  match results with
  | [] => Ok db
  | wr :: rest => db' <- ingest db wr ;; ingest_all db' rest
  end.

End Store.

Import Store.

(* ================================================================== *)
(** ** Smilogram reducer (the two aggregate queries of [main]) *)
(* ================================================================== *)

Module Reducer.

Local Open Scope Z_scope.

(** [GROUP BY position_from_center] with two [sum(...)] columns, as a hash
    aggregate: each row is added to the group of its key, a key met for
    the first time opening a group.  SQL leaves the order of the groups
    open. *)
Fixpoint group_add (d x y : Z) (groups : list (Z * (Z * Z)))
  : list (Z * (Z * Z)) :=
  match groups with
  | [] => [(d, (x, y))]
  | (d', (sx, sy)) :: t =>
      if d =? d' then (d', (sx + x, sy + y)) :: t
      else (d', (sx, sy)) :: group_add d x y t
  end.

Definition group_sums (rows : list (Z * (Z * Z))) : list (Z * (Z * Z)) :=
  fold_left (fun g '(d, (x, y)) => group_add d x y g) rows [].

(** A value of a column declared [real]: SQLite's REAL is an IEEE 754
    binary64, here the [spec_float] of the Standard Library at precision
    53 and exponent bound 1024. *)
Definition double : Type := spec_float.

(** A whole number stored in a [real] column: the nearest double, which
    is the number itself below [2 ^ 53]. *)
Definition double_of_Z (z : Z) : double := binary_normalize 53 1024 z 0 false.

(** [a / b] on two [real] values of SQLite: [NULL] when the divisor is
    zero, else the quotient of the two doubles, rounded to the nearest
    double.  The sums that are divided are sums of whole numbers; they
    are added up in [Z], where SQLite adds doubles, which gives the same
    while the sums stay below [2 ^ 53]. *)
Definition sql_div (a b : Z) : option double :=
  if b =? 0 then None
  else Some (SFdiv 53 1024 (double_of_Z a) (double_of_Z b)).

(** A row of the temporary tables [ssb] and [ssc]: the four selected
    columns, in their order. *)
Definition series_row : Type := (Z * Z * option double * Z)%type.

(** [SELECT sum(substitutions) AS ss, sum(bases),
            sum(substitutions)/sum(bases), position_from_center
     FROM by_locus GROUP BY position_from_center] *)
Definition ssb (db : database) : list series_row :=
  map (fun '(d, (ss, sb)) => (ss, sb, sql_div ss sb, d))
    (group_sums
       (map (fun r => (bl_position_from_center r,
                       (Z.of_nat (bl_substitutions r), Z.of_nat (bl_bases r))))
          (by_locus db))).

(** [SELECT * FROM ssb WHERE ss != 0] *)
Definition substitution_series (db : database) : list series_row :=
  filter (fun '(ss, _, _, _) => negb (ss =? 0)) (ssb db).

(** [SELECT sum(present) as pres, sum(absent),
            sum(absent)/(sum(absent) + sum(present)), position_from_center
     FROM by_locus_missing GROUP BY position_from_center]
    The divisor is the sum of the two sums, a whole number like them. *)
Definition ssc (db : database) : list series_row :=
  map (fun '(d, (pres, sa)) => (pres, sa, sql_div sa (sa + pres), d))
    (group_sums
       (map (fun r => (blm_position_from_center r,
                       (Z.of_nat (blm_present r), blm_absent r)))
          (by_locus_missing db))).

(** [SELECT * FROM ssc WHERE pres != 0] *)
Definition missing_series (db : database) : list series_row :=
  filter (fun '(pres, _, _, _) => negb (pres =? 0)) (ssc db).

End Reducer.

Import Reducer.

(* ================================================================== *)
(** ** Opening the result store ([create_differences_database]) *)
(* ================================================================== *)

Module Database.

Local Open Scope string_scope.

(** A table of an SQLite file: its name and its rows, kept as text. *)
Definition table : Type := (string * list string)%type.

(** The path [db] on disk: [None] while no such file exists. *)
Definition disk : Type := option (list table).

Definition has_table (name : string) (f : list table) : bool :=
  existsb (fun t => String.eqb (fst t) name) f.

(** [c.execute('CREATE TABLE name (...)')]; the statement takes effect at
    once. *)
Definition create_table (name : string) (f : list table)
  : result (list table) :=
  if has_table name f
  then Raise (OperationalError ("table " ++ name ++ " already exists"))
  else Ok (f ++ [(name, [])])%list.

(** The [try] block: the four [CREATE TABLE] statements in their order.
    The tables created before a failing statement stay. *)
Fixpoint create_tables (names : list string) (f : list table)
  : list table * result unit :=
  match names with
  | [] => (f, Ok tt)
  | n :: rest =>
      match create_table n f with
      | Ok f' => create_tables rest f'
      | Raise e => (f, Raise e)
      end
  end.

Definition schema : list string :=
  ["loci"; "by_taxon"; "by_locus"; "by_locus_missing"].

(** The two kinds of Python value met by the test of the prompt. *)
Inductive pyval : Type :=
| PyBool (b : bool)
| PyStr (s : string).

Definition truthy (v : pyval) : bool :=
  match v with
  | PyBool b => b
  | PyStr s => negb (String.eqb s "")
  end.

(** [a or b] *)
Definition py_or (a b : pyval) : pyval := if truthy a then a else b.

(** What a call leaves behind: the file, the answers not yet read from the
    terminal, and the connection or the exception. *)
Definition outcome : Type := (disk * list string * result unit)%type.

(** [create_differences_database(db)].  [answers] is what the user will
    type at the prompts; [fuel] bounds the depth of the calls the function
    makes to itself ([None]: the bound was too small). *)
Fixpoint create_differences_database (fuel : nat) (d : disk)
    (answers : list string) : option outcome :=
  match fuel with
  | O => None
  | S fuel' =>
      (* sqlite3.connect(db) creates the file when there is none *)
      let f := match d with Some f => f | None => [] end in
      match create_tables schema f with
      | (f', Ok tt) => Some (Some f', answers, Ok tt)
      | (f', Raise (OperationalError message)) =>
          if String.eqb message "table loci already exists" then
            match answers with
            | [] => Some (Some f', [], Raise EOFError)
            | answer :: answers' =>
                if truthy (py_or (PyBool (String.eqb answer "Y")) (PyStr "YES"))
                then
                  (* os.remove(db), then the function calls itself *)
                  create_differences_database fuel' None answers'
                else
                  (* pdb.set_trace(), then [return conn, c] *)
                  Some (Some f', answers', Ok tt)
            end
          else Some (Some f', answers, Raise (OperationalError message))
      | (f', Raise e) => Some (Some f', answers, Raise e)
      end
  end.

End Database.

Import Database.

(* ================================================================== *)
(** ** Padding incomplete alignments ([add_missing_data_designators.py]) *)
(* ================================================================== *)

Module Designators.

Local Open Scope string_scope.

(** [s.lstrip(chars)]: drops the leading characters that are in
    [chars]. *)
Fixpoint lstrip (chars : list ascii) (s : string) : string :=
  match s with
  | EmptyString => EmptyString
  | String c rest => if char_in c chars then lstrip chars rest else s
  end.

(** [s.split(sep)] for a one-character separator: never empty. *)
Fixpoint split (sep : ascii) (s : string) : list string :=
  match s with
  | EmptyString => [EmptyString]
  | String c rest =>
      if Ascii.eqb c sep then EmptyString :: split sep rest
      else
        match split sep rest with
        | [] => [String c EmptyString]
        | w :: ws => String c w :: ws
        end
  end.

(** [sep.join(parts)] *)
Fixpoint join (sep : string) (parts : list string) : string :=
  match parts with
  | [] => EmptyString
  | [p] => p
  | p :: rest => p ++ sep ++ join sep rest
  end.

(** [s.lower()] *)
Fixpoint str_lower (s : string) : string :=
  match s with
  | EmptyString => EmptyString
  | String c rest => String (lower c) (str_lower rest)
  end.

(** ['?' * n] *)
Definition missing_string (n : nat) : seq_t := repeat qmark n.

(** [record_formatter(seq, name)] *)
Definition record_formatter (seq : seq_t) (name : string) : SeqRecord :=
  mkSeqRecord seq name name name.

(** [l.remove(x)]: drops the first item equal to [x]; [ValueError] when
    there is none. *)
Fixpoint list_remove (x : string) (l : list string) : result (list string) :=
  match l with
  | [] => Raise ValueError
  | y :: t =>
      if String.eqb x y then Ok t
      else t' <- list_remove x t ;; Ok (y :: t')
  end.

(** [missing]: [None], or the dictionary of the loci each taxon lacks.
    Reading an absent key of the [defaultdict(list)] gives the empty
    list. *)
Definition missing_t : Type := option (list (string * list string)).

Definition missing_get (m : list (string * list string)) (k : string)
  : list string :=
  match dict_get String.eqb k m with
  | Some l => l
  | None => []
  end.

Definition str_in (x : string) (l : list string) : bool :=
  existsb (String.eqb x) l.

(** Lines 149-153: [if missing:] and the two assertions. *)
Definition check_missing (missing : missing_t) (loc org : string)
  : result unit :=
  match missing with
  | None => Ok tt
  | Some [] => Ok tt
  | Some m =>
      if str_in loc (missing_get m org) then Ok tt
      else if str_in loc (missing_get m (org ++ "*")) then Ok tt
      else Raise AssertionError
  end.

(** [seq.name = seq.name.lstrip('_R_')] *)
Definition strip_reversal (name : string) : string :=
  lstrip ["_"; "R"; "_"]%char name.

(** The name a record gets in the new alignment, from its name already
    stripped. *)
Definition new_seq_name (verbatim : bool) (name : string) : string :=
  if negb verbatim then join "_" (tl (split "_" name))
  else str_lower name.

(** The locus the last record names. *)
Definition locus_of (verbatim : bool) (name : string) : string :=
  if negb verbatim then join "_" (firstn 1 (split "_" name))
  else name.

(** Lines 135-143: [for seq in aln].  [last] is the name of the record the
    loop variable [seq] is left on. *)
Fixpoint rename_loop (verbatim : bool) (aln new_align : alignment)
    (local_organisms : option (list string)) (last : option string)
  : result (alignment * option (list string) * option string) :=
  match aln with
  | [] => Ok (new_align, local_organisms, last)
  | seq :: rest =>
      let name := strip_reversal (rec_name seq) in
      let new_name := new_seq_name verbatim name in
      new_align' <- aln_append new_align
                      (record_formatter (rec_seq seq) new_name) ;;
      match local_organisms with
      | None => Raise AttributeError
      | Some l =>
          l' <- list_remove new_name l ;;
          rename_loop verbatim rest new_align' (Some l') (Some name)
      end
  end.

(** Lines 144-155: [for org in local_organisms]. *)
Fixpoint pad_loop (verbatim : bool) (missing : missing_t)
    (overall_length : nat) (last : option string) (orgs : list string)
    (new_align : alignment) : result alignment :=
  match orgs with
  | [] => Ok new_align
  | org :: rest =>
      match last with
      | None => Raise UnboundLocalError
      | Some name =>
          _ <- check_missing missing (locus_of verbatim name) org ;;
          new_align' <- aln_append new_align
                          (record_formatter (missing_string overall_length)
                             org) ;;
          pad_loop verbatim missing overall_length last rest new_align'
      end
  end.

(** [add_gaps_to_align(aln, organisms, missing, verbatim, min_taxa)].
    [organisms] is [None] when the configuration has no section of
    organisms. *)
Definition add_gaps_to_align (aln : alignment)
    (organisms : option (list string)) (missing : missing_t)
    (verbatim : bool) (min_taxa : Z) : result (option alignment) :=
  (* local_organisms = copy.deepcopy(organisms) *)
  let local_organisms := organisms in
  if (Z.of_nat (List.length aln) <? min_taxa)%Z then Ok None
  else if (Z.of_nat (List.length aln) >=? min_taxa)%Z then
    match aln with
    | [] => Raise IndexError          (* aln[0] *)
    | first :: _ =>
        let overall_length := List.length (rec_seq first) in
        looped <- rename_loop verbatim aln [] local_organisms None ;;
        let '(new_align, local_organisms', last) := looped in
        match local_organisms' with
        | None => Raise AttributeError
        | Some orgs =>
            new_align' <- pad_loop verbatim missing overall_length last orgs
                            new_align ;;
            Ok (Some new_align')
        end
    end
  else Raise UnboundLocalError.       (* new_align was never bound *)

(** [os.path.basename(path)] *)
Fixpoint basename_from (path acc : string) : string :=
  match path with
  | EmptyString => acc
  | String c rest =>
      if Ascii.eqb c "/" then basename_from rest EmptyString
      else basename_from rest (acc ++ String c EmptyString)
  end.

Definition basename (path : string) : string := basename_from path EmptyString.

Fixpoint ends_with_slash (s : string) : bool :=
  match s with
  | EmptyString => false
  | String c EmptyString => Ascii.eqb c "/"
  | String _ rest => ends_with_slash rest
  end.

(** [os.path.join(a, b)] for a relative [b]. *)
Definition path_join (a b : string) : string :=
  match a with
  | EmptyString => b
  | _ => if ends_with_slash a then a ++ b else a ++ "/" ++ b
  end.

(** [add_designators(work)].  [aln] is what [AlignIO.read(file,
    input_format)] returned.  The value is the value returned, with the
    files written: [None] and the new alignment under its path in
    [output], or the name of the file and nothing written. *)
Definition add_designators (file : string) (aln : alignment)
    (organisms : option (list string)) (missing : missing_t)
    (verbatim : bool) (min_taxa : Z) (output : string)
  : result (option string * list (string * alignment)) :=
  new_align <- add_gaps_to_align aln organisms missing verbatim min_taxa ;;
  match new_align with
  | Some a =>
      let outf := path_join output (basename file) in
      Ok (None, [(outf, a)])
  | None => Ok (Some file, [])
  end.

End Designators.

Import Designators.

(* ================================================================== *)
(** ** The drivers ([main] of the two scripts) and the configuration *)
(* ================================================================== *)

Module Smilogram.

(** [results = map(worker, work)]: the files in their order, the first
    exception ending the run.  [rnd i] is the random source of the [i]-th
    call; a work item is the locus name of a file and the alignment read
    from it. *)
Fixpoint run_workers (rnd : nat -> nat -> nat) (i : nat)
    (work : list (string * alignment)) : result (list worker_result) :=
  match work with
  | [] => Ok []
  | (locus, aln) :: rest =>
      wr <- worker (rnd i) locus aln ;;
      wrs <- run_workers rnd (S i) rest ;;
      Ok (wr :: wrs)
  end.

(** Lines 244-342 of [main] once the store is open: the workers, then the
    ingestion of their results into the store [db]. *)
Definition main_store (rnd : nat -> nat -> nat)
    (work : list (string * alignment)) (db : database) : result database :=
  results <- run_workers rnd 0 work ;;
  ingest_all db results.

(** Lines 343-368: with [--smilogram] the rows of the two series, each
    under its header line. *)
Definition csv_header : string := "substitutions,bp,freq,distance_from_center".

Definition smilogram_files (smilogram : bool) (db : database)
  : list (string * list series_row) :=
  if smilogram
  then [(csv_header, substitution_series db); (csv_header, missing_series db)]
  else [].

End Smilogram.

Import Smilogram.

Module Config.

Local Open Scope string_scope.

(** [s.rstrip(chars)]: drops the trailing characters that are in
    [chars]. *)
Fixpoint rstrip (chars : list ascii) (s : string) : string :=
  match s with
  | EmptyString => EmptyString
  | String c rest =>
      match rstrip chars rest with
      | EmptyString => if char_in c chars then EmptyString
                       else String c EmptyString
      | r => String c r
      end
  end.

(** A configuration as the parser hands it over: for each section, in the
    order of [config.sections()], the pairs [config.items(section)]
    returns (a key and its value, [None] for a key without value). *)
Definition config_t : Type :=
  list (string * list (string * option string)).

(** [get_names_from_config(log, config, group)]: [None] stands for the
    [NoSectionError] the function catches. *)
Definition get_names_from_config (config : config_t) (group : string)
  : option (list string) :=
  match dict_get String.eqb group config with
  | Some items => Some (map (fun i => rstrip ["*"%char] (fst i)) items)
  | None => None
  end.

(** [missing[sec].append(x)] on the [defaultdict(list)]. *)
Definition dd_append (sec x : string) (missing : list (string * list string))
  : list (string * list string) :=
  dict_set String.eqb sec (missing_get missing sec ++ [x])%list missing.

(** [get_missing_loci_from_conf_file(config)] *)
Definition get_missing_loci_from_conf_file (config : config_t)
  : list (string * list string) :=
  fold_left
    (fun missing '(sec, items) =>
       fold_left (fun m (item : string * option string) =>
                    dd_append sec (fst item) m)
         items missing)
    config [].

(** Lines 212-220 of [main]: [map(add_designators, work)], then the files
    reported as dropped.  A work item is a file name with the alignment
    read from it; the value is the list of the files dropped and the files
    written. *)
Fixpoint run_designators (work : list (string * alignment))
    (organisms : option (list string)) (missing : missing_t)
    (verbatim : bool) (min_taxa : Z) (output : string)
  : result (list (option string) * list (string * alignment)) :=
  match work with
  | [] => Ok ([], [])
  | (file, aln) :: rest =>
      r <- add_designators file aln organisms missing verbatim min_taxa
             output ;;
      rs <- run_designators rest organisms missing verbatim min_taxa output ;;
      Ok (fst r :: fst rs, snd r ++ snd rs)%list
  end.

(** [for result in results: if result is not None: log.info(...)] *)
Fixpoint dropped (results : list (option string)) : list string :=
  match results with
  | [] => []
  | Some file :: rest => file :: dropped rest
  | None :: rest => dropped rest
  end.

End Config.

Import Config.

Module DesignatorsMain.

(** [main] of [add_missing_data_designators.py] from the parsed
    configurations and the alignments read: the table of missing loci
    when [--incomplete-matrix] is given ([incomplete] is [None] without
    it), the organisms of the section [Organisms], then
    [map(add_designators, work)].  The value is the list of the files
    logged as dropped and the files written. *)
Definition main (config : config_t) (incomplete : option config_t)
    (work : list (string * alignment)) (verbatim : bool) (min_taxa : Z)
    (output : string) : result (list string * list (string * alignment)) :=
  let missing :=
    match incomplete with
    | Some conf => Some (get_missing_loci_from_conf_file conf)
    | None => None
    end in
  let organisms := get_names_from_config config "Organisms" in
  results <- run_designators work organisms missing verbatim min_taxa
               output ;;
  Ok (dropped (fst results), snd results).

End DesignatorsMain.

(* ================================================================== *)
(** ** Vocabulary of the statements *)
(* ================================================================== *)

Section Occurrences.
Variables (K : Type) (eqb : K -> K -> bool).

(** The number of items of [l] equal to [k]. *)
Fixpoint occ (k : K) (l : list K) : nat :=
  match l with
  | [] => 0
  | x :: t => (if eqb k x then 1 else 0) + occ k t
  end.

(** A counter in good order: no key twice, no count of zero. *)
Definition counter_wf (c : list (K * nat)) : Prop :=
  NoDup (keys c) /\ forall k n, In (k, n) c -> 1 <= n.
End Occurrences.

(** The alphabet of the alignments: the letters of Biopython's
    [IUPAC.ambiguous_dna] in either case, the gap and the question mark
    ([Gapped(IUPAC.ambiguous_dna, "-?")] in [record_formatter]). *)
Definition dna_alphabet : list ascii :=
  seq_of "GATCRYWSMKHBVDNgatcrywsmkhbvdn-?".

Definition in_alphabet (c : ascii) : bool := char_in c dna_alphabet.

Definition over_alphabet (aln : alignment) : Prop :=
  Forall (fun r => Forall (fun c => in_alphabet c = true) (rec_seq r)) aln.

Definition kind_eqb (a b : kind) : bool :=
  match a, b with
  | K_insertion, K_insertion
  | K_deletion, K_deletion
  | K_substitution, K_substitution
  | K_majallele, K_majallele
  | K_None, K_None => true
  | _, _ => false
  end.

(** [worker] keeps the records apart by position and files their events
    by name: the name map gives the name of the record at each position,
    and every name has its dictionary of events. *)
Definition names_ok (name_map : list (nat * string)) (results : results_t)
    (pos : nat) (names : list string) : Prop :=
  (forall i name, nth_error names i = Some name ->
                  dict_get Nat.eqb (pos + i) name_map = Some name)
  /\ (forall name, In name names -> In name (keys results)).

(** The number of events of kind [k] recorded at column [j], over all
    taxa. *)
Definition recorded (k : kind) (j : nat) (results : results_t) : nat :=
  occ Nat.eqb j (gather k results).

(** The number of events of any kind recorded at column [j]. *)
Definition recorded_all (j : nat) (results : results_t) : nat :=
  recorded K_majallele j results + recorded K_substitution j results
  + recorded K_deletion j results + recorded K_insertion j results
  + recorded K_None j results.

(** The number of times column [j] is filed in the five lists of one
    taxon. *)
Definition filed (e : events) (j : nat) : nat :=
  occ Nat.eqb j (majallele e) + occ Nat.eqb j (substitution e)
  + occ Nat.eqb j (deletion e) + occ Nat.eqb j (insertion e)
  + occ Nat.eqb j (none_key e).

Definition taxon_filed (name : string) (j : nat) (results : results_t)
  : nat :=
  match dict_get String.eqb name results with
  | Some e => filed e j
  | None => 0
  end.

(** No event has been recorded yet. *)
Definition all_empty (results : results_t) : Prop :=
  Forall (fun kv => snd kv = no_events) results.

(** The alignment of the end-to-end example, and small columns used to
    exercise the statements. *)
Definition example_alignment : alignment :=
  mk_aln [("t1", "ACGT"); ("t2", "ACGA"); ("t3", "AC-T")]%string.

Definition example_lower : alignment :=
  mk_aln [("t1", "acgt"); ("t2", "acga"); ("t3", "ac-t")]%string.

Definition example_missing : alignment :=
  mk_aln [("t1", "AN"); ("t2", "C?"); ("t3", "Cn")]%string.

(** The state [worker] enters the column loop with. *)
Definition initial_state (aln : alignment) : state :=
  mkState None (snd (init_maps aln 0 [] [])) [].

(** The sum of a column over the rows whose key is [d], as [sum(...)] of a
    group of [GROUP BY]. *)
Definition sum_at (R : Type) (key val : R -> Z) (d : Z) (rows : list R) : Z :=
  fold_right Z.add 0%Z (map val (filter (fun r => Z.eqb (key r) d) rows)).

Definition sum_substitutions (db : database) (d : Z) : Z :=
  sum_at bl_position_from_center (fun r => Z.of_nat (bl_substitutions r)) d
    (by_locus db).

Definition sum_bases (db : database) (d : Z) : Z :=
  sum_at bl_position_from_center (fun r => Z.of_nat (bl_bases r)) d
    (by_locus db).

Definition sum_present (db : database) (d : Z) : Z :=
  sum_at blm_position_from_center (fun r => Z.of_nat (blm_present r)) d
    (by_locus_missing db).

Definition sum_absent (db : database) (d : Z) : Z :=
  sum_at blm_position_from_center blm_absent d (by_locus_missing db).


(** The three columns of a row handed to [group_sums]. *)
Definition g_key (r : Z * (Z * Z)) : Z := fst r.
Definition g_first (r : Z * (Z * Z)) : Z := fst (snd r).
Definition g_second (r : Z * (Z * Z)) : Z := snd (snd r).

(** The distance column of a row of a series. *)
Definition distance_of (r : series_row) : Z := snd r.

(** A result store left by an earlier run, and the store a first run
    creates. *)
Definition existing_store : list table :=
  [("loci", ["uce-1|412"; "uce-2|380"]);
   ("by_taxon", ["gallus|uce-1|17|-189|substitution"]);
   ("by_locus", ["uce-1|3|1|0|0|0|4|17|-189|substitutions"]);
   ("by_locus_missing", ["uce-1|4|0|17|-189|missing"])]%string.

Definition fresh_store : list table :=
  map (fun name => (name, [])) schema.

(** The record [add_gaps_to_align] makes of an input record. *)
Definition renamed (verbatim : bool) (r : SeqRecord) : SeqRecord :=
  record_formatter (rec_seq r)
    (new_seq_name verbatim (strip_reversal (rec_name r))).

(** The record added for an organism without sequence. *)
Definition padding (overall_length : nat) (org : string) : SeqRecord :=
  record_formatter (missing_string overall_length) org.

(** The organisms left once every name of [names] has been removed in
    turn. *)
Fixpoint remove_all (names organisms : list string)
  : result (list string) :=
  match names with
  | [] => Ok organisms
  | n :: rest => l <- list_remove n organisms ;; remove_all rest l
  end.

(** The (stripped) name of the record the first loop ends on. *)
Definition last_name (aln : alignment) (last : option string)
  : option string :=
  fold_left (fun _ r => Some (strip_reversal (rec_name r))) aln last.

(** An incomplete locus, the organisms of the study and the table of the
    loci they lack. *)
Definition example_incomplete : alignment :=
  mk_aln [("uce1_a", "AC"); ("uce1_b", "AG"); ("_R_uce1_c", "A-")]%string.

Definition example_organisms : list string := ["a"; "b"; "c"; "d"]%string.

Definition example_table : missing_t :=
  Some [("d", ["uce1"; "uce7"])]%string.

Definition example_table_other : missing_t :=
  Some [("d", ["uce7"])]%string.

(** The normalisation as the specification words it: the gaps before the
    first character that is not a gap become question marks, and likewise
    from the end. *)
Fixpoint mask_leading_gaps (s : seq_t) : seq_t :=
  match s with
  | [] => []
  | c :: rest => if is_gap c then qmark :: mask_leading_gaps rest else s
  end.

Definition end_gaps_masked (s : seq_t) : seq_t :=
  rev (mask_leading_gaps (rev (mask_leading_gaps s))).

(** The sequence holds a character that is not a gap. *)
Definition has_data (s : seq_t) : bool :=
  existsb (fun c => negb (is_gap c)) s.

(** The record [replace_gaps] makes of a record. *)
Definition normalised_record (r : SeqRecord) : SeqRecord :=
  mkSeqRecord (end_gaps_masked (rec_seq r)) (rec_id r) (rec_name r)
    (rec_description r).

(** What the loop has stored for a column [j] it has gone through: the
    number of considered characters of the column, and counts of events
    that account for every character of the column. *)
Definition column_done (aln : alignment) (bases : list (nat * nat))
    (results : results_t) (j : nat) : Prop :=
  exists col,
    column aln j = Ok col
    /\ counter_get Nat.eqb bases j = List.length (strip_missing col)
    /\ recorded K_None j results + List.length (strip_missing col)
       = List.length col
    /\ recorded_all j results = List.length col.

(** The store [main] fills from the results of the workers, in their
    order. *)
Definition store_of (wrs : list worker_result) : database :=
  mkDatabase
    (map (fun wr => mkLoci (wr_locus wr) (wr_length wr)) wrs)
    (flat_map by_taxon_rows wrs)
    (flat_map by_locus_rows wrs)
    (flat_map by_locus_missing_rows wrs).

(** The result [wr] is what [worker] returned for the work item. *)
Definition worker_returned (item : string * alignment) (wr : worker_result)
  : Prop :=
  exists rnd, worker rnd (fst item) (snd item) = Ok wr.

(** Two loci, the second with a character of missing data inside, and the
    store [main] fills from them. *)
Definition example_work : list (string * alignment) :=
  [("uce1", example_alignment);
   ("uce2", mk_aln [("t1", "A?G"); ("t2", "ACG")])]%string.

Definition example_store : database :=
  match main_store (fun _ _ => 0) example_work empty_database with
  | Ok db => db
  | Raise _ => empty_database
  end.

(** The character [c] occurs in [s]. *)
Fixpoint has_char (c : ascii) (s : string) : bool :=
  match s with
  | EmptyString => false
  | String x rest => Ascii.eqb x c || has_char c rest
  end.

(** The last character of a string. *)
Fixpoint last_char (s : string) : option ascii :=
  match s with
  | EmptyString => None
  | String c EmptyString => Some c
  | String _ rest => last_char rest
  end.

(** Every character of [s] is one of [chars]. *)
Fixpoint all_in (chars : list ascii) (s : string) : bool :=
  match s with
  | EmptyString => true
  | String c rest => char_in c chars && all_in chars rest
  end.

(** The input record has fewer records than [min_taxa]. *)
Definition too_few (min_taxa : Z) (item : string * alignment) : bool :=
  (Z.of_nat (List.length (snd item)) <? min_taxa)%Z.

(** The name of [loc] stands under the section [sec] of the
    configuration of incomplete loci. *)
Definition listed (config : config_t) (sec loc : string) : bool :=
  str_in loc
    (flat_map (fun s => if String.eqb (fst s) sec then map fst (snd s)
                        else [])
       config).

(** No section of the configuration has an entry. *)
Definition no_entries (config : config_t) : bool :=
  forallb (fun s => match snd s with [] => true | _ :: _ => false end) config.

(** A configuration of organisms, one of incomplete loci, and two files,
    the second with too few records. *)
Definition example_config : config_t :=
  [("Organisms", [("a", None); ("b", None); ("c", None); ("d*", None)])]%string.

Definition example_incomplete_config : config_t :=
  [("d", [("uce1", None); ("uce7", None)])]%string.

Definition example_files : list (string * alignment) :=
  [("in/uce1.nex", example_incomplete);
   ("in/uce2.nex", mk_aln [("uce2_a", "AC")])]%string.

(** The record the normaliser makes of a record of [L] gaps. *)
Definition doubled_record (L : nat) (r : SeqRecord) : SeqRecord :=
  mkSeqRecord (repeat qmark (L + L)) (rec_id r) (rec_name r)
    (rec_description r).

(** What the rounding of the Standard Library does with a mantissa of 53
    binary digits at the place [l] between two doubles: the mantissa or
    its successor, renormalised when the successor is [2 ^ 53]. *)
Definition round_53 (m : Z) (l : location) (e : Z) : spec_float :=
  let m1 := round_nearest_even m l in
  if (m1 =? 2 ^ 53)%Z then S754_finite false (Z.to_pos (2 ^ 52)) (e + 1)
  else S754_finite false (Z.to_pos m1) e.

(** The place between two doubles once the last binary digit of the
    mantissa [q] has been shifted out. *)
Definition half_loc (q : Z) (l : location) : location :=
  loc_of_shr_record (shr_1 (shr_record_of_loc q l)).

(** The table of missing loci lets the organism [org] go without the
    locus [loc]: there is no table, the table is empty, or the locus is
    listed under the organism's name or under its name followed by a
    star. *)
Definition listed_as_missing (missing : missing_t) (loc org : string)
  : bool :=
  match missing with
  | None => true
  | Some [] => true
  | Some m =>
      str_in loc (missing_get m org)
      || str_in loc (missing_get m (org ++ "*"))
  end.

(* ================================================================== *)
(** * Properties *)
(* ================================================================== *)

(** ** The monad and the character tests *)

Lemma bind_ok_inv (A B : Type) (m : result A) (k : A -> result B) (b : B) :
  bind m k = Ok b -> exists a, m = Ok a /\ k a = Ok b.
Proof.
  destruct m as [a|e]; simpl; intros H; [exists a; auto | discriminate].
Qed.

Lemma ascii_eqb_true (a b : ascii) : Ascii.eqb a b = true <-> a = b.
Proof. apply Ascii.eqb_eq. Qed.

Lemma ascii_eqb_false (a b : ascii) : Ascii.eqb a b = false <-> a <> b.
Proof. apply Ascii.eqb_neq. Qed.

Lemma is_gap_true (c : ascii) : is_gap c = true <-> c = gap.
Proof. apply Ascii.eqb_eq. Qed.

(** ** End-gap normaliser *)

Section NormalizerFacts.

Lemma walk_gaps_run (n : nat) :
  forall (c : ascii) (rest : seq_t) (i : nat) (acc : seq_t) (idx : option nat),
    is_gap c = false ->
    walk_gaps (repeat gap n ++ c :: rest) i acc idx
    = (acc ++ repeat qmark n, Some (i + n), true).
Proof.
  induction n as [|n IH]; intros c rest i acc idx Hc; simpl.
  - rewrite Hc, app_nil_r, Nat.add_0_r. reflexivity.
  - rewrite IH by exact Hc. rewrite <- app_assoc. simpl.
    repeat f_equal. lia.
Qed.

Lemma walk_gaps_all (n : nat) :
  forall (i : nat) (acc : seq_t) (idx : option nat),
    walk_gaps (repeat gap (S n)) i acc idx
    = (acc ++ repeat qmark (S n), Some (i + n), false).
Proof.
  induction n as [|n IH]; intros i acc idx.
  - simpl. rewrite Nat.add_0_r. reflexivity.
  - change (repeat gap (S (S n))) with (gap :: repeat gap (S n)).
    cbn [walk_gaps]. change (is_gap gap) with true. cbn iota.
    rewrite IH. rewrite <- app_assoc. simpl.
    repeat f_equal. lia.
Qed.

Lemma rev_repeat (A : Type) (x : A) (n : nat) : rev (repeat x n) = repeat x n.
Proof.
  induction n as [|n IH]; [reflexivity|].
  simpl. rewrite IH. symmetry. apply repeat_cons.
Qed.

(** A sequence that holds a character other than the gap is its leading
    run of gaps, a core that begins and ends outside the gap, and its
    trailing run. *)
Lemma normalise_core (a b : nat) (c1 c2 : ascii) (core : seq_t) :
  is_gap c1 = false -> is_gap c2 = false ->
  replace_gaps_at_start_and_ends
    (repeat gap a ++ (c1 :: core ++ [c2]) ++ repeat gap b)
  = Ok (repeat qmark a ++ (c1 :: core ++ [c2]) ++ repeat qmark b).
Proof.
  intros H1 H2. unfold replace_gaps_at_start_and_ends.
  replace (repeat gap a ++ (c1 :: core ++ [c2]) ++ repeat gap b)
    with (repeat gap a ++ c1 :: (core ++ [c2]) ++ repeat gap b)
    by reflexivity.
  rewrite walk_gaps_run by exact H1.
  replace (rev (repeat gap a ++ c1 :: (core ++ [c2]) ++ repeat gap b))
    with (repeat gap b ++ c2 :: rev core ++ c1 :: repeat gap a).
  2:{ rewrite rev_app_distr. simpl. rewrite !rev_app_distr. simpl.
      rewrite !rev_repeat. rewrite <- !app_assoc. reflexivity. }
  rewrite walk_gaps_run by exact H2. simpl.
  f_equal. f_equal.
  unfold slice.
  set (mid := c1 :: core ++ [c2]).
  replace (repeat gap a ++ c1 :: (core ++ [c2]) ++ repeat gap b)
    with ((repeat gap a ++ mid) ++ repeat gap b)
    by (unfold mid; rewrite <- app_assoc; reflexivity).
  replace (List.length ((repeat gap a ++ mid) ++ repeat gap b) - b)
    with (List.length (repeat gap a ++ mid) + 0)
    by (rewrite !length_app, !repeat_length; lia).
  rewrite firstn_app_2. simpl. rewrite app_nil_r.
  replace a with (List.length (repeat gap a) + 0) at 1
    by (rewrite repeat_length; lia).
  rewrite skipn_app, skipn_all2 by (rewrite repeat_length; lia).
  rewrite repeat_length. simpl.
  replace (a + 0 - a) with 0 by lia. reflexivity.
Qed.

(** A single character other than the gap between the two runs. *)
Lemma normalise_single (a b : nat) (c : ascii) :
  is_gap c = false ->
  replace_gaps_at_start_and_ends (repeat gap a ++ [c] ++ repeat gap b)
  = Ok (repeat qmark a ++ [c] ++ repeat qmark b).
Proof.
  intros H. unfold replace_gaps_at_start_and_ends.
  replace (repeat gap a ++ [c] ++ repeat gap b)
    with (repeat gap a ++ c :: repeat gap b) by reflexivity.
  rewrite walk_gaps_run by exact H.
  replace (rev (repeat gap a ++ c :: repeat gap b))
    with (repeat gap b ++ c :: repeat gap a).
  2:{ rewrite rev_app_distr. simpl. rewrite !rev_repeat.
      rewrite <- app_assoc. reflexivity. }
  rewrite walk_gaps_run by exact H. simpl.
  f_equal. f_equal. unfold slice.
  replace (repeat gap a ++ c :: repeat gap b)
    with ((repeat gap a ++ [c]) ++ repeat gap b)
    by (rewrite <- app_assoc; reflexivity).
  replace (List.length ((repeat gap a ++ [c]) ++ repeat gap b) - b)
    with (List.length (repeat gap a ++ [c]) + 0)
    by (rewrite !length_app, !repeat_length; simpl; lia).
  rewrite firstn_app_2. simpl. rewrite app_nil_r.
  replace a with (List.length (repeat gap a) + 0) at 1
    by (rewrite repeat_length; lia).
  rewrite skipn_app, skipn_all2 by (rewrite repeat_length; lia).
  rewrite repeat_length. simpl.
  replace (a + 0 - a) with 0 by lia. reflexivity.
Qed.

End NormalizerFacts.

(** The two inputs on which the normaliser departs from its contract. *)
Lemma normalise_all_gaps (n : nat) :
  replace_gaps_at_start_and_ends (repeat gap (S n))
  = Ok (repeat qmark (S n + S n)).
Proof.
  unfold replace_gaps_at_start_and_ends.
  rewrite rev_repeat, walk_gaps_all. cbn [app].
  unfold slice. rewrite skipn_firstn_comm, Nat.sub_diag, firstn_O.
  cbn [app]. rewrite <- repeat_app. reflexivity.
Qed.

(** ** Counters *)

Section CounterFacts.
Variables (K : Type) (eqb : K -> K -> bool).
Hypothesis eqb_eq : forall a b, eqb a b = true <-> a = b.

Lemma eqb_refl' (a : K) : eqb a a = true.
Proof. apply eqb_eq. reflexivity. Qed.

Lemma eqb_neq' (a b : K) : eqb a b = false <-> a <> b.
Proof.
  split.
  - intros H E. apply eqb_eq in E. congruence.
  - intros H. destruct (eqb a b) eqn:E; [|reflexivity].
    apply eqb_eq in E. contradiction.
Qed.

Lemma occ_app (k : K) (l1 l2 : list K) :
  occ eqb k (l1 ++ l2) = occ eqb k l1 + occ eqb k l2.
Proof. induction l1 as [|x t IH]; simpl; [reflexivity | rewrite IH; lia]. Qed.

Lemma occ_pos_in (k : K) (l : list K) : 1 <= occ eqb k l <-> In k l.
Proof.
  induction l as [|x t IH]; simpl.
  - split; [lia | tauto].
  - destruct (eqb k x) eqn:E.
    + apply eqb_eq in E. subst. split; [auto | lia].
    + apply eqb_neq' in E. simpl. rewrite IH. split; [auto|].
      intros [H|H]; [congruence | exact H].
Qed.

Lemma counter_get_incr (k k' : K) (c : list (K * nat)) :
  counter_get eqb (counter_incr eqb k c) k'
  = counter_get eqb c k' + (if eqb k' k then 1 else 0).
Proof.
  unfold counter_get.
  induction c as [|[k0 n] t IH]; simpl.
  - destruct (eqb k' k); reflexivity.
  - destruct (eqb k k0) eqn:E0; simpl.
    + apply eqb_eq in E0. subst k0.
      destruct (eqb k' k); lia.
    + destruct (eqb k' k0) eqn:E1.
      * apply eqb_eq in E1. subst k0.
        replace (eqb k' k) with false; [lia|].
        symmetry. apply eqb_neq'. apply eqb_neq' in E0. congruence.
      * exact IH.
Qed.

Lemma counter_get_fold (l : list K) :
  forall (c : list (K * nat)) (k : K),
    counter_get eqb (fold_left (fun c k => counter_incr eqb k c) l c) k
    = counter_get eqb c k + occ eqb k l.
Proof.
  induction l as [|x t IH]; intros c k; simpl; [lia|].
  rewrite IH, counter_get_incr. lia.
Qed.

(** [Counter(l)[k]] is the number of times [k] is in [l]. *)
Lemma counter_get_Counter (l : list K) (k : K) :
  counter_get eqb (Counter eqb l) k = occ eqb k l.
Proof. unfold Counter. rewrite counter_get_fold. reflexivity. Qed.

Lemma keys_incr (k k' : K) (c : list (K * nat)) :
  In k' (keys (counter_incr eqb k c)) <-> k' = k \/ In k' (keys c).
Proof.
  unfold keys. induction c as [|[k0 n] t IH]; simpl.
  - intuition.
  - destruct (eqb k k0) eqn:E; simpl.
    + apply eqb_eq in E. subst. intuition.
    + rewrite IH. intuition.
Qed.

Lemma counter_wf_incr (k : K) (c : list (K * nat)) :
  counter_wf (K:=K) c -> counter_wf (K:=K) (counter_incr eqb k c).
Proof.
  unfold counter_wf, keys.
  induction c as [|[k0 n] t IH]; simpl; intros [Hnd Hpos].
  - split; [repeat constructor; auto|].
    intros k1 n1 [H|[]]. inversion H. lia.
  - destruct (eqb k k0) eqn:E; simpl.
    + split; [exact Hnd|].
      intros k1 n1 [H|H]; [inversion H; lia | eapply Hpos; eauto].
    + inversion Hnd as [|? ? Hnotin Hnd']; subst.
      destruct IH as [IH1 IH2]; [split; [exact Hnd'|eauto]|].
      split.
      * constructor; [|exact IH1].
        intros Hin. apply (keys_incr k k0 t) in Hin.
        destruct Hin as [->|Hin]; [|contradiction].
        rewrite eqb_refl' in E. discriminate.
      * intros k1 n1 [H|H]; [eapply Hpos; eauto | eapply IH2; eauto].
Qed.

Lemma counter_wf_fold (l : list K) :
  forall c, counter_wf (K:=K) c ->
    counter_wf (K:=K) (fold_left (fun c k => counter_incr eqb k c) l c).
Proof.
  induction l as [|x t IH]; intros c H; simpl; [exact H|].
  apply IH, counter_wf_incr, H.
Qed.

Lemma counter_wf_Counter (l : list K) : counter_wf (K:=K) (Counter eqb l).
Proof.
  apply counter_wf_fold. split; [constructor | intros ? ? []].
Qed.

Lemma keys_fold (l : list K) :
  forall c k,
    In k (keys (fold_left (fun c k => counter_incr eqb k c) l c))
    <-> In k l \/ In k (keys c).
Proof.
  induction l as [|x t IH]; intros c k; simpl; [tauto|].
  rewrite IH, keys_incr. intuition.
Qed.

Lemma keys_Counter (l : list K) (k : K) :
  In k (keys (Counter eqb l)) <-> In k l.
Proof. unfold Counter. rewrite keys_fold. simpl. tauto. Qed.

(** Under [counter_wf], membership and lookup agree. *)
Lemma counter_wf_get (c : list (K * nat)) (k : K) (n : nat) :
  NoDup (keys c) -> In (k, n) c -> counter_get eqb c k = n.
Proof.
  unfold counter_get, keys.
  induction c as [|[k0 n0] t IH]; simpl; intros Hnd Hin; [contradiction|].
  inversion Hnd as [|? ? Hnotin Hnd']; subst.
  destruct Hin as [H|H].
  - inversion H; subst. rewrite eqb_refl'. reflexivity.
  - destruct (eqb k k0) eqn:E.
    + apply eqb_eq in E. subst k0. exfalso. apply Hnotin.
      change k with (fst (k, n)). apply in_map. exact H.
    + apply IH; assumption.
Qed.

Lemma Counter_entry (l : list K) (k : K) (n : nat) :
  In (k, n) (Counter eqb l) -> n = occ eqb k l /\ In k l.
Proof.
  intros Hin. split.
  - rewrite <- counter_get_Counter. symmetry.
    apply counter_wf_get; [apply counter_wf_Counter | exact Hin].
  - apply keys_Counter. change k with (fst (k, n)). apply in_map. exact Hin.
Qed.

(** [most_common] rearranges the items of the counter. *)
Lemma insert_desc_perm (x : K * nat) (l : list (K * nat)) :
  Permutation (insert_desc x l) (x :: l).
Proof.
  induction l as [|y t IH]; simpl; [reflexivity|].
  destruct (snd y <? snd x); [reflexivity|].
  rewrite IH. apply perm_swap.
Qed.

Lemma most_common_fold_perm (c : list (K * nat)) :
  forall acc,
    Permutation (fold_left (fun acc x => insert_desc x acc) c acc) (c ++ acc).
Proof.
  induction c as [|x t IH]; intros acc; simpl; [reflexivity|].
  rewrite IH, insert_desc_perm. symmetry. apply Permutation_middle.
Qed.

Lemma most_common_perm (c : list (K * nat)) :
  Permutation (most_common c) c.
Proof.
  unfold most_common. rewrite most_common_fold_perm, app_nil_r. reflexivity.
Qed.

End CounterFacts.

Lemma nat_eqb_eq (a b : nat) : Nat.eqb a b = true <-> a = b.
Proof. apply Nat.eqb_eq. Qed.

Lemma string_eqb_eq (a b : string) : String.eqb a b = true <-> a = b.
Proof. apply String.eqb_eq. Qed.

(** ** The alphabet and [lower] *)

Ltac by_characters c :=
  destruct c as [[] [] [] [] [] [] [] []]; vm_compute; intuition congruence.

Lemma lower_missing (c : ascii) :
  char_in (lower c) missing_chars = char_in c missing_chars.
Proof. by_characters c. Qed.

Lemma lower_gap (c : ascii) : lower c = gap -> c = gap.
Proof. by_characters c. Qed.

(** A considered character of the alphabet is the gap or one of the
    candidates of the tie-break, up to case. *)
Lemma alphabet_considered (c : ascii) :
  in_alphabet c = true ->
  char_in c missing_chars = false ->
  c = gap \/ char_in (lower c) iupac_bases = true.
Proof. by_characters c. Qed.

Lemma strip_missing_in (c : ascii) (col : seq_t) :
  In c (strip_missing col) <-> In c col /\ char_in c missing_chars = false.
Proof.
  unfold strip_missing. rewrite filter_In.
  destruct (char_in c missing_chars); simpl; intuition congruence.
Qed.

(** ** The maximum and the tie *)

Lemma fold_max_ge (l : list nat) :
  forall x, x <= fold_left Nat.max l x.
Proof.
  induction l as [|y t IH]; intros x; simpl; [lia|].
  specialize (IH (Nat.max x y)). lia.
Qed.

Lemma fold_max_in (l : list nat) :
  forall x, fold_left Nat.max l x = x \/ In (fold_left Nat.max l x) l.
Proof.
  induction l as [|y t IH]; intros x; simpl; [auto|].
  destruct (IH (Nat.max x y)) as [H|H]; [|auto].
  rewrite H. destruct (Nat.max_spec x y) as [[_ E]|[_ E]]; rewrite E; auto.
Qed.

Lemma py_max_in (l : list nat) (m : nat) : py_max l = Ok m -> In m l.
Proof.
  destruct l as [|x t]; simpl; [discriminate|].
  intros H. inversion H; subst.
  destruct (fold_max_in t x) as [E|E]; [left; auto | right; exact E].
Qed.

Lemma py_max_nonempty (l : list nat) :
  l <> [] -> exists m, py_max l = Ok m.
Proof. destruct l; [congruence | simpl; eauto]. Qed.

Section OneKey.
Variable K : Type.

(** When the keys are pairwise distinct and every item counted [m] has
    the key [g], at most one item is counted [m]. *)
Lemma one_key_one_count (g : K) (m : nat) (c : list (K * nat)) :
  NoDup (keys c) ->
  (forall k, In (k, m) c -> k = g) ->
  occ Nat.eqb m (values c) <= 1.
Proof.
  unfold keys, values.
  induction c as [|[k n] t IH]; simpl; intros Hnd Hg; [lia|].
  inversion Hnd as [|? ? Hnotin Hnd']; subst.
  destruct (Nat.eqb m n) eqn:E.
  - apply Nat.eqb_eq in E. subst n.
    assert (k = g) by (apply Hg; auto). subst k.
    enough (occ Nat.eqb m (map snd t) = 0) by lia.
    clear IH Hnd Hnd'. induction t as [|[k1 n1] t1 IH1]; simpl; [reflexivity|].
    destruct (Nat.eqb m n1) eqn:E1.
    + apply Nat.eqb_eq in E1. subst n1. exfalso. apply Hnotin. left.
      simpl. apply Hg. right. left. reflexivity.
    + simpl. apply IH1.
      * intros H. apply Hnotin. right. exact H.
      * intros k2 [H|H]; apply Hg; [left; exact H | right; right; exact H].
  - simpl. apply IH; [exact Hnd'|]. intros k0 H. apply Hg. right. exact H.
Qed.
End OneKey.

Lemma common_bases_in (mx : nat) (b : ascii) (mc : list (ascii * nat)) :
  In (b, mx) mc -> char_in (lower b) iupac_bases = true ->
  In (lower b) (common_bases_of mx mc).
Proof.
  induction mc as [|[b0 c0] t IH]; intros Hin Hb; [destruct Hin|].
  cbn [common_bases_of]. destruct Hin as [H|H].
  - inversion H; subst. rewrite Nat.eqb_refl, Hb. left. reflexivity.
  - destruct ((c0 =? mx) && char_in (lower b0) iupac_bases)%bool;
      [apply in_cons|]; apply IH; assumption.
Qed.

Lemma Counter_nonempty (K : Type) (eqb : K -> K -> bool) (l : list K) :
  (forall a b, eqb a b = true <-> a = b) ->
  l <> [] -> Counter eqb l <> [].
Proof.
  intros Heq Hl Hc. destruct l as [|x t]; [congruence|].
  assert (In x (keys (Counter eqb (x :: t))))
    by (apply keys_Counter; [exact Heq | left; reflexivity]).
  rewrite Hc in H. contradiction.
Qed.

(** The lemma behind the tie-break: on considered bases of the alphabet,
    a maximal count held by several bases is held by a candidate. *)
Lemma tie_has_candidate (bases : seq_t) :
  Forall (fun c => in_alphabet c = true) bases ->
  Forall (fun c => char_in c missing_chars = false) bases ->
  branch_of bases = Ok B_tie ->
  exists mx,
    py_max (keys (Counter Nat.eqb (values (Counter Ascii.eqb bases)))) = Ok mx
    /\ common_bases_of mx (most_common (Counter Ascii.eqb bases)) <> [].
Proof.
  intros Halpha Hcons Hb. unfold branch_of in Hb.
  destruct (List.length bases =? 0); [discriminate|].
  destruct (List.length (py_set Ascii.eqb bases) =? 1); [discriminate|].
  set (count := Counter Ascii.eqb bases) in *.
  set (coc := Counter Nat.eqb (values count)) in *.
  destruct (py_max (keys coc)) as [mx|e] eqn:Emx; simpl in Hb; [|discriminate].
  exists mx. split; [reflexivity|].
  destruct (counter_get Nat.eqb coc mx =? 1) eqn:Etie; [discriminate|].
  apply Nat.eqb_neq in Etie.
  unfold coc in Etie. rewrite (counter_get_Counter Nat.eqb nat_eqb_eq) in Etie.
  assert (Hin : In mx (values count)).
  { apply py_max_in in Emx. unfold coc in Emx.
    apply (proj1 (keys_Counter Nat.eqb nat_eqb_eq _ _)) in Emx. exact Emx. }
  apply (proj2 (occ_pos_in Nat.eqb nat_eqb_eq _ _)) in Hin.
  intros Hempty.
  assert (Hle : occ Nat.eqb mx (values count) <= 1).
  { apply one_key_one_count with (g := gap).
    - apply (counter_wf_Counter Ascii.eqb ascii_eqb_true).
    - intros k Hk.
      destruct (Counter_entry Ascii.eqb ascii_eqb_true _ _ _ Hk) as [_ Hkin].
      rewrite Forall_forall in Halpha, Hcons.
      destruct (alphabet_considered k (Halpha _ Hkin) (Hcons _ Hkin))
        as [Hg|Hc]; [exact Hg|].
      exfalso.
      assert (Hmc : In (k, mx) (most_common count)).
      { eapply Permutation_in; [symmetry; apply most_common_perm | exact Hk]. }
      pose proof (common_bases_in mx k _ Hmc Hc) as Hcb.
      rewrite Hempty in Hcb. contradiction. }
  lia.
Qed.

(** ** Dictionaries *)

Section DictFacts.
Variables (K V : Type) (eqb : K -> K -> bool).
Hypothesis eqb_eq : forall a b, eqb a b = true <-> a = b.

Lemma dict_get_keys (k : K) (d : list (K * V)) :
  In k (keys d) <-> exists v, dict_get eqb k d = Some v.
Proof.
  unfold keys. induction d as [|[k0 v0] t IH]; simpl.
  - split; [tauto | intros [v H]; discriminate].
  - destruct (eqb k k0) eqn:E.
    + apply eqb_eq in E. subst. split; eauto.
    + rewrite IH. split; [intros [H|H]; [|exact H] | auto].
      subst. rewrite (proj2 (eqb_eq k k) eq_refl) in E. discriminate.
Qed.

Lemma keys_dict_set_present (k : K) (v : V) (d : list (K * V)) :
  In k (keys d) -> keys (dict_set eqb k v d) = keys d.
Proof.
  unfold keys. induction d as [|[k0 v0] t IH]; simpl; [tauto|].
  intros Hin. destruct (eqb k k0) eqn:E; simpl; [reflexivity|].
  f_equal. apply IH. destruct Hin as [H|H]; [|exact H].
  subst. rewrite (proj2 (eqb_eq k k) eq_refl) in E. discriminate.
Qed.

Lemma keys_dict_set_absent (k : K) (v : V) (d : list (K * V)) :
  ~ In k (keys d) -> keys (dict_set eqb k v d) = keys d ++ [k].
Proof.
  unfold keys. induction d as [|[k0 v0] t IH]; simpl; [reflexivity|].
  intros Hnin. destruct (eqb k k0) eqn:E.
  - apply eqb_eq in E. subst. tauto.
  - simpl. f_equal. apply IH. tauto.
Qed.

Lemma dict_get_set_same (k : K) (v : V) (d : list (K * V)) :
  dict_get eqb k (dict_set eqb k v d) = Some v.
Proof.
  induction d as [|[k0 v0] t IH]; simpl.
  - rewrite (proj2 (eqb_eq k k) eq_refl). reflexivity.
  - destruct (eqb k k0) eqn:E; simpl; rewrite E; [reflexivity | exact IH].
Qed.

Lemma dict_get_set_other (k k' : K) (v : V) (d : list (K * V)) :
  k' <> k ->
  dict_get eqb k' (dict_set eqb k v d) = dict_get eqb k' d.
Proof.
  intros Hne. induction d as [|[k0 v0] t IH]; simpl.
  - destruct (eqb k' k) eqn:E; [apply eqb_eq in E; contradiction | reflexivity].
  - destruct (eqb k k0) eqn:E; simpl.
    + apply eqb_eq in E. subst k0.
      destruct (eqb k' k) eqn:E'; [apply eqb_eq in E'; contradiction | reflexivity].
    + destruct (eqb k' k0); [reflexivity | exact IH].
Qed.
End DictFacts.

(** ** Recording one event *)

Lemma kind_eqb_eq (a b : kind) : kind_eqb a b = true <-> a = b.
Proof. destruct a, b; simpl; split; congruence. Qed.

Lemma events_get_append (k k' : kind) (idx : nat) (e : events) :
  events_get k (events_append k' idx e)
  = events_get k e ++ (if kind_eqb k k' then [idx] else []).
Proof. destruct k, k'; simpl; rewrite ?app_nil_r; reflexivity. Qed.

Lemma recorded_dict_set (name : string) (k' : kind) (idx : nat) (e : events)
    (results : results_t) (k : kind) (j : nat) :
  dict_get String.eqb name results = Some e ->
  recorded k j (dict_set String.eqb name (events_append k' idx e) results)
  = recorded k j results
    + (if (kind_eqb k k' && Nat.eqb j idx)%bool then 1 else 0).
Proof.
  unfold recorded, gather.
  induction results as [|[n0 v0] t IH]; simpl; [discriminate|].
  destruct (String.eqb name n0) eqn:E; intros Hget; simpl.
  - inversion Hget; subst v0.
    rewrite events_get_append, !(occ_app Nat.eqb).
    destruct (kind_eqb k k'); simpl; [|lia].
    destruct (Nat.eqb j idx); simpl; lia.
  - rewrite !(occ_app Nat.eqb), (IH Hget). lia.
Qed.

Lemma filed_append (k' : kind) (idx : nat) (e : events) (j : nat) :
  filed (events_append k' idx e) j
  = filed e j + (if Nat.eqb j idx then 1 else 0).
Proof.
  unfold filed. destruct k'; simpl; rewrite (occ_app Nat.eqb); simpl;
    destruct (Nat.eqb j idx); lia.
Qed.

Lemma record_event_ok (name_map : list (nat * string)) (results : results_t)
    (pos : nat) (name : string) (k' : kind) (idx : nat) :
  dict_get Nat.eqb pos name_map = Some name ->
  In name (keys results) ->
  exists results',
    record_event name_map results pos k' idx = Ok results'
    /\ keys results' = keys results
    /\ (forall k j,
          recorded k j results'
          = recorded k j results
            + (if (kind_eqb k k' && Nat.eqb j idx)%bool then 1 else 0))
    /\ (forall nm j,
          taxon_filed nm j results'
          = taxon_filed nm j results
            + (if (String.eqb nm name && Nat.eqb j idx)%bool then 1 else 0)).
Proof.
  intros Hname Hin. pose proof Hin as Hin'.
  apply (dict_get_keys String.eqb string_eqb_eq) in Hin.
  destruct Hin as [e He].
  unfold record_event. rewrite Hname, He.
  eexists. split; [reflexivity|]. split; [|split].
  - apply (keys_dict_set_present String.eqb string_eqb_eq). exact Hin'.
  - intros k j. apply recorded_dict_set. exact He.
  - intros nm j. unfold taxon_filed.
    destruct (String.eqb nm name) eqn:E.
    + apply String.eqb_eq in E. subst nm.
      rewrite (dict_get_set_same String.eqb string_eqb_eq), He, filed_append.
      simpl. reflexivity.
    + apply String.eqb_neq in E.
      rewrite (dict_get_set_other String.eqb string_eqb_eq) by exact E.
      simpl. lia.
Qed.

(** ** The chain of tests on one base *)

Lemma classify_missing (major : option ascii) (b : ascii) :
  char_in b missing_chars = true -> classify major b = Ok (Some K_None).
Proof. intros H. unfold classify. rewrite lower_missing, H. reflexivity. Qed.

(** With a major allele at hand the chain never falls through: a base
    that is not missing data is filed under one of the four other keys. *)
Lemma classify_considered (m b : ascii) :
  char_in b missing_chars = false ->
  exists k, classify (Some m) b = Ok (Some k) /\ k <> K_None.
Proof.
  intros H. unfold classify. rewrite lower_missing, H.
  destruct (Ascii.eqb (lower b) m) eqn:E1; [eexists; split; [reflexivity|discriminate]|].
  destruct (Ascii.eqb m gap) eqn:E2; destruct (Ascii.eqb (lower b) gap) eqn:E3;
    simpl; try (eexists; split; [reflexivity|discriminate]).
  apply Ascii.eqb_eq in E2, E3. apply Ascii.eqb_neq in E1. congruence.
Qed.

Lemma classify_exhaustive (m b : ascii) :
  exists k, classify (Some m) b = Ok (Some k).
Proof.
  destruct (char_in b missing_chars) eqn:H.
  - exists K_None. apply classify_missing. exact H.
  - destruct (classify_considered m b H) as [k [Hk _]]. eauto.
Qed.

Lemma occ_kind_total (ks : list kind) :
  occ kind_eqb K_majallele ks + occ kind_eqb K_substitution ks
  + occ kind_eqb K_deletion ks + occ kind_eqb K_insertion ks
  + occ kind_eqb K_None ks = List.length ks.
Proof.
  induction ks as [|k t IH]; simpl; [reflexivity|].
  destruct k; simpl; lia.
Qed.

(** ** One column *)

Lemma classify_column_ok (name_map : list (nat * string))
    (major : option ascii) (idx : nat) (col : seq_t) :
  forall (ks : list kind) (names : list string) (pos : nat)
         (results : results_t),
    Forall2 (fun b k => classify major b = Ok (Some k)) col ks ->
    List.length names = List.length col ->
    names_ok name_map results pos names ->
    exists results',
      classify_column name_map major idx pos col results = Ok results'
      /\ keys results' = keys results
      /\ (forall k j,
            recorded k j results'
            = recorded k j results
              + (if Nat.eqb j idx then occ kind_eqb k ks else 0))
      /\ (forall nm j,
            taxon_filed nm j results'
            = taxon_filed nm j results
              + (if Nat.eqb j idx then occ String.eqb nm names else 0)).
Proof.
  induction col as [|b rest IH]; intros ks names pos results Hks Hlen Hok.
  - inversion Hks; subst. destruct names; [|discriminate].
    exists results. simpl. repeat split; intros; destruct (Nat.eqb j idx); lia.
  - inversion Hks as [|? k0 ? ks' Hk Hrest]; subst.
    destruct names as [|name names']; [discriminate|].
    destruct Hok as [Hmap Hkeys].
    cbn [classify_column]. rewrite Hk. cbn [bind].
    destruct (@record_event_ok name_map results pos name k0 idx)
      as [r1 [Hr1 [Hkeys1 [Hcount1 Hfiled1]]]].
    { rewrite <- (Nat.add_0_r pos). apply Hmap. reflexivity. }
    { apply Hkeys. left. reflexivity. }
    rewrite Hr1. cbn [bind].
    destruct (IH ks' names' (S pos) r1 Hrest)
      as [r2 [Hr2 [Hkeys2 [Hcount2 Hfiled2]]]].
    { simpl in Hlen. lia. }
    { split.
      - intros i nm Hi. replace (S pos + i) with (pos + S i) by lia.
        apply Hmap. exact Hi.
      - intros nm Hnm. rewrite Hkeys1. apply Hkeys. right. exact Hnm. }
    exists r2. split; [exact Hr2|]. split; [congruence|]. split.
    + intros k j. rewrite Hcount2, Hcount1. simpl.
      destruct (Nat.eqb j idx); rewrite ?andb_true_r, ?andb_false_r;
        [destruct (kind_eqb k k0)|]; lia.
    + intros nm j. rewrite Hfiled2, Hfiled1. simpl.
      destruct (Nat.eqb j idx); rewrite ?andb_true_r, ?andb_false_r;
        [destruct (String.eqb nm name)|]; lia.
Qed.

(** ** The major allele of a column *)

Lemma choice_nonempty (A : Type) (r : nat) (l : list A) :
  l <> [] -> exists x, choice r l = Ok x /\ In x l.
Proof.
  intros Hl. unfold choice.
  destruct (nth_error l (r mod List.length l)) as [x|] eqn:E.
  - exists x. split; [reflexivity|]. eapply nth_error_In. exact E.
  - exfalso. apply nth_error_None in E.
    assert (List.length l <> 0) by (destruct l; simpl; congruence).
    pose proof (Nat.mod_upper_bound r (List.length l) H). lia.
Qed.

Lemma values_nonempty (K V : Type) (d : list (K * V)) :
  d <> [] -> values d <> [].
Proof. destruct d; simpl; congruence. Qed.

Lemma keys_nonempty (K V : Type) (d : list (K * V)) :
  d <> [] -> keys d <> [].
Proof. destruct d; simpl; congruence. Qed.

Lemma branch_of_ok (bases : seq_t) :
  exists b, branch_of bases = Ok b /\ (b = B_skip <-> bases = []).
Proof.
  unfold branch_of.
  destruct (List.length bases =? 0) eqn:E0.
  - apply Nat.eqb_eq in E0. exists B_skip. split; [reflexivity|].
    split; [intros _; destruct bases; [reflexivity|discriminate] | reflexivity].
  - apply Nat.eqb_neq in E0.
    assert (Hne : bases <> []) by (intros ->; apply E0; reflexivity).
    destruct (List.length (py_set Ascii.eqb bases) =? 1).
    + exists B_single. split; [reflexivity|]. split; [discriminate|contradiction].
    + destruct (@py_max_nonempty
                  (keys (Counter Nat.eqb (values (Counter Ascii.eqb bases)))))
        as [mx Hmx].
      { apply keys_nonempty, (@Counter_nonempty _ Nat.eqb _ nat_eqb_eq),
          values_nonempty, (@Counter_nonempty _ Ascii.eqb _ ascii_eqb_true), Hne. }
      rewrite Hmx. cbn [bind].
      destruct (counter_get Nat.eqb _ mx =? 1);
        eexists; (split; [reflexivity|]); split; try discriminate; contradiction.
Qed.

(** On a column of the alphabet the major allele is always found, and it
    is bound as soon as the column holds a considered base. *)
Lemma major_allele_ok (r : nat) (major : option ascii) (bases : seq_t) :
  Forall (fun c => in_alphabet c = true) bases ->
  Forall (fun c => char_in c missing_chars = false) bases ->
  exists major',
    major_allele r major bases = Ok major'
    /\ (bases <> [] -> exists m, major' = Some m)
    /\ (bases = [] -> major' = major).
Proof.
  intros Halpha Hcons. unfold major_allele.
  destruct (branch_of_ok bases) as [b [Hb Hskip]].
  rewrite Hb. cbn [bind]. destruct b.
  - exists major. split; [reflexivity|]. split; [|reflexivity].
    intros Hne. exfalso. apply Hne, Hskip. reflexivity.
  - destruct bases as [|b0 t].
    + exfalso. assert (B_single = B_skip) by (apply Hskip; reflexivity).
      discriminate.
    + eexists. split; [reflexivity|]. split; [eauto | discriminate].
  - assert (Hne : bases <> []).
    { intros H. apply Hskip in H. discriminate. }
    destruct (most_common (Counter Ascii.eqb bases)) as [|[b0 n0] t] eqn:E.
    + exfalso.
      apply (@Counter_nonempty _ Ascii.eqb _ ascii_eqb_true Hne).
      apply Permutation_nil. rewrite <- E. apply most_common_perm.
    + eexists. split; [reflexivity|]. split; [eauto | contradiction].
  - assert (Hne : bases <> []).
    { intros H. apply Hskip in H. discriminate. }
    destruct (tie_has_candidate Halpha Hcons Hb) as [mx [Hmx Hcb]].
    rewrite Hmx. cbn [bind].
    destruct (choice_nonempty r Hcb) as [m [Hm _]].
    rewrite Hm. cbn [bind].
    eexists. split; [reflexivity|]. split; [eauto | contradiction].
Qed.

Lemma strip_missing_considered (col : seq_t) :
  Forall (fun c => char_in c missing_chars = false) (strip_missing col).
Proof.
  apply Forall_forall. intros c Hc. apply strip_missing_in in Hc. tauto.
Qed.

Lemma strip_missing_alphabet (col : seq_t) :
  Forall (fun c => in_alphabet c = true) col ->
  Forall (fun c => in_alphabet c = true) (strip_missing col).
Proof.
  rewrite !Forall_forall. intros H c Hc. apply strip_missing_in in Hc.
  apply H. tauto.
Qed.

Lemma forall_exists_forall2 (A B : Type) (R : A -> B -> Prop) (l : list A) :
  Forall (fun a => exists b, R a b) l -> exists l', Forall2 R l l'.
Proof.
  induction 1 as [|a t [b Hb] _ [t' IH]]; [exists []; constructor|].
  exists (b :: t'). constructor; assumption.
Qed.

(** After the major allele has been computed every base of the column
    finds its key. *)
Lemma column_classified (r : nat) (major major' : option ascii)
    (col : seq_t) :
  major_allele r major (strip_missing col) = Ok major' ->
  (strip_missing col <> [] -> exists m, major' = Some m) ->
  exists ks, Forall2 (fun b k => classify major' b = Ok (Some k)) col ks.
Proof.
  intros _ Hbound. apply forall_exists_forall2.
  apply Forall_forall. intros b Hb.
  destruct (char_in b missing_chars) eqn:E.
  - exists K_None. apply classify_missing. exact E.
  - destruct Hbound as [m ->].
    + intros Hnil.
      assert (In b (strip_missing col)) by (apply strip_missing_in; auto).
      rewrite Hnil in H. contradiction.
    + apply classify_exhaustive.
Qed.

(** ** Columns of a rectangular alignment *)

Lemma column_ok (idx : nat) (aln : alignment) :
  Forall (fun r => idx < List.length (rec_seq r)) aln ->
  exists col,
    column aln idx = Ok col
    /\ List.length col = List.length aln
    /\ forall c, In c col -> exists r, In r aln /\ In c (rec_seq r).
Proof.
  induction 1 as [|r t Hr _ [col [Hcol [Hlen Hin]]]].
  - exists []. simpl. repeat split. intros c [].
  - cbn [column].
    destruct (nth_error (rec_seq r) idx) as [c|] eqn:E.
    2:{ apply nth_error_None in E. lia. }
    rewrite Hcol. cbn [bind]. exists (c :: col).
    split; [reflexivity|]. split; [simpl; congruence|].
    intros c' [<-|Hc'].
    + exists r. split; [left; reflexivity | eapply nth_error_In; exact E].
    + destruct (Hin c' Hc') as [r' [H1 H2]]. exists r'. split; [right|]; assumption.
Qed.

Lemma rectangular_column (idx : nat) (aln : alignment) :
  rectangular aln -> idx < get_alignment_length aln ->
  Forall (fun r => idx < List.length (rec_seq r)) aln.
Proof.
  unfold rectangular. intros H Hidx.
  eapply Forall_impl; [|exact H]. simpl. intros r Hr. lia.
Qed.

(** ** The column loop *)

Lemma column_step_ok (rnd : nat -> nat) (aln : alignment)
    (name_map : list (nat * string)) (st : state) (idx : nat) :
  rectangular aln -> over_alphabet aln ->
  idx < get_alignment_length aln ->
  names_ok name_map (st_results st) 0 (map rec_id aln) ->
  exists st' col,
    column_step rnd aln name_map st idx = Ok st'
    /\ column aln idx = Ok col
    /\ st_base_count st'
       = dict_set Nat.eqb idx (List.length (strip_missing col))
           (st_base_count st)
    /\ keys (st_results st') = keys (st_results st)
    /\ (forall j,
          recorded_all j (st_results st')
          = recorded_all j (st_results st)
            + (if Nat.eqb j idx then List.length aln else 0))
    /\ (forall nm j,
          taxon_filed nm j (st_results st')
          = taxon_filed nm j (st_results st)
            + (if Nat.eqb j idx then occ String.eqb nm (map rec_id aln)
               else 0)).
Proof.
  intros Hrect Halpha Hidx Hok.
  destruct (column_ok (rectangular_column Hrect Hidx)) as [col [Hcol [Hlen Hin]]].
  assert (Hcolalpha : Forall (fun c => in_alphabet c = true) col).
  { apply Forall_forall. intros c Hc. destruct (Hin c Hc) as [r [Hr Hcr]].
    unfold over_alphabet in Halpha. rewrite Forall_forall in Halpha.
    specialize (Halpha r Hr). rewrite Forall_forall in Halpha. auto. }
  destruct (@major_allele_ok (rnd idx) (st_major st) (strip_missing col)
              (strip_missing_alphabet Hcolalpha) (strip_missing_considered col))
    as [major' [Hmajor [Hbound _]]].
  destruct (column_classified _ _ _ Hmajor Hbound) as [ks Hks].
  destruct (@classify_column_ok name_map major' idx col ks (map rec_id aln) 0
              (st_results st) Hks)
    as [results' [Hres [Hkeys [Hrec Hfiled]]]].
  { rewrite length_map. congruence. }
  { exact Hok. }
  unfold column_step. rewrite Hcol. cbn [bind]. rewrite Hmajor. cbn [bind].
  rewrite Hres. cbn [bind].
  eexists. exists col. split; [reflexivity|]. split; [reflexivity|].
  cbn [st_base_count st_results]. split; [reflexivity|]. split; [exact Hkeys|].
  split; [|exact Hfiled].
  intros j. unfold recorded_all. rewrite !Hrec.
  destruct (Nat.eqb j idx); [|lia].
  rewrite <- Hlen, (Forall2_length Hks), <- (occ_kind_total ks). lia.
Qed.

Lemma column_loop_ok (rnd : nat -> nat) (aln : alignment)
    (name_map : list (nat * string)) (n : nat) :
  rectangular aln -> over_alphabet aln ->
  forall (a : nat) (st : state),
    a + n <= get_alignment_length aln ->
    names_ok name_map (st_results st) 0 (map rec_id aln) ->
    keys (st_base_count st) = seq 0 a ->
    exists st',
      column_loop rnd aln name_map (seq a n) st = Ok st'
      /\ keys (st_results st') = keys (st_results st)
      /\ keys (st_base_count st') = seq 0 (a + n)
      /\ (forall j,
            recorded_all j (st_results st')
            = recorded_all j (st_results st)
              + (if (Nat.leb a j && Nat.ltb j (a + n))%bool
                 then List.length aln else 0))
      /\ (forall nm j,
            taxon_filed nm j (st_results st')
            = taxon_filed nm j (st_results st)
              + (if (Nat.leb a j && Nat.ltb j (a + n))%bool
                 then occ String.eqb nm (map rec_id aln) else 0)).
Proof.
  intros Hrect Halpha. induction n as [|n IH]; intros a st Hle Hok Hkeys.
  - exists st. simpl. rewrite Nat.add_0_r.
    assert (Hf : forall j, ((a <=? j) && (j <? a))%bool = false).
    { intros j. destruct (Nat.leb_spec a j), (Nat.ltb_spec j a);
        simpl; try reflexivity; lia. }
    split; [reflexivity|]. split; [reflexivity|]. split; [exact Hkeys|].
    split; intros; rewrite Hf; lia.
  - cbn [seq column_loop].
    destruct (@column_step_ok rnd aln name_map st a Hrect Halpha)
      as [st1 [col [Hstep [_ [Hbc [Hk1 [Hrec1 Hfiled1]]]]]]]; [lia | exact Hok |].
    rewrite Hstep. cbn [bind].
    destruct (IH (S a) st1) as [st2 [Hloop [Hk2 [Hbc2 [Hrec2 Hfiled2]]]]].
    { lia. }
    { destruct Hok as [H1 H2]. split; [exact H1|].
      intros name Hname. rewrite Hk1. apply H2. exact Hname. }
    { rewrite Hbc, (keys_dict_set_absent Nat.eqb nat_eqb_eq), Hkeys.
      - symmetry. apply seq_S.
      - rewrite Hkeys, in_seq. lia. }
    exists st2. split; [exact Hloop|]. split; [congruence|].
    split; [rewrite Hbc2; f_equal; lia|].
    assert (Hcase : forall j,
               ((a <=? j) && (j <? a + S n))%bool
               = ((j =? a) || ((S a <=? j) && (j <? S a + n)))%bool).
    { intros j.
      destruct (Nat.eqb_spec j a), (Nat.leb_spec a j), (Nat.leb_spec (S a) j),
        (Nat.ltb_spec j (a + S n)), (Nat.ltb_spec j (S a + n));
        simpl; try reflexivity; lia. }
    split.
    + intros j. rewrite Hrec2, Hrec1, Hcase.
      destruct (Nat.eqb_spec j a).
      * replace (S a <=? j) with false
          by (symmetry; apply Nat.leb_gt; lia). simpl. lia.
      * simpl. lia.
    + intros nm j. rewrite Hfiled2, Hfiled1, Hcase.
      destruct (Nat.eqb_spec j a).
      * replace (S a <=? j) with false
          by (symmetry; apply Nat.leb_gt; lia). simpl. lia.
      * simpl. lia.
Qed.

(** ** The maps [worker] sets up *)

Lemma keys_dict_set_in (K V : Type) (eqb : K -> K -> bool) (k k' : K) (v : V)
    (d : list (K * V)) :
  (forall a b, eqb a b = true <-> a = b) ->
  In k' (keys (dict_set eqb k v d)) <-> k' = k \/ In k' (keys d).
Proof.
  intros Heq. unfold keys. induction d as [|[k0 v0] t IH]; simpl.
  - intuition.
  - destruct (eqb k k0) eqn:E; simpl.
    + apply Heq in E. subst. intuition.
    + rewrite IH. intuition.
Qed.

Lemma all_empty_set (name : string) (results : results_t) :
  all_empty results -> all_empty (dict_set String.eqb name no_events results).
Proof.
  unfold all_empty. induction 1 as [|[n0 v0] t Hv Ht IH]; simpl.
  - repeat constructor.
  - destruct (String.eqb name n0); constructor; auto.
Qed.

Lemma all_empty_recorded (results : results_t) (k : kind) (j : nat) :
  all_empty results -> recorded k j results = 0.
Proof.
  unfold recorded, gather.
  induction 1 as [|[n0 v0] t Hv _ IH]; simpl; [reflexivity|].
  simpl in Hv. subst v0. rewrite (occ_app Nat.eqb), IH.
  destruct k; reflexivity.
Qed.

Lemma all_empty_filed (results : results_t) (name : string) (j : nat) :
  all_empty results -> taxon_filed name j results = 0.
Proof.
  unfold taxon_filed.
  induction 1 as [|[n0 v0] t Hv _ IH]; simpl; [reflexivity|].
  simpl in Hv. subst v0. destruct (String.eqb name n0); [reflexivity | exact IH].
Qed.

Lemma init_maps_ok (aln : alignment) :
  forall (idx : nat) (name_map : list (nat * string)) (results : results_t),
    (forall p, p < idx ->
       dict_get Nat.eqb p (fst (init_maps aln idx name_map results))
       = dict_get Nat.eqb p name_map)
    /\ (forall i name, nth_error (map rec_id aln) i = Some name ->
          dict_get Nat.eqb (idx + i) (fst (init_maps aln idx name_map results))
          = Some name)
    /\ (forall name,
          In name (keys (snd (init_maps aln idx name_map results)))
          <-> In name (map rec_id aln) \/ In name (keys results))
    /\ (all_empty results ->
        all_empty (snd (init_maps aln idx name_map results))).
Proof.
  induction aln as [|taxon rest IH]; intros idx name_map results.
  - simpl. repeat split; try tauto. intros [|i] name H; discriminate.
  - cbn [init_maps map].
    destruct (IH (S idx) (dict_set Nat.eqb idx (rec_id taxon) name_map)
                (dict_set String.eqb (rec_id taxon) no_events results))
      as [H1 [H2 [H3 H4]]].
    split; [|split; [|split]].
    + intros p Hp. rewrite H1 by lia.
      apply (dict_get_set_other Nat.eqb nat_eqb_eq). lia.
    + intros [|i] name Hi.
      * simpl in Hi. inversion Hi; subst. rewrite Nat.add_0_r, H1 by lia.
        apply (dict_get_set_same Nat.eqb nat_eqb_eq).
      * simpl in Hi. replace (idx + S i) with (S idx + i) by lia.
        apply H2. exact Hi.
    + intros name. rewrite H3, (@keys_dict_set_in _ _ String.eqb _ _ _ _ string_eqb_eq).
      simpl. intuition.
    + intros He. apply H4, all_empty_set, He.
Qed.

(** ** [replace_gaps] keeps names, shape and alphabet *)

Lemma aln_append_ok (aln out : alignment) (r : SeqRecord) :
  aln_append aln r = Ok out ->
  out = aln ++ [r]
  /\ (aln <> [] -> List.length (rec_seq r) = get_alignment_length aln).
Proof.
  unfold aln_append. destruct aln as [|r0 t].
  - intros H. inversion H. split; [reflexivity | congruence].
  - destruct (List.length (rec_seq r) =? get_alignment_length (r0 :: t)) eqn:E;
      intros H; inversion H.
    apply Nat.eqb_eq in E. split; [reflexivity | auto].
Qed.

Lemma rectangular_append (aln out : alignment) (r : SeqRecord) :
  rectangular aln -> aln_append aln r = Ok out -> rectangular out.
Proof.
  intros Hrect H. destruct (aln_append_ok _ _ H) as [-> Hlen].
  unfold rectangular in *. destruct aln as [|r0 t].
  - simpl. repeat constructor.
  - specialize (Hlen ltac:(discriminate)). simpl in *.
    change (r0 :: t ++ [r]) with ((r0 :: t) ++ [r]).
    apply Forall_app. split; [exact Hrect | repeat constructor; exact Hlen].
Qed.

Lemma walk_gaps_forall (P : ascii -> Prop) (s : seq_t) :
  P qmark ->
  forall i acc idx, Forall P acc -> Forall P (fst (fst (walk_gaps s i acc idx))).
Proof.
  intros Hq. induction s as [|c t IH]; intros i acc idx Hacc; simpl; [exact Hacc|].
  destruct (is_gap c); [|exact Hacc].
  apply IH. apply Forall_app. split; [exact Hacc | repeat constructor; exact Hq].
Qed.

Lemma slice_in (A : Type) (s : list A) (a b : nat) (x : A) :
  In x (slice s a b) -> In x s.
Proof.
  unfold slice. intros H.
  rewrite <- (firstn_skipn b s). apply in_or_app. left.
  rewrite <- (firstn_skipn a (firstn b s)). apply in_or_app. right. exact H.
Qed.

Lemma normalise_forall (P : ascii -> Prop) (s s' : seq_t) :
  P qmark -> Forall P s ->
  replace_gaps_at_start_and_ends s = Ok s' -> Forall P s'.
Proof.
  intros Hq Hs. unfold replace_gaps_at_start_and_ends.
  pose proof (@walk_gaps_forall P s Hq 0 [] None (Forall_nil P)) as H1.
  pose proof (@walk_gaps_forall P (rev s) Hq 0 [] None (Forall_nil P)) as H2.
  destruct (walk_gaps s 0 [] None) as [[begin start] b1].
  destruct (walk_gaps (rev s) 0 [] None) as [[end_ stop0] broke].
  simpl in H1, H2.
  destruct start as [a|]; [|discriminate].
  destruct stop0 as [j|]; [|discriminate].
  intros H. inversion H; subst s'.
  apply Forall_app. split; [exact H1|].
  apply Forall_app. split; [|exact H2].
  apply Forall_forall. intros c Hc.
  rewrite Forall_forall in Hs. apply Hs.
  eapply slice_in. exact Hc.
Qed.

Lemma replace_gaps_from_ok (aln : alignment) :
  forall new_aln out,
    replace_gaps_from aln new_aln = Ok out ->
    map rec_id out = map rec_id new_aln ++ map rec_id aln
    /\ (rectangular new_aln -> rectangular out)
    /\ (over_alphabet new_aln -> over_alphabet aln -> over_alphabet out).
Proof.
  induction aln as [|taxon rest IH]; intros new_aln out H.
  - simpl in H. inversion H; subst. rewrite app_nil_r. tauto.
  - cbn [replace_gaps_from] in H.
    apply bind_ok_inv in H. destruct H as [s [Hs H]].
    apply bind_ok_inv in H. destruct H as [new' [Happ H]].
    destruct (IH _ _ H) as [Hids [Hrect Halpha]].
    pose proof (aln_append_ok _ _ Happ) as [Hnew _].
    split; [|split].
    + rewrite Hids, Hnew, map_app, <- app_assoc. reflexivity.
    + intros Hr. apply Hrect. eapply rectangular_append; eauto.
    + intros Ha Hb. inversion Hb as [|? ? Ht Hrest]; subst.
      apply Halpha; [|exact Hrest].
      apply Forall_app. split; [exact Ha|].
      repeat constructor. simpl.
      eapply normalise_forall; [reflexivity | exact Ht | exact Hs].
Qed.

Lemma replace_gaps_ok (aln aln' : alignment) :
  replace_gaps aln = Ok aln' ->
  map rec_id aln' = map rec_id aln
  /\ rectangular aln'
  /\ (over_alphabet aln -> over_alphabet aln').
Proof.
  intros H. destruct (replace_gaps_from_ok _ _ H) as [H1 [H2 H3]].
  split; [exact H1|]. split.
  - apply H2. constructor.
  - apply H3. constructor.
Qed.

(** ** The rows of [by_locus] *)

Lemma sorted_seq (n : nat) : forall a, sorted (seq a n) = seq a n.
Proof.
  induction n as [|n IH]; intros a; [reflexivity|].
  simpl. unfold sorted in IH. rewrite IH.
  destruct n as [|n]; [reflexivity|]. simpl.
  replace (a <=? S a) with true by (symmetry; apply Nat.leb_le; lia).
  reflexivity.
Qed.

Lemma position_count_recorded (k : kind) (results : results_t) (pos : nat) :
  counter_get Nat.eqb (position_counts k results) pos = recorded k pos results.
Proof. apply (counter_get_Counter Nat.eqb nat_eqb_eq). Qed.

Lemma by_locus_row_sum (wr : worker_result) (row : by_locus_row) :
  In row (by_locus_rows wr) ->
  bl_majallele row + bl_substitutions row + bl_deletions row
  + bl_insertions row + bl_missing row
  = recorded_all (bl_position row) (wr_results wr).
Proof.
  unfold by_locus_rows. rewrite in_map_iff. intros [pos [<- _]].
  cbn [bl_majallele bl_substitutions bl_deletions bl_insertions bl_missing
       bl_position].
  rewrite !position_count_recorded. reflexivity.
Qed.

Lemma by_locus_positions (wr : worker_result) :
  map bl_position (by_locus_rows wr) = sorted (keys (wr_bases wr)).
Proof.
  unfold by_locus_rows. rewrite map_map. simpl. apply map_id.
Qed.

(** ** The classifier on a normalised alignment *)

Lemma classify_alignment_ok (rnd : nat -> nat) (locus : string)
    (ids : alignment) (aln : alignment) :
  map rec_id aln = map rec_id ids ->
  rectangular aln -> over_alphabet aln ->
  exists wr,
    classify_alignment rnd locus (fst (init_maps ids 0 [] []))
      (snd (init_maps ids 0 [] [])) aln = Ok wr
    /\ wr_length wr = get_alignment_length aln
    /\ keys (wr_bases wr) = seq 0 (get_alignment_length aln)
    /\ (forall j, j < get_alignment_length aln ->
          recorded_all j (wr_results wr) = List.length aln)
    /\ (forall nm j, j < get_alignment_length aln ->
          taxon_filed nm j (wr_results wr)
          = occ String.eqb nm (map rec_id aln)).
Proof.
  intros Hids Hrect Halpha.
  destruct (init_maps_ok ids 0 [] []) as [_ [Hmap [Hkeys Hempty]]].
  specialize (Hempty ltac:(constructor)).
  set (name_map := fst (init_maps ids 0 [] [])) in *.
  set (results := snd (init_maps ids 0 [] [])) in *.
  destruct (@column_loop_ok rnd aln name_map (get_alignment_length aln)
              Hrect Halpha 0 (mkState None results []))
    as [st [Hloop [_ [Hbc [Hrec Hfiled]]]]].
  { lia. }
  { split.
    - intros i name Hi. rewrite Hids in Hi. apply (Hmap i name Hi).
    - intros name Hname. apply Hkeys. left. rewrite <- Hids. exact Hname. }
  { reflexivity. }
  unfold classify_alignment. rewrite Hloop. cbn [bind].
  eexists. split; [reflexivity|].
  cbn [wr_length wr_bases wr_results]. split; [reflexivity|].
  split; [exact Hbc|]. cbn [st_results] in Hrec, Hfiled. split.
  - intros j Hj. rewrite Hrec. unfold recorded_all.
    rewrite !all_empty_recorded by exact Hempty.
    replace (0 <=? j) with true by reflexivity.
    replace (j <? 0 + get_alignment_length aln) with true
      by (symmetry; apply Nat.ltb_lt; lia).
    simpl. reflexivity.
  - intros nm j Hj. rewrite Hfiled, all_empty_filed by exact Hempty.
    replace (0 <=? j) with true by reflexivity.
    replace (j <? 0 + get_alignment_length aln) with true
      by (symmetry; apply Nat.ltb_lt; lia).
    simpl. reflexivity.
Qed.

Lemma get_alignment_length_app (aln : alignment) (r : SeqRecord) :
  aln <> [] -> get_alignment_length (aln ++ [r]) = get_alignment_length aln.
Proof. destruct aln; [congruence | reflexivity]. Qed.

Lemma aln_append_same_length (aln : alignment) (r : SeqRecord) (L : nat) :
  aln = [] \/ get_alignment_length aln = L ->
  List.length (rec_seq r) = L ->
  aln_append aln r = Ok (aln ++ [r])
  /\ aln ++ [r] <> []
  /\ get_alignment_length (aln ++ [r]) = L.
Proof.
  intros Haln Hr. destruct aln as [|r0 t].
  - simpl. repeat split; [discriminate | exact Hr].
  - destruct Haln as [H|H]; [discriminate|].
    unfold aln_append. rewrite Hr, H, Nat.eqb_refl.
    repeat split; [discriminate | exact H].
Qed.


(** ** The normaliser against the specification's wording *)

Lemma split_leading_gaps (s : seq_t) :
  exists a rest,
    s = repeat gap a ++ rest
    /\ (rest = [] \/ exists c r, rest = c :: r /\ is_gap c = false).
Proof.
  induction s as [|c t [a [rest [Ht Hrest]]]].
  - exists 0, []. split; [reflexivity | left; reflexivity].
  - destruct (is_gap c) eqn:E.
    + apply is_gap_true in E. subst c. exists (S a), rest.
      split; [simpl; rewrite Ht; reflexivity | exact Hrest].
    + exists 0, (c :: t). split; [reflexivity|]. right. eauto.
Qed.

Lemma has_data_repeat (a : nat) (rest : seq_t) :
  has_data (repeat gap a ++ rest) = has_data rest.
Proof. induction a as [|a IH]; [reflexivity | simpl; exact IH]. Qed.

Lemma has_data_rev (s : seq_t) : has_data (rev s) = has_data s.
Proof.
  unfold has_data. destruct (existsb _ s) eqn:E.
  - apply existsb_exists in E. destruct E as [c [Hc Hg]].
    apply existsb_exists. exists c. split; [apply in_rev in Hc|]; assumption.
  - destruct (existsb _ (rev s)) eqn:E'; [|reflexivity].
    apply existsb_exists in E'. destruct E' as [c [Hc Hg]].
    assert (existsb (fun c => negb (is_gap c)) s = true); [|congruence].
    apply existsb_exists. exists c. split; [apply in_rev|]; assumption.
Qed.

(** A sequence with data is a run of gaps, a core that begins and ends
    outside the gap, and a run of gaps. *)
Lemma split_end_gaps (s : seq_t) :
  has_data s = true ->
  exists a b c1 c2 core,
    is_gap c1 = false /\ is_gap c2 = false
    /\ (s = repeat gap a ++ [c1] ++ repeat gap b /\ c2 = c1 /\ core = []
        \/ s = repeat gap a ++ (c1 :: core ++ [c2]) ++ repeat gap b).
Proof.
  intros Hdata.
  destruct (split_leading_gaps s) as [a [rest [Hs Hrest]]].
  rewrite Hs, has_data_repeat in Hdata.
  destruct Hrest as [->|[c1 [r [-> Hc1]]]]; [discriminate|].
  destruct (split_leading_gaps (rev (c1 :: r))) as [b [rest2 [Hrev Hrest2]]].
  assert (Hd2 : has_data rest2 = true).
  { rewrite <- (has_data_repeat b), <- Hrev, has_data_rev. exact Hdata. }
  destruct Hrest2 as [->|[c2 [r2 [-> Hc2]]]]; [discriminate|].
  assert (Hr : c1 :: r = rev r2 ++ [c2] ++ repeat gap b).
  { rewrite <- (rev_involutive (c1 :: r)), Hrev, rev_app_distr, rev_repeat.
    simpl. rewrite <- app_assoc. reflexivity. }
  exists a, b, c1, c2.
  destruct (rev r2) as [|x core] eqn:Er2.
  - exists []. simpl in Hr. inversion Hr; subst.
    split; [exact Hc1|]. split; [exact Hc1|]. left. auto.
  - exists core. simpl in Hr. inversion Hr; subst.
    split; [exact Hc1|]. split; [exact Hc2|]. right.
    simpl. rewrite <- !app_assoc. reflexivity.
Qed.

Lemma mask_leading_run (a : nat) (c : ascii) (rest : seq_t) :
  is_gap c = false ->
  mask_leading_gaps (repeat gap a ++ c :: rest)
  = repeat qmark a ++ c :: rest.
Proof.
  intros Hc. induction a as [|a IH]; simpl; [rewrite Hc; reflexivity|].
  change (is_gap gap) with true. cbv iota. rewrite IH. reflexivity.
Qed.

Lemma end_gaps_masked_core (a b : nat) (c1 c2 : ascii) (core : seq_t) :
  is_gap c1 = false -> is_gap c2 = false ->
  end_gaps_masked (repeat gap a ++ (c1 :: core ++ [c2]) ++ repeat gap b)
  = repeat qmark a ++ (c1 :: core ++ [c2]) ++ repeat qmark b.
Proof.
  intros H1 H2. unfold end_gaps_masked.
  change (repeat gap a ++ (c1 :: core ++ [c2]) ++ repeat gap b)
    with (repeat gap a ++ c1 :: (core ++ [c2]) ++ repeat gap b).
  rewrite mask_leading_run by exact H1.
  replace (rev (repeat qmark a ++ c1 :: (core ++ [c2]) ++ repeat gap b))
    with (repeat gap b ++ c2 :: rev core ++ c1 :: repeat qmark a).
  2:{ rewrite rev_app_distr. simpl. rewrite !rev_app_distr. simpl.
      rewrite !rev_repeat. rewrite <- !app_assoc. reflexivity. }
  rewrite mask_leading_run by exact H2.
  rewrite rev_app_distr. simpl. rewrite rev_app_distr. simpl.
  rewrite !rev_repeat, rev_involutive. rewrite <- !app_assoc. reflexivity.
Qed.

Lemma end_gaps_masked_single (a b : nat) (c : ascii) :
  is_gap c = false ->
  end_gaps_masked (repeat gap a ++ [c] ++ repeat gap b)
  = repeat qmark a ++ [c] ++ repeat qmark b.
Proof.
  intros H. unfold end_gaps_masked.
  change (repeat gap a ++ [c] ++ repeat gap b)
    with (repeat gap a ++ c :: repeat gap b).
  rewrite mask_leading_run by exact H.
  replace (rev (repeat qmark a ++ c :: repeat gap b))
    with (repeat gap b ++ c :: repeat qmark a).
  2:{ rewrite rev_app_distr. simpl. rewrite !rev_repeat.
      rewrite <- app_assoc. reflexivity. }
  rewrite mask_leading_run by exact H.
  rewrite rev_app_distr. simpl. rewrite !rev_repeat.
  rewrite <- app_assoc. reflexivity.
Qed.

(** On a sequence with data the function of the script computes the
    normalisation of the specification. *)
Lemma normalise_refines (s : seq_t) :
  has_data s = true ->
  replace_gaps_at_start_and_ends s = Ok (end_gaps_masked s).
Proof.
  intros Hdata.
  destruct (split_end_gaps s Hdata)
    as [a [b [c1 [c2 [core [H1 [H2 [[-> [-> ->]]| ->]]]]]]]].
  - rewrite normalise_single, end_gaps_masked_single by exact H1. reflexivity.
  - rewrite normalise_core, end_gaps_masked_core by assumption. reflexivity.
Qed.

Lemma mask_leading_length (s : seq_t) :
  List.length (mask_leading_gaps s) = List.length s.
Proof.
  induction s as [|c t IH]; [reflexivity|].
  simpl. destruct (is_gap c); simpl; [rewrite IH|]; reflexivity.
Qed.

Lemma end_gaps_masked_length (s : seq_t) :
  List.length (end_gaps_masked s) = List.length s.
Proof.
  unfold end_gaps_masked.
  rewrite length_rev, mask_leading_length, length_rev, mask_leading_length.
  reflexivity.
Qed.

(** The specification's normalisation of a sequence of gaps has the length
    of the sequence; the script's has twice that length
    ([normalise_all_gaps]). *)
Lemma end_gaps_masked_all_gaps (n : nat) :
  end_gaps_masked (repeat gap n) = repeat qmark n.
Proof.
  assert (H : forall m, mask_leading_gaps (repeat gap m) = repeat qmark m).
  { induction m as [|m IH]; [reflexivity|]. simpl.
    change (is_gap gap) with true. cbv iota. rewrite IH. reflexivity. }
  assert (H' : forall m, mask_leading_gaps (repeat qmark m) = repeat qmark m).
  { destruct m; reflexivity. }
  unfold end_gaps_masked. rewrite H, rev_repeat, H', rev_repeat. reflexivity.
Qed.

(** [replace_gaps] goes through on a rectangular alignment whose records
    all hold data. *)
Lemma replace_gaps_from_total (aln : alignment) (L : nat) :
  forall new_aln,
    Forall (fun r => List.length (rec_seq r) = L) aln ->
    Forall (fun r => has_data (rec_seq r) = true) aln ->
    new_aln = [] \/ get_alignment_length new_aln = L ->
    replace_gaps_from aln new_aln = Ok (new_aln ++ map normalised_record aln).
Proof.
  induction aln as [|r t IH]; intros new_aln Hlen Hdata Hnew.
  - simpl. rewrite app_nil_r. reflexivity.
  - inversion Hlen as [|? ? Hr Ht]; subst.
    inversion Hdata as [|? ? Hd Hdt]; subst.
    cbn [replace_gaps_from]. rewrite (normalise_refines _ Hd). cbn [bind].
    destruct (@aln_append_same_length new_aln (normalised_record r)
                (List.length (rec_seq r)) Hnew) as [Happ [_ Hlen']].
    { simpl. apply end_gaps_masked_length. }
    unfold normalised_record in Happ at 1. rewrite Happ. cbn [bind].
    rewrite (IH _ Ht Hdt (or_intror Hlen')). cbn [map].
    rewrite <- app_assoc. reflexivity.
Qed.

Lemma replace_gaps_total (aln : alignment) :
  rectangular aln ->
  Forall (fun r => has_data (rec_seq r) = true) aln ->
  replace_gaps aln = Ok (map normalised_record aln).
Proof.
  intros Hrect Hdata. unfold replace_gaps.
  rewrite (@replace_gaps_from_total aln (get_alignment_length aln) []
             Hrect Hdata (or_introl eq_refl)).
  reflexivity.
Qed.

Lemma column_length (idx : nat) (aln : alignment) :
  forall col, column aln idx = Ok col -> List.length col = List.length aln.
Proof.
  induction aln as [|r t IH]; intros col H.
  - inversion H. reflexivity.
  - cbn [column] in H. destruct (nth_error (rec_seq r) idx); [|discriminate].
    apply bind_ok_inv in H. destruct H as [rest [Hrest H]].
    inversion H; subst. simpl. f_equal. apply IH. exact Hrest.
Qed.

Lemma py_set_repeat (b : ascii) (t : seq_t) :
  Forall (eq b) t ->
  fold_left (fun s k => if existsb (Ascii.eqb k) s then s else s ++ [k]) t [b]
  = [b].
Proof.
  induction t as [|c t IH]; intros Hall; [reflexivity|].
  inversion Hall as [|? ? Hc Ht]; subst.
  simpl. rewrite Ascii.eqb_refl. simpl. apply IH. exact Ht.
Qed.

Lemma py_set_single (b : ascii) (l : seq_t) :
  l <> [] -> Forall (eq b) l -> py_set Ascii.eqb l = [b].
Proof.
  intros Hne Hall. destruct l as [|c t]; [congruence|].
  inversion Hall as [|? ? Hc Ht]; subst.
  unfold py_set. simpl. apply py_set_repeat. exact Ht.
Qed.

Lemma branch_single (b : ascii) (bases : seq_t) :
  bases <> [] -> Forall (eq b) bases -> branch_of bases = Ok B_single.
Proof.
  intros Hne Hall. unfold branch_of.
  destruct (List.length bases =? 0) eqn:E.
  - apply Nat.eqb_eq in E. destruct bases; [congruence | discriminate].
  - rewrite (py_set_single Hne Hall). reflexivity.
Qed.

Lemma branch_skip (bases : seq_t) : bases = [] -> branch_of bases = Ok B_skip.
Proof. intros ->. reflexivity. Qed.

(** One turn of the loop, once the keys of the column's bases are
    known. *)
Lemma column_step_with (rnd : nat -> nat) (aln : alignment)
    (name_map : list (nat * string)) (st : state) (idx : nat)
    (col : seq_t) (major' : option ascii) (ks : list kind) :
  column aln idx = Ok col ->
  major_allele (rnd idx) (st_major st) (strip_missing col) = Ok major' ->
  Forall2 (fun b k => classify major' b = Ok (Some k)) col ks ->
  names_ok name_map (st_results st) 0 (map rec_id aln) ->
  exists st',
    column_step rnd aln name_map st idx = Ok st'
    /\ st_major st' = major'
    /\ st_base_count st'
       = dict_set Nat.eqb idx (List.length (strip_missing col))
           (st_base_count st)
    /\ (forall k j,
          recorded k j (st_results st')
          = recorded k j (st_results st)
            + (if Nat.eqb j idx then occ kind_eqb k ks else 0)).
Proof.
  intros Hcol Hmajor Hks Hok.
  destruct (@classify_column_ok name_map major' idx col ks (map rec_id aln) 0
              (st_results st) Hks)
    as [results' [Hres [_ [Hrec _]]]].
  { rewrite length_map. symmetry. eapply column_length. exact Hcol. }
  { exact Hok. }
  unfold column_step. rewrite Hcol. cbn [bind]. rewrite Hmajor. cbn [bind].
  rewrite Hres. cbn [bind].
  eexists. split; [reflexivity|]. cbn [st_major st_base_count st_results].
  repeat split. exact Hrec.
Qed.

Lemma names_ok_init (aln : alignment) :
  names_ok (fst (init_maps aln 0 [] [])) (snd (init_maps aln 0 [] [])) 0
    (map rec_id aln).
Proof.
  destruct (init_maps_ok aln 0 [] []) as [_ [Hmap [Hkeys _]]].
  split; [exact Hmap|]. intros name H. apply Hkeys. left. exact H.
Qed.

Lemma occ_kind_const (k k0 : kind) (A : Type) (l : list A) :
  occ kind_eqb k (map (fun _ => k0) l)
  = if kind_eqb k k0 then List.length l else 0.
Proof.
  induction l as [|x t IH]; simpl; [destruct (kind_eqb k k0); reflexivity|].
  rewrite IH. destruct (kind_eqb k k0); reflexivity.
Qed.

(** ** The claims on the column classifier *)

(** C7.  A column whose considered bases are empty: the turn of the loop
    goes through whatever the state, every entry of the column is filed
    under the key [None] (missing), the count of considered bases stored
    for the position is 0, and at this position one missing event per
    record and no event of another kind is added. *)
Theorem C7_empty_column_all_missing (rnd : nat -> nat) (aln : alignment)
    (name_map : list (nat * string)) (st : state) (idx : nat) (col : seq_t) :
  column aln idx = Ok col ->
  strip_missing col = [] ->
  names_ok name_map (st_results st) 0 (map rec_id aln) ->
  exists st',
    column_step rnd aln name_map st idx = Ok st'
    /\ Forall (fun b => classify (st_major st') b = Ok (Some K_None)) col
    /\ dict_get Nat.eqb idx (st_base_count st') = Some 0
    /\ recorded K_None idx (st_results st')
       = recorded K_None idx (st_results st) + List.length aln
    /\ (forall k, k <> K_None ->
          recorded k idx (st_results st') = recorded k idx (st_results st)).
Proof.
  intros Hcol Hstrip Hok.
  assert (Hmiss : forall b, In b col -> char_in b missing_chars = true).
  { intros b Hb. destruct (char_in b missing_chars) eqn:E; [reflexivity|].
    assert (In b (strip_missing col)) by (apply strip_missing_in; auto).
    rewrite Hstrip in H. contradiction. }
  assert (Hmajor : major_allele (rnd idx) (st_major st) (strip_missing col)
                   = Ok (st_major st)).
  { rewrite Hstrip. reflexivity. }
  assert (Hks : Forall2 (fun b k => classify (st_major st) b = Ok (Some k))
                  col (map (fun _ => K_None) col)).
  { clear Hcol Hstrip Hmajor. induction col as [|b t IH]; constructor.
    - apply classify_missing, Hmiss. left. reflexivity.
    - apply IH. intros c Hc. apply Hmiss. right. exact Hc. }
  destruct (@column_step_with rnd aln name_map st idx col _ _ Hcol Hmajor Hks Hok)
    as [st' [Hstep [Hmaj [Hbc Hrec]]]].
  exists st'. split; [exact Hstep|]. split; [|split; [|split]].
  - rewrite Hmaj. apply Forall_forall. intros b Hb.
    apply classify_missing, Hmiss, Hb.
  - rewrite Hbc, Hstrip. apply (dict_get_set_same Nat.eqb nat_eqb_eq).
  - rewrite Hrec, Nat.eqb_refl, occ_kind_const. simpl.
    rewrite (column_length _ _ Hcol). reflexivity.
  - intros k Hk. rewrite Hrec, Nat.eqb_refl, occ_kind_const.
    destruct (kind_eqb k K_None) eqn:E; [|lia].
    apply kind_eqb_eq in E. contradiction.
Qed.

Lemma C7_empty_column_all_missing_witness :
  exists st',
    column_step (fun _ => 0) example_missing
      (fst (init_maps example_missing 0 [] []))
      (initial_state example_missing) 1 = Ok st'
    /\ Forall (fun b => classify (st_major st') b = Ok (Some K_None))
         (seq_of "N?n")
    /\ dict_get Nat.eqb 1 (st_base_count st') = Some 0
    /\ recorded K_None 1 (st_results st')
       = recorded K_None 1 (st_results (initial_state example_missing))
         + List.length example_missing
    /\ (forall k, k <> K_None ->
          recorded k 1 (st_results st')
          = recorded k 1 (st_results (initial_state example_missing))).
Proof.
  apply (@C7_empty_column_all_missing (fun _ => 0) example_missing
           (fst (init_maps example_missing 0 [] []))
           (initial_state example_missing) 1 (seq_of "N?n")).
  - reflexivity.
  - reflexivity.
  - apply names_ok_init.
Defined.

Lemma occ_kind_unanimous (k : kind) (col : seq_t) :
  occ kind_eqb k
    (map (fun c => if char_in c missing_chars then K_None else K_majallele) col)
  = (if kind_eqb k K_None
     then List.length col - List.length (strip_missing col) else 0)
    + (if kind_eqb k K_majallele then List.length (strip_missing col) else 0).
Proof.
  unfold strip_missing. induction col as [|c t IH].
  - destruct k; reflexivity.
  - cbn [map occ filter]. rewrite IH.
    pose proof (filter_length_le (fun c => negb (char_in c missing_chars)) t).
    destruct (char_in c missing_chars); cbn [negb List.length];
      destruct k; cbn [kind_eqb]; lia.
Qed.

(** C8.  A column all of whose considered bases are the same base [b]:
    the turn of the loop goes through whatever the state; the major allele
    is [b], held in lower case as every base is when it is compared with
    it; every entry that is not missing data is filed under [majallele];
    at this position one major-allele event per considered base is added
    and no substitution, insertion or deletion.  (The statement also
    covers a column whose considered bases are all the gap.) *)
Theorem C8_unanimous_column (rnd : nat -> nat) (aln : alignment)
    (name_map : list (nat * string)) (st : state) (idx : nat) (col : seq_t)
    (b : ascii) :
  column aln idx = Ok col ->
  strip_missing col <> [] ->
  Forall (eq b) (strip_missing col) ->
  names_ok name_map (st_results st) 0 (map rec_id aln) ->
  exists st',
    column_step rnd aln name_map st idx = Ok st'
    /\ st_major st' = Some (lower b)
    /\ Forall (fun c => char_in c missing_chars = false ->
                        classify (st_major st') c = Ok (Some K_majallele)) col
    /\ recorded K_majallele idx (st_results st')
       = recorded K_majallele idx (st_results st)
         + List.length (strip_missing col)
    /\ recorded K_substitution idx (st_results st')
       = recorded K_substitution idx (st_results st)
    /\ recorded K_insertion idx (st_results st')
       = recorded K_insertion idx (st_results st)
    /\ recorded K_deletion idx (st_results st')
       = recorded K_deletion idx (st_results st).
Proof.
  intros Hcol Hne Hall Hok.
  assert (Hmajor : major_allele (rnd idx) (st_major st) (strip_missing col)
                   = Ok (Some (lower b))).
  { unfold major_allele. rewrite (branch_single Hne Hall). cbn [bind].
    destruct (strip_missing col) as [|b0 t]; [congruence|].
    inversion Hall; subst. reflexivity. }
  assert (Hmaj : forall c, In c col -> char_in c missing_chars = false ->
                   classify (Some (lower b)) c = Ok (Some K_majallele)).
  { intros c Hc Hm.
    assert (Hin : In c (strip_missing col)) by (apply strip_missing_in; auto).
    rewrite Forall_forall in Hall. rewrite (Hall c Hin).
    unfold classify. rewrite lower_missing, Hm, Ascii.eqb_refl. reflexivity. }
  assert (Hks : Forall2 (fun c k => classify (Some (lower b)) c = Ok (Some k))
                  col
                  (map (fun c => if char_in c missing_chars
                                 then K_None else K_majallele) col)).
  { clear Hcol Hne Hall Hmajor. induction col as [|c t IH]; constructor.
    - destruct (char_in c missing_chars) eqn:E.
      + apply classify_missing, E.
      + apply Hmaj; [left; reflexivity | exact E].
    - apply IH. intros c' Hc'. apply Hmaj. right. exact Hc'. }
  destruct (@column_step_with rnd aln name_map st idx col _ _ Hcol Hmajor Hks Hok)
    as [st' [Hstep [Hm [_ Hrec]]]].
  exists st'. split; [exact Hstep|]. split; [exact Hm|]. split.
  { rewrite Hm. apply Forall_forall. exact Hmaj. }
  rewrite !Hrec, Nat.eqb_refl, !occ_kind_unanimous. simpl.
  repeat split; lia.
Qed.

Lemma C8_unanimous_column_witness :
  exists st',
    column_step (fun _ => 0) example_alignment
      (fst (init_maps example_alignment 0 [] []))
      (initial_state example_alignment) 0 = Ok st'
    /\ st_major st' = Some (lower "A")
    /\ Forall (fun c => char_in c missing_chars = false ->
                        classify (st_major st') c = Ok (Some K_majallele))
         (seq_of "AAA")
    /\ recorded K_majallele 0 (st_results st')
       = recorded K_majallele 0 (st_results (initial_state example_alignment))
         + List.length (strip_missing (seq_of "AAA"))
    /\ recorded K_substitution 0 (st_results st')
       = recorded K_substitution 0
           (st_results (initial_state example_alignment))
    /\ recorded K_insertion 0 (st_results st')
       = recorded K_insertion 0 (st_results (initial_state example_alignment))
    /\ recorded K_deletion 0 (st_results st')
       = recorded K_deletion 0 (st_results (initial_state example_alignment)).
Proof.
  apply (@C8_unanimous_column (fun _ => 0) example_alignment
           (fst (init_maps example_alignment 0 [] []))
           (initial_state example_alignment) 0 (seq_of "AAA") "A"%char).
  - reflexivity.
  - discriminate.
  - repeat constructor.
  - apply names_ok_init.
Defined.

(** C9.  On a column over the alphabet, when the computation of the major
    allele reaches the tie-break (several distinct considered bases hold
    the maximal count), the list of candidates handed to [choice] is not
    empty, and whatever the random source draws a major allele is chosen
    among the candidates. *)
Theorem C9_tie_break_never_empty (col : seq_t) :
  Forall (fun c => in_alphabet c = true) col ->
  branch_of (strip_missing col) = Ok B_tie ->
  exists mx,
    py_max (keys (Counter Nat.eqb
                    (values (Counter Ascii.eqb (strip_missing col))))) = Ok mx
    /\ common_bases_of mx (most_common (Counter Ascii.eqb (strip_missing col)))
       <> []
    /\ forall (r : nat) (major : option ascii),
         exists m,
           major_allele r major (strip_missing col) = Ok (Some m)
           /\ In m (common_bases_of mx
                      (most_common (Counter Ascii.eqb (strip_missing col)))).
Proof.
  intros Halpha Hb.
  destruct (tie_has_candidate (strip_missing_alphabet Halpha)
              (strip_missing_considered col) Hb) as [mx [Hmx Hcb]].
  exists mx. split; [exact Hmx|]. split; [exact Hcb|].
  intros r major. destruct (choice_nonempty r Hcb) as [m [Hm Hin]].
  exists m. split; [|exact Hin].
  unfold major_allele. rewrite Hb. cbn [bind]. rewrite Hmx. cbn [bind].
  rewrite Hm. reflexivity.
Qed.

Lemma C9_tie_break_never_empty_witness :
  exists mx,
    py_max (keys (Counter Nat.eqb
                    (values (Counter Ascii.eqb
                               (strip_missing (seq_of "A-nC")))))) = Ok mx
    /\ common_bases_of mx
         (most_common (Counter Ascii.eqb (strip_missing (seq_of "A-nC"))))
       <> []
    /\ forall (r : nat) (major : option ascii),
         exists m,
           major_allele r major (strip_missing (seq_of "A-nC")) = Ok (Some m)
           /\ In m (common_bases_of mx
                      (most_common
                         (Counter Ascii.eqb (strip_missing (seq_of "A-nC"))))).
Proof.
  apply (@C9_tie_break_never_empty (seq_of "A-nC")).
  - repeat constructor.
  - reflexivity.
Defined.

(** ** The classifier and the aggregator on a whole alignment *)

(** The rows of a result in which every column has been filed once per
    record. *)
Lemma by_locus_rows_total (wr : worker_result) (L n : nat) :
  keys (wr_bases wr) = seq 0 L ->
  (forall j, j < L -> recorded_all j (wr_results wr) = n) ->
  Forall (fun row =>
            bl_majallele row + bl_substitutions row + bl_deletions row
            + bl_insertions row + bl_missing row = n)
    (by_locus_rows wr).
Proof.
  intros Hbases Hrec. apply Forall_forall. intros row Hrow.
  rewrite (by_locus_row_sum _ _ Hrow). apply Hrec.
  assert (H : In (bl_position row) (map bl_position (by_locus_rows wr)))
    by (apply in_map; exact Hrow).
  rewrite by_locus_positions, Hbases, sorted_seq in H.
  apply in_seq in H. lia.
Qed.

(** With records that all hold data nothing is left to assume about the
    normaliser: [worker] returns on every rectangular alignment over the
    alphabet, and each position is counted once per record. *)
Lemma worker_total (rnd : nat -> nat) (locus : string) (aln : alignment) :
  rectangular aln -> over_alphabet aln ->
  Forall (fun r => has_data (rec_seq r) = true) aln ->
  exists wr,
    worker rnd locus aln = Ok wr
    /\ wr_length wr = get_alignment_length aln
    /\ Forall (fun row =>
                 bl_majallele row + bl_substitutions row + bl_deletions row
                 + bl_insertions row + bl_missing row = List.length aln)
         (by_locus_rows wr).
Proof.
  intros Hrect Halpha Hdata.
  pose proof (replace_gaps_total Hrect Hdata) as Hrg.
  destruct (replace_gaps_ok _ Hrg) as [Hids [Hrect' Halpha']].
  specialize (Halpha' Halpha).
  destruct (@classify_alignment_ok rnd locus aln (map normalised_record aln)
              Hids Hrect' Halpha')
    as [wr [Hwr [Hlength [Hbases [Hrec _]]]]].
  assert (HL : get_alignment_length (map normalised_record aln)
               = get_alignment_length aln).
  { destruct aln as [|r t]; [reflexivity|]. simpl.
    apply end_gaps_masked_length. }
  exists wr. split.
  { unfold worker. destruct (init_maps aln 0 [] []) as [name_map results].
    rewrite Hrg. cbn [bind]. exact Hwr. }
  split; [congruence|].
  rewrite <- (length_map normalised_record aln).
  eapply by_locus_rows_total; eassumption.
Qed.

(** ** The two aggregate queries *)

Section GroupBy.
Local Open Scope Z_scope.

Lemma z_eqb_eq (a b : Z) : Z.eqb a b = true <-> a = b.
Proof. apply Z.eqb_eq. Qed.

Lemma group_add_get (d x y d' : Z) (g : list (Z * (Z * Z))) :
  dict_get Z.eqb d' (group_add d x y g)
  = if Z.eqb d' d
    then Some (match dict_get Z.eqb d g with
               | Some (sx, sy) => (sx + x, sy + y)
               | None => (x, y)
               end)
    else dict_get Z.eqb d' g.
Proof.
  induction g as [|[d0 [sx sy]] t IH]; simpl.
  - destruct (Z.eqb d' d); reflexivity.
  - destruct (Z.eqb_spec d d0) as [->|Hne]; simpl.
    + destruct (Z.eqb d' d0); reflexivity.
    + destruct (Z.eqb_spec d' d0) as [->|Hne'].
      * destruct (Z.eqb_spec d0 d); [congruence | reflexivity].
      * exact IH.
Qed.

Lemma group_add_keys (d x y : Z) (g : list (Z * (Z * Z))) :
  keys (group_add d x y g)
  = if existsb (Z.eqb d) (keys g) then keys g else keys g ++ [d].
Proof.
  unfold keys. induction g as [|[d0 [sx sy]] t IH]; simpl; [reflexivity|].
  destruct (Z.eqb d d0); simpl; [reflexivity|].
  rewrite IH. destruct (existsb (Z.eqb d) (map fst t)); reflexivity.
Qed.

Lemma group_add_nodup (d x y : Z) (g : list (Z * (Z * Z))) :
  NoDup (keys g) -> NoDup (keys (group_add d x y g)).
Proof.
  intros H. rewrite group_add_keys.
  destruct (existsb (Z.eqb d) (keys g)) eqn:E; [exact H|].
  apply NoDup_app; [exact H | repeat constructor; auto |].
  intros a Ha [->|[]].
  assert (existsb (Z.eqb a) (keys g) = true); [|congruence].
  apply existsb_exists. exists a. split; [exact Ha | apply Z.eqb_refl].
Qed.
End GroupBy.

Section GroupSums.
Local Open Scope Z_scope.

Lemma group_fold_get (rows : list (Z * (Z * Z))) :
  forall (g : list (Z * (Z * Z))) (d : Z),
    dict_get Z.eqb d (fold_left (fun g '(d, (x, y)) => group_add d x y g) rows g)
    = match dict_get Z.eqb d g with
      | Some (a, b) =>
          Some (a + sum_at g_key g_first d rows, b + sum_at g_key g_second d rows)
      | None =>
          if existsb (fun r => Z.eqb (fst r) d) rows
          then Some (sum_at g_key g_first d rows, sum_at g_key g_second d rows)
          else None
      end.
Proof.
  unfold sum_at, g_key, g_first, g_second.
  induction rows as [|[d0 [x y]] t IH]; intros g d.
  - simpl. destruct (dict_get Z.eqb d g) as [[a b]|]; [|reflexivity].
    rewrite !Z.add_0_r. reflexivity.
  - cbn [fold_left]. rewrite IH, group_add_get.
    cbn [filter existsb map fst snd].
    destruct (Z.eqb_spec d d0) as [->|Hne].
    + rewrite Z.eqb_refl. cbn [map fold_right orb fst snd].
      destruct (dict_get Z.eqb d0 g) as [[a b]|]; f_equal; f_equal; lia.
    + destruct (Z.eqb_spec d0 d) as [E|_]; [congruence|].
      cbn [orb]. reflexivity.
Qed.

Lemma group_fold_nodup (rows : list (Z * (Z * Z))) :
  forall g, NoDup (keys g) -> NoDup (keys (fold_left (fun g '(d, (x, y)) => group_add d x y g) rows g)).
Proof.
  induction rows as [|[d0 [x y]] t IH]; intros g H; [exact H|].
  cbn [fold_left]. apply IH, group_add_nodup, H.
Qed.

Lemma group_sums_get (rows : list (Z * (Z * Z))) (d : Z) :
  dict_get Z.eqb d (group_sums rows)
  = if existsb (fun r => Z.eqb (fst r) d) rows
    then Some (sum_at g_key g_first d rows, sum_at g_key g_second d rows)
    else None.
Proof. unfold group_sums. rewrite group_fold_get. reflexivity. Qed.

Lemma group_sums_nodup (rows : list (Z * (Z * Z))) :
  NoDup (keys (group_sums rows)).
Proof. apply group_fold_nodup. constructor. Qed.

Lemma dict_in_get (V : Type) (g : list (Z * V)) (d : Z) (v : V) :
  NoDup (keys g) ->
  (In (d, v) g <-> dict_get Z.eqb d g = Some v).
Proof.
  unfold keys. induction g as [|[d0 v0] t IH]; simpl; intros Hnd.
  - split; [tauto | discriminate].
  - inversion Hnd as [|? ? Hnotin Hnd']; subst.
    destruct (Z.eqb_spec d d0) as [->|Hne].
    + split.
      * intros [H|H]; [inversion H; reflexivity|].
        exfalso. apply Hnotin. change d0 with (fst (d0, v)).
        apply in_map. exact H.
      * intros H. inversion H. left. reflexivity.
    + rewrite <- (IH Hnd'). split; [|auto].
      intros [H|H]; [inversion H; congruence | exact H].
Qed.

(** A group of [GROUP BY] holds the sums over the rows of its key, and
    there is one group for each key met. *)
Lemma group_sums_spec (rows : list (Z * (Z * Z))) (d a b : Z) :
  In (d, (a, b)) (group_sums rows)
  <-> In d (map fst rows)
      /\ a = sum_at g_key g_first d rows /\ b = sum_at g_key g_second d rows.
Proof.
  rewrite (@dict_in_get _ (group_sums rows) d (a, b) (group_sums_nodup rows)),
    group_sums_get.
  destruct (existsb (fun r => Z.eqb (fst r) d) rows) eqn:E.
  - apply existsb_exists in E. destruct E as [r [Hr Hd]].
    apply Z.eqb_eq in Hd. split.
    + intros H. inversion H. split; [|auto].
      rewrite <- Hd. apply in_map. exact Hr.
    + intros [_ [-> ->]]. reflexivity.
  - split; [discriminate|]. intros [Hin _]. exfalso.
    apply in_map_iff in Hin. destruct Hin as [r [Hd Hr]].
    assert (existsb (fun r => Z.eqb (fst r) d) rows = true); [|congruence].
    apply existsb_exists. exists r. split; [exact Hr|].
    apply Z.eqb_eq. exact Hd.
Qed.

Lemma sum_at_map (R : Type) (key valr : R -> Z) (val : R -> Z * (Z * Z))
    (proj : Z * (Z * Z) -> Z) (d : Z) (rows : list R) :
  (forall r, fst (val r) = key r) ->
  (forall r, proj (val r) = valr r) ->
  sum_at g_key proj d (map val rows) = sum_at key valr d rows.
Proof.
  intros Hk Hv. unfold sum_at, g_key.
  induction rows as [|r t IH]; [reflexivity|].
  cbn [map filter]. rewrite Hk.
  destruct (Z.eqb (key r) d); cbn [map fold_right]; rewrite ?Hv, IH;
    reflexivity.
Qed.
End GroupSums.

(** ** The division of two doubles *)

(** The sums of a series are whole numbers below [2 ^ 53], which a double
    holds exactly; their quotient is the double nearest to the exact
    quotient.  This is read off [SFdiv] of the Standard Library. *)
Section Doubles.
Local Open Scope Z_scope.
Local Unset Implicit Arguments.

Lemma digits2_bounds (p : positive) :
  2 ^ (Zpos (digits2_pos p) - 1) <= Zpos p < 2 ^ Zpos (digits2_pos p).
Proof.
  induction p as [p IH|p IH|]; cbn [digits2_pos].
  - rewrite Pos2Z.inj_succ.
    replace (Z.succ (Zpos (digits2_pos p)) - 1) with (Z.succ (Zpos (digits2_pos p) - 1)) by lia.
    rewrite !Z.pow_succ_r by lia. lia.
  - rewrite Pos2Z.inj_succ.
    replace (Z.succ (Zpos (digits2_pos p)) - 1) with (Z.succ (Zpos (digits2_pos p) - 1)) by lia.
    rewrite !Z.pow_succ_r by lia. lia.
  - simpl. lia.
Qed.

Lemma digits2_unique (p : positive) (d : Z) :
  2 ^ (d - 1) <= Zpos p < 2 ^ d -> Zpos (digits2_pos p) = d.
Proof.
  intros H. pose proof (digits2_bounds p) as Hb.
  set (k := Zpos (digits2_pos p)) in *.
  assert (0 < k) by (unfold k; lia).
  assert (0 < d).
  { destruct (Z.ltb_spec 0 d); [assumption|].
    assert (2 ^ d <= 1).
    { destruct (Z.eq_dec d 0) as [->|]; [simpl; lia|].
      rewrite Z.pow_neg_r by lia. lia. }
    lia. }
  destruct (Z.lt_trichotomy k d) as [Hlt|[Heq|Hgt]]; [|exact Heq|].
  - assert (2 ^ k <= 2 ^ (d - 1)) by (apply Z.pow_le_mono_r; lia). lia.
  - assert (2 ^ d <= 2 ^ (k - 1)) by (apply Z.pow_le_mono_r; lia). lia.
Qed.

Lemma loc_of_record_of_loc (m : Z) (l : location) :
  loc_of_shr_record (shr_record_of_loc m l) = l
  /\ shr_m (shr_record_of_loc m l) = m.
Proof. destruct l as [|[]]; split; reflexivity. Qed.

Lemma fexp_normal (x : Z) : -1021 <= x -> fexp 53 1024 x = x - 53.
Proof. intros H. unfold fexp, emin. lia. Qed.

Lemma binary_round_aux_53 (q : positive) (e : Z) (l : location) :
  Zpos (digits2_pos q) = 53 -> -1074 <= e <= 960 ->
  binary_round_aux 53 1024 false (Zpos q) e l = round_53 (Zpos q) l e.
Proof.
  intros Hd He. unfold binary_round_aux, shr_fexp.
  cbn [Zdigits2]. rewrite Hd, fexp_normal by lia.
  replace (53 + e - 53 - e) with 0 by lia. cbn [shr].
  destruct (loc_of_record_of_loc (Zpos q) l) as [-> ->].
  unfold round_53.
  pose proof (digits2_bounds q) as Hb. rewrite Hd in Hb.
  change (2 ^ (53 - 1)) with 4503599627370496 in Hb.
  change (2 ^ 53) with 9007199254740992 in *.
  assert (Hm : round_nearest_even (Zpos q) l = Zpos q
               \/ round_nearest_even (Zpos q) l = Zpos q + 1).
  { destruct l as [|[]]; cbn [round_nearest_even]; auto.
    destruct (Z.even (Zpos q)); auto. }
  set (m1 := round_nearest_even (Zpos q) l) in *.
  destruct (Z.eqb_spec m1 9007199254740992) as [E|E].
  - rewrite E. vm_compute Zdigits2.
    rewrite fexp_normal by lia.
    replace (54 + e - 53 - e) with 1 by lia.
    cbn [shr iter_pos shr_record_of_loc shr_1 shr_m].
    replace (e + 1 <=? 1024 - 53) with true by (symmetry; apply Z.leb_le; lia).
    reflexivity.
  - assert (Hpos : 4503599627370496 <= m1 < 9007199254740992) by lia.
    destruct m1 as [|p1|p1]; try lia.
    cbn [Zdigits2]. 
    rewrite (digits2_unique p1 53) by (change (2 ^ (53 - 1)) with 4503599627370496; change (2 ^ 53) with 9007199254740992; lia).
    rewrite fexp_normal by lia.
    replace (53 + e - 53 - e) with 0 by lia. cbn [shr shr_record_of_loc shr_m].
    replace (e <=? 1024 - 53) with true by (symmetry; apply Z.leb_le; lia).
    reflexivity.
Qed.

Lemma binary_round_aux_54 (q : positive) (e : Z) (l : location) :
  Zpos (digits2_pos q) = 54 -> -1074 <= e <= 900 ->
  binary_round_aux 53 1024 false (Zpos q) e l
  = round_53 (Z.div2 (Zpos q)) (half_loc (Zpos q) l) (e + 1).
Proof.
  intros Hd He.
  pose proof (digits2_bounds q) as Hb. rewrite Hd in Hb.
  change (2 ^ (54 - 1)) with 9007199254740992 in Hb.
  change (2 ^ 54) with 18014398509481984 in Hb.
  assert (Hq : exists q', Z.div2 (Zpos q) = Zpos q'
                          /\ shr_m (shr_1 (shr_record_of_loc (Zpos q) l)) = Zpos q'
                          /\ Zpos (digits2_pos q') = 53).
  { destruct q as [p|p|]; [exists p|exists p|lia];
      (split; [reflexivity|]; split; [destruct l as [|[]]; reflexivity|]);
      cbn [digits2_pos] in Hd; rewrite Pos2Z.inj_succ in Hd; lia. }
  destruct Hq as [q' [Hdiv [Hm Hd']]]. rewrite Hdiv.
  rewrite <- (binary_round_aux_53 q' (e + 1) (half_loc (Zpos q) l) Hd')
    by lia.
  unfold binary_round_aux, shr_fexp. cbn [Zdigits2].
  rewrite Hd, Hd', !fexp_normal by lia.
  replace (54 + e - 53 - e) with 1 by lia.
  replace (53 + (e + 1) - 53 - (e + 1)) with 0 by lia.
  cbn [shr iter_pos].
  destruct (loc_of_record_of_loc (Zpos q') (half_loc (Zpos q) l)) as [-> ->].
  rewrite Hm. unfold half_loc. reflexivity.
Qed.

Lemma new_location_spec (B r : Z) :
  0 < B -> 0 <= r < B ->
  new_location B r
  = if r =? 0 then loc_Exact else loc_Inexact (2 * r ?= B).
Proof.
  intros HB Hr. unfold new_location.
  destruct (Z.even B) eqn:Ev; [reflexivity|].
  unfold new_location_odd.
  destruct (Z.eqb_spec r 0) as [->|Hne]; [reflexivity|].
  - f_equal.
    assert (Hodd : Z.odd B = true) by (rewrite <- Z.negb_even, Ev; reflexivity).
    apply Z.odd_spec in Hodd. destruct Hodd as [k Hk].
    destruct (Z.compare_spec (2 * r + 1) B);
      destruct (Z.compare_spec (2 * r) B); try reflexivity; lia.
Qed.

Lemma SFdiv_normal (A B : positive) (ea eb : Z) :
  Zpos (digits2_pos A) = 53 -> Zpos (digits2_pos B) = 53 ->
  -52 <= ea <= 0 -> -52 <= eb <= 0 ->
  SFdiv 53 1024 (S754_finite false A ea) (S754_finite false B eb)
  = binary_round_aux 53 1024 false (Zpos A * 2 ^ 53 / Zpos B)
      (ea - eb - 53)
      (new_location (Zpos B) ((Zpos A * 2 ^ 53) mod Zpos B)).
Proof.
  intros HA HB Hea Heb. unfold SFdiv, SFdiv_core_binary. cbn [Zdigits2 xorb].
  rewrite HA, HB, fexp_normal by lia.
  replace (Z.min (53 + ea - (53 + eb) - 53) (ea - eb))
    with (ea - eb - 53) by lia.
  replace (ea - eb - (ea - eb - 53)) with 53 by lia.
  rewrite Z.shiftl_mul_pow2 by lia.
  unfold Z.div, Z.modulo.
  destruct (Z.div_eucl (Zpos A * 2 ^ 53) (Zpos B)) as [q r]. reflexivity.
Qed.

Lemma round_53_spec (m : positive) (l : location) (e : Z) :
  2 ^ 52 <= Zpos m < 2 ^ 53 ->
  exists m' e',
    round_53 (Zpos m) l e = S754_finite false m' e'
    /\ 2 ^ 52 <= Zpos m' < 2 ^ 53
    /\ ((e' = e /\ Zpos m' = round_nearest_even (Zpos m) l)
        \/ (e' = e + 1 /\ 2 * Zpos m' = round_nearest_even (Zpos m) l)).
Proof.
  intros Hm. unfold round_53.
  change (2 ^ 52) with 4503599627370496 in *.
  change (2 ^ 53) with 9007199254740992 in *.
  assert (H1 : round_nearest_even (Zpos m) l = Zpos m
               \/ round_nearest_even (Zpos m) l = Zpos m + 1).
  { destruct l as [|[]]; cbn [round_nearest_even]; auto.
    destruct (Z.even (Zpos m)); auto. }
  set (m1 := round_nearest_even (Zpos m) l) in *.
  destruct (Z.eqb_spec m1 9007199254740992) as [E|E].
  - exists (Z.to_pos 4503599627370496), (e + 1).
    split; [reflexivity|]. split; [simpl; lia|]. right. rewrite E. simpl. lia.
  - exists (Z.to_pos m1), e. split; [reflexivity|].
    rewrite Z2Pos.id by lia. split; [lia|]. left. auto.
Qed.

Lemma quotient_bounds (A B : Z) :
  2 ^ 52 <= A < 2 ^ 53 -> 2 ^ 52 <= B < 2 ^ 53 ->
  2 ^ 52 <= A * 2 ^ 53 / B < 2 ^ 54.
Proof.
  change (2 ^ 52) with 4503599627370496.
  change (2 ^ 53) with 9007199254740992.
  change (2 ^ 54) with 18014398509481984.
  intros HA HB. split.
  - apply Z.div_le_lower_bound; [lia|]. nia.
  - apply Z.div_lt_upper_bound; [lia|]. nia.
Qed.

Lemma SFdiv_nearest (A B : positive) (ea eb : Z) :
  Zpos (digits2_pos A) = 53 -> Zpos (digits2_pos B) = 53 ->
  -52 <= ea <= 0 -> -52 <= eb <= 0 ->
  exists m e,
    SFdiv 53 1024 (S754_finite false A ea) (S754_finite false B eb)
    = S754_finite false m e
    /\ 2 ^ 52 <= Zpos m < 2 ^ 53
    /\ ((e = ea - eb - 53
         /\ - Zpos B <= 2 * Zpos m * Zpos B - 2 * (Zpos A * 2 ^ 53) <= Zpos B)
        \/ (e = ea - eb - 52
            /\ - (2 * Zpos B)
               <= 4 * Zpos m * Zpos B - 2 * (Zpos A * 2 ^ 53) <= 2 * Zpos B)
        \/ (e = ea - eb - 51
            /\ Z.odd (Zpos A * 2 ^ 53 / Zpos B) = true
            /\ - (4 * Zpos B)
               <= 8 * Zpos m * Zpos B - 2 * (Zpos A * 2 ^ 53)
               <= 4 * Zpos B)).
Proof.
  intros HA HB Hea Heb. rewrite SFdiv_normal by assumption.
  pose proof (digits2_bounds A) as HbA. rewrite HA in HbA.
  pose proof (digits2_bounds B) as HbB. rewrite HB in HbB.
  change (53 - 1) with 52 in *.
  pose proof (quotient_bounds (Zpos A) (Zpos B) HbA HbB) as Hq.
  pose proof (Z.div_mod (Zpos A * 2 ^ 53) (Zpos B) ltac:(lia)) as Hdm.
  pose proof (Z.mod_pos_bound (Zpos A * 2 ^ 53) (Zpos B) ltac:(lia)) as Hr.
  rewrite new_location_spec by lia.
  set (N := Zpos A * 2 ^ 53) in *.
  set (q := N / Zpos B) in *. set (r := N mod Zpos B) in *.
  clearbody N q r. clear HbA HA.
  destruct q as [|q0|q0]; [change (2 ^ 52) with 4503599627370496 in Hq; lia| |lia].
  destruct (Z.ltb_spec (Zpos q0) (2 ^ 53)) as [Hlt|Hge].
  - (* the quotient has 53 digits *)
    rewrite binary_round_aux_53
      by (try apply digits2_unique; change (53 - 1) with 52; lia).
    destruct (round_53_spec q0
                (if r =? 0 then loc_Exact else loc_Inexact (2 * r ?= Zpos B))
                (ea - eb - 53) ltac:(lia))
      as [m [e [Heq [Hm Hcase]]]].
    exists m, e. split; [exact Heq|]. split; [exact Hm|].
    assert (Hrne :
      - Zpos B
      <= 2 * round_nearest_even (Zpos q0)
               (if r =? 0 then loc_Exact else loc_Inexact (2 * r ?= Zpos B))
             * Zpos B - 2 * N <= Zpos B).
    { destruct (Z.eqb_spec r 0) as [E|E]; cbn [round_nearest_even]; [lia|].
      destruct (Z.compare_spec (2 * r) (Zpos B)); cbn [round_nearest_even];
        [destruct (Z.even (Zpos q0))|..]; lia. }
    destruct Hcase as [[-> Hv]|[-> Hv]].
    + left. split; [reflexivity|]. rewrite Hv. lia.
    + right. left. split; [lia|]. lia.
  - (* the quotient has 54 digits *)
    rewrite binary_round_aux_54
      by (try apply digits2_unique; change (54 - 1) with 53; lia).
    assert (Hq' : exists q', Z.div2 (Zpos q0) = Zpos q'
                             /\ 2 ^ 52 <= Zpos q' < 2 ^ 53
                             /\ (Zpos q0 = 2 * Zpos q'
                                 \/ Zpos q0 = 2 * Zpos q' + 1)).
    { change (2 ^ 52) with 4503599627370496.
      change (2 ^ 53) with 9007199254740992 in *.
      change (2 ^ 54) with 18014398509481984 in *.
      destruct q0 as [p|p|]; [exists p|exists p|lia];
        (split; [reflexivity|]); lia. }
    destruct Hq' as [q' [Hdiv [Hq'b Hbit]]]. rewrite Hdiv.
    destruct (round_53_spec q'
                (half_loc (Zpos q0)
                   (if r =? 0 then loc_Exact
                    else loc_Inexact (2 * r ?= Zpos B)))
                (ea - eb - 53 + 1) ltac:(lia))
      as [m [e [Heq [Hm Hcase]]]].
    exists m, e. split; [exact Heq|]. split; [exact Hm|].
    assert (Hrne :
      - (2 * Zpos B)
      <= 4 * round_nearest_even (Zpos q')
               (half_loc (Zpos q0)
                  (if r =? 0 then loc_Exact
                   else loc_Inexact (2 * r ?= Zpos B)))
             * Zpos B - 2 * N <= 2 * Zpos B
      /\ (round_nearest_even (Zpos q')
            (half_loc (Zpos q0)
               (if r =? 0 then loc_Exact
                else loc_Inexact (2 * r ?= Zpos B))) = Zpos q'
          \/ Z.odd (Zpos q0) = true)).
    { unfold half_loc.
      destruct q0 as [p|p|]; [| |lia];
        (assert (Hp : p = q') by (simpl in Hdiv; congruence); subst p);
        destruct (Z.eqb_spec r 0) as [E|E];
          cbn [shr_record_of_loc shr_1 loc_of_shr_record orb
               round_nearest_even];
          try (destruct (Z.compare_spec (2 * r) (Zpos B));
               cbn [shr_record_of_loc shr_1 loc_of_shr_record orb
                    round_nearest_even]);
          try (destruct (Z.even (Zpos q')));
          (split; [lia | auto]). }
    destruct Hrne as [Hrne Hodd].
    destruct Hcase as [[-> Hv]|[-> Hv]].
    + right. left. split; [lia|]. rewrite Hv. lia.
    + right. right. split; [lia|]. split; [|lia].
      destruct Hodd as [Hsame|Hodd]; [|exact Hodd].
      change (2 ^ 52) with 4503599627370496 in *.
      change (2 ^ 53) with 9007199254740992 in *. lia.
Qed.

Lemma iter_xO (k p : positive) :
  Zpos (Pos.iter xO p k) = Zpos p * 2 ^ Zpos k.
Proof.
  induction k as [|k IH] using Pos.peano_ind.
  - simpl. lia.
  - rewrite Pos.iter_succ, Pos2Z.inj_xO, IH, Pos2Z.inj_succ, Z.pow_succ_r by lia.
    lia.
Qed.

Lemma double_of_pos (p : positive) :
  Zpos p < 2 ^ 53 ->
  exists A ea,
    double_of_Z (Zpos p) = S754_finite false A ea
    /\ Zpos (digits2_pos A) = 53
    /\ -52 <= ea <= 0
    /\ Zpos A = Zpos p * 2 ^ (- ea).
Proof.
  intros Hp. unfold double_of_Z, binary_normalize, binary_round.
  pose proof (digits2_bounds p) as Hb.
  set (d := Zpos (digits2_pos p)) in *.
  assert (Hd : 1 <= d <= 53).
  { split; [unfold d; lia|].
    destruct (Z.le_gt_cases d 53) as [H|H]; [exact H|].
    assert (2 ^ 53 <= 2 ^ (d - 1)) by (apply Z.pow_le_mono_r; lia). lia. }
  rewrite fexp_normal by lia. unfold shl_align.
  destruct (d + 0 - 53 - 0) as [|k|k] eqn:E; [|lia|].
  - assert (d = 53) by lia.
    rewrite binary_round_aux_53 by (fold d; lia).
    unfold round_53. cbn [round_nearest_even].
    replace (Zpos p =? 2 ^ 53) with false by (symmetry; apply Z.eqb_neq; lia).
    exists p, 0. cbn [Z.to_pos]. repeat split; [fold d|..]; simpl; lia.
  - assert (Hk : Zpos k = 53 - d) by lia.
    assert (Hv : Zpos (Pos.iter xO p k) = Zpos p * 2 ^ (53 - d))
      by (rewrite iter_xO, Hk; reflexivity).
    assert (Hpow : 2 ^ (d - 1) * 2 ^ (53 - d) = 2 ^ (53 - 1)
                   /\ 2 ^ d * 2 ^ (53 - d) = 2 ^ 53).
    { rewrite <- !Z.pow_add_r by lia. split; f_equal; lia. }
    assert (Hpos : 0 < 2 ^ (53 - d)) by (apply Z.pow_pos_nonneg; lia).
    assert (Hdig : Zpos (digits2_pos (Pos.iter xO p k)) = 53).
    { apply digits2_unique. rewrite Hv. destruct Hpow as [<- <-].
      split; [apply Z.mul_le_mono_nonneg_r|apply Z.mul_lt_mono_pos_r]; lia. }
    rewrite binary_round_aux_53 by (try exact Hdig; lia).
    unfold round_53. cbn [round_nearest_even].
    pose proof (digits2_bounds (Pos.iter xO p k)) as Hb2. rewrite Hdig in Hb2.
    replace (Zpos (Pos.iter xO p k) =? 2 ^ 53) with false
      by (symmetry; apply Z.eqb_neq; lia).
    exists (Pos.iter xO p k), (d + 0 - 53). cbn [Z.to_pos].
    split; [reflexivity|]. split; [exact Hdig|]. split; [lia|].
    rewrite Hv. f_equal. f_equal. lia.
Qed.

(** The quotient of two whole numbers below [2 ^ 53] as SQLite computes it
    on two REAL values: the double nearest to the exact quotient. *)
Theorem double_div_nearest (a b : Z) :
  0 < a < 2 ^ 53 -> 0 < b < 2 ^ 53 ->
  exists m e,
    SFdiv 53 1024 (double_of_Z a) (double_of_Z b) = S754_finite false m e
    /\ 2 ^ 52 <= Zpos m < 2 ^ 53
    /\ e <= 0
    /\ - b <= 2 * Zpos m * b - a * 2 ^ (1 - e) <= b.
Proof.
  intros Ha Hb.
  destruct a as [|pa|pa]; try lia. destruct b as [|pb|pb]; try lia.
  destruct (double_of_pos pa ltac:(lia)) as [A [ea [-> [HdA [Hea HA]]]]].
  destruct (double_of_pos pb ltac:(lia)) as [B [eb [-> [HdB [Heb HB]]]]].
  destruct (SFdiv_nearest A B ea eb HdA HdB Hea Heb)
    as [m [e [Heq [Hm Hcase]]]].
  exists m, e. split; [exact Heq|]. split; [exact Hm|].
  pose proof (digits2_bounds A) as HbA. rewrite HdA in HbA.
  pose proof (digits2_bounds B) as HbB. rewrite HdB in HbB.
  change (53 - 1) with 52 in *.
  assert (Hpa : 0 < 2 ^ (- ea)) by (apply Z.pow_pos_nonneg; lia).
  assert (Hpb : 0 < 2 ^ (- eb)) by (apply Z.pow_pos_nonneg; lia).
  (* the quotient lies below [2 ^ 53], so the exponent is not positive *)
  assert (He : e <= 0).
  { destruct (Z.le_gt_cases e 0) as [H|H]; [exact H|]. exfalso.
    assert (Hea0 : ea - eb - 51 >= 1) by lia.
    (* then [eb <= ea - 52], hence [ea = 0] and [eb = -52] *)
    assert (ea = 0 /\ eb = -52 \/ ea - eb - 51 < 1) by lia.
    destruct H0 as [[-> ->]|]; [|lia].
    change (2 ^ (- 0)) with 1 in *. change (2 ^ (- -52)) with 4503599627370496 in *.
    change (2 ^ 52) with 4503599627370496 in *.
    change (2 ^ 53) with 9007199254740992 in *.
    destruct Hcase as [[-> _]|[[-> _]|[-> [Hodd _]]]]; try lia.
    assert (Hone : Zpos pb = 1) by lia.
    rewrite HB, Hone, Z.mul_1_l in Hodd.
    replace (Zpos A * 9007199254740992 / 4503599627370496)
      with (2 * Zpos A) in Hodd
      by (apply Z.div_unique_exact; lia).
    rewrite Z.odd_mul in Hodd. discriminate. }
  split; [exact He|].
  set (K := 2 ^ (- eb)) in *.
  (* scale the inequality on the mantissas back to [a] and [b] *)
  assert (Hscale : forall n, 0 <= n <= 2 -> e = ea - eb - 53 + n ->
            - (2 ^ n * Zpos B)
            <= 2 * Zpos m * 2 ^ n * Zpos B - 2 * (Zpos A * 2 ^ 53)
            <= 2 ^ n * Zpos B ->
            - Zpos pb <= 2 * Zpos m * Zpos pb - Zpos pa * 2 ^ (1 - e)
            <= Zpos pb).
  { intros n Hn Hen Hin.
    assert (HP : 2 * (Zpos A * 2 ^ 53) = Zpos pa * 2 ^ (1 - e) * (2 ^ n * K)).
    { rewrite HA. unfold K.
      rewrite <- !Z.mul_assoc, <- !Z.pow_add_r by lia.
      replace (2 * (Zpos pa * (2 ^ (- ea + 53))))
        with (Zpos pa * (2 ^ 1 * 2 ^ (- ea + 53))) by (change (2 ^ 1) with 2; lia).
      rewrite <- Z.pow_add_r by lia. f_equal. f_equal. lia. }
    rewrite HP, HB in Hin. fold K in Hin.
    assert (HK : 0 < 2 ^ n * K)
      by (apply Z.mul_pos_pos; [apply Z.pow_pos_nonneg; lia | exact Hpb]).
    set (M := 2 ^ n * K) in *.
    replace (2 * Zpos m * 2 ^ n * (Zpos pb * K))
      with (2 * Zpos m * Zpos pb * M) in Hin by (unfold M; ring).
    replace (2 ^ n * (Zpos pb * K)) with (Zpos pb * M) in Hin
      by (unfold M; ring).
    set (u := 2 * Zpos m * Zpos pb - Zpos pa * 2 ^ (1 - e)) in *.
    replace (2 * Zpos m * Zpos pb * M - Zpos pa * 2 ^ (1 - e) * M)
      with (u * M) in Hin by (unfold u; ring).
    split; nia. }
  destruct Hcase as [[Hee Hin]|[[Hee Hin]|[Hee [_ Hin]]]].
  - apply (Hscale 0); [lia | lia |]. change (2 ^ 0) with 1. lia.
  - apply (Hscale 1); [lia | lia |]. change (2 ^ 1) with 2. lia.
  - apply (Hscale 2); [lia | lia |]. change (2 ^ 2) with 4. lia.
Qed.
(** A quotient of a part by the whole is a double between 0 and 1. *)
Lemma double_div_proportion (a b : Z) :
  0 < a -> a <= b -> b < 2 ^ 53 ->
  exists m e,
    SFdiv 53 1024 (double_of_Z a) (double_of_Z b) = S754_finite false m e
    /\ 2 ^ 52 <= Zpos m < 2 ^ 53
    /\ e <= 0
    /\ - b <= 2 * Zpos m * b - a * 2 ^ (1 - e) <= b
    /\ SFleb (S754_finite false m e) (SFone 53 1024) = true
    /\ (a < b -> SFltb (S754_finite false m e) (SFone 53 1024) = true).
Proof.
  intros Ha Hab Hb.
  destruct (double_div_nearest a b ltac:(lia) ltac:(lia))
    as [m [e [Heq [Hm [He Hn]]]]].
  exists m, e. split; [exact Heq|]. split; [exact Hm|].
  split; [exact He|]. split; [exact Hn|].
  replace (1 - e) with (Z.succ (- e)) in Hn by lia.
  rewrite Z.pow_succ_r in Hn by lia.
  assert (HP : 0 < 2 ^ (- e)) by (apply Z.pow_pos_nonneg; lia).
  set (P := 2 ^ (- e)) in *.
  (* the value [m * 2 ^ e] is at most 1 *)
  assert (HmP : Zpos m <= P).
  { destruct (Z.le_gt_cases (Zpos m) P) as [H|H]; [exact H|]. exfalso.
    assert (2 * (P + 1) * b <= 2 * Zpos m * b) by nia.
    assert (a * (2 * P) <= b * (2 * P)) by nia. nia. }
  assert (He52 : e <= -52).
  { destruct (Z.le_gt_cases e (-52)) as [H|H]; [exact H|]. exfalso.
    assert (P <= 2 ^ 51) by (apply Z.pow_le_mono_r; lia).
    change (2 ^ 51) with 2251799813685248 in *.
    change (2 ^ 52) with 4503599627370496 in *. lia. }
  change (SFone 53 1024) with (S754_finite false 4503599627370496 (-52)).
  unfold SFleb, SFltb, SFcompare.
  destruct (Z.compare_spec e (-52)) as [E|E|E]; [|auto|lia].
  subst e. change (2 ^ (- -52)) with 4503599627370496 in P.
  change (2 ^ 52) with 4503599627370496 in *.
  assert (Hmeq : m = 4503599627370496%positive) by (unfold P in HmP; lia).
  subst m. split; [reflexivity|].
  intros Hlt. exfalso. unfold P in Hn.
  change (2 ^ 53) with 9007199254740992 in *. lia.
Qed.
End Doubles.

Section Series.
Local Open Scope Z_scope.

Lemma series_spec (rows : list (Z * (Z * Z))) (f : Z -> Z -> option double)
    (x y : Z) (q : option double) (d : Z) :
  In (x, y, q, d)
    (filter (fun '(x, _, _, _) => negb (x =? 0))
       (map (fun '(d, (x, y)) => (x, y, f x y, d)) (group_sums rows)))
  <-> In d (map fst rows)
      /\ x = sum_at g_key g_first d rows
      /\ y = sum_at g_key g_second d rows
      /\ q = f x y /\ x <> 0.
Proof.
  rewrite filter_In, in_map_iff. split.
  - intros [[[d0 [x0 y0]] [Heq Hin]] Hnz].
    inversion Heq; subst. apply group_sums_spec in Hin.
    destruct Hin as [H1 [H2 H3]].
    repeat split; try assumption.
    apply negb_true_iff, Z.eqb_neq in Hnz. exact Hnz.
  - intros [H1 [H2 [H3 [H4 H5]]]]. split.
    + exists (d, (x, y)). split; [rewrite H4; reflexivity|].
      apply group_sums_spec. auto.
    + apply negb_true_iff, Z.eqb_neq. exact H5.
Qed.

Lemma nodup_map_filter (A B : Type) (g : A -> B) (p : A -> bool)
    (l : list A) :
  NoDup (map g l) -> NoDup (map g (filter p l)).
Proof.
  induction l as [|a t IH]; simpl; intros H; [constructor|].
  inversion H as [|? ? Hnotin Hnd]; subst.
  destruct (p a); simpl; [|auto].
  constructor; [|auto]. intros Hin. apply Hnotin.
  apply in_map_iff in Hin. destruct Hin as [a' [Ha' Hin]].
  apply filter_In in Hin. rewrite <- Ha'. apply in_map. tauto.
Qed.

Lemma series_nodup (rows : list (Z * (Z * Z))) (f : Z -> Z -> option double) :
  NoDup (map distance_of
           (filter (fun '(x, _, _, _) => negb (x =? 0))
              (map (fun '(d, (x, y)) => (x, y, f x y, d))
                 (group_sums rows)))).
Proof.
  apply nodup_map_filter. rewrite map_map.
  erewrite map_ext; [apply group_sums_nodup|].
  intros [d [x y]]. reflexivity.
Qed.
End Series.

Lemma sum_at_le (R : Type) (key f g : R -> Z) (d : Z) (rows : list R) :
  Forall (fun r => (f r <= g r)%Z) rows ->
  (sum_at key f d rows <= sum_at key g d rows)%Z.
Proof.
  unfold sum_at. induction 1 as [|r t Hr _ IH]; simpl; [lia|].
  destruct (Z.eqb (key r) d); simpl; lia.
Qed.

Lemma sum_at_nonneg (R : Type) (key f : R -> Z) (d : Z) (rows : list R) :
  Forall (fun r => (0 <= f r)%Z) rows ->
  (0 <= sum_at key f d rows)%Z.
Proof.
  unfold sum_at. induction 1 as [|r t Hr _ IH]; simpl; [lia|].
  destruct (Z.eqb (key r) d); simpl; lia.
Qed.

(** The rows of the two series, with the sums spelled out. *)
Lemma substitution_series_spec (db : database) (ss sb : Z)
    (q : option double) (d : Z) :
  In (ss, sb, q, d) (substitution_series db)
  <-> In d (map bl_position_from_center (by_locus db))
      /\ ss = sum_substitutions db d
      /\ sb = sum_bases db d
      /\ q = sql_div ss sb
      /\ ss <> 0%Z.
Proof.
  unfold substitution_series, ssb.
  rewrite (series_spec _ sql_div), map_map. cbn [fst].
  unfold sum_substitutions, sum_bases.
  rewrite !(sum_at_map bl_position_from_center) with
    (valr := fun r => Z.of_nat (bl_substitutions r)) by reflexivity.
  rewrite (@sum_at_map _ bl_position_from_center
             (fun r => Z.of_nat (bl_bases r)) _ g_second) by reflexivity.
  reflexivity.
Qed.

Lemma missing_series_spec (db : database) (pres sa : Z)
    (q : option double) (d : Z) :
  In (pres, sa, q, d) (missing_series db)
  <-> In d (map blm_position_from_center (by_locus_missing db))
      /\ pres = sum_present db d
      /\ sa = sum_absent db d
      /\ q = sql_div sa (sa + pres)
      /\ pres <> 0%Z.
Proof.
  unfold missing_series, ssc.
  rewrite (series_spec _ (fun x y => sql_div y (y + x))), map_map. cbn [fst].
  unfold sum_present, sum_absent.
  rewrite (@sum_at_map _ blm_position_from_center
             (fun r => Z.of_nat (blm_present r)) _ g_first) by reflexivity.
  rewrite (@sum_at_map _ blm_position_from_center blm_absent _ g_second)
    by reflexivity.
  reflexivity.
Qed.

(** C5.  The substitution series holds, for a distance [d], the row
    (sum of substitutions, sum of bases, their quotient, [d]) exactly when
    some [by_locus] row lies at distance [d] and the substitutions summed
    over the rows at that distance are not zero.  The missing-data series
    holds (sum of present, sum of absent, absent over absent plus present,
    [d]) exactly when some [by_locus_missing] row lies at distance [d] and
    the summed present count is not zero.  The quotient is [NULL] when the
    divisor is zero and otherwise the IEEE 754 double division of the two
    sums; for sums below [2 ^ 53] it is the double [m * 2 ^ e], of a
    mantissa [m] of 53 binary digits, that lies within half a unit of its
    last place of the exact quotient (the inequality is that bound
    multiplied by twice the divisor and by [2 ^ (- e)]).  No distance has
    two rows in a series. *)
Theorem C5_smilogram_series (db : database) :
  (forall (ss sb : Z) (q : option double) (d : Z),
      In (ss, sb, q, d) (substitution_series db)
      <-> In d (map bl_position_from_center (by_locus db))
          /\ ss = sum_substitutions db d
          /\ sb = sum_bases db d
          /\ q = (if (sb =? 0)%Z then None
                  else Some (SFdiv 53 1024
                               (binary_normalize 53 1024 ss 0 false)
                               (binary_normalize 53 1024 sb 0 false)))
          /\ ss <> 0%Z)
  /\ (forall (pres sa : Z) (q : option double) (d : Z),
        In (pres, sa, q, d) (missing_series db)
        <-> In d (map blm_position_from_center (by_locus_missing db))
            /\ pres = sum_present db d
            /\ sa = sum_absent db d
            /\ q = (if (sa + pres =? 0)%Z then None
                    else Some (SFdiv 53 1024
                                 (binary_normalize 53 1024 sa 0 false)
                                 (binary_normalize 53 1024 (sa + pres) 0
                                    false)))
            /\ pres <> 0%Z)
  /\ (forall (ss sb : Z) (q : option double) (d : Z),
        In (ss, sb, q, d) (substitution_series db) ->
        (0 < sb < 2 ^ 53)%Z -> (ss < 2 ^ 53)%Z ->
        exists (m : positive) (e : Z),
          q = Some (S754_finite false m e)
          /\ (2 ^ 52 <= Zpos m < 2 ^ 53)%Z /\ (e <= 0)%Z
          /\ (- sb <= 2 * Zpos m * sb - ss * 2 ^ (1 - e) <= sb)%Z)
  /\ (forall (pres sa : Z) (q : option double) (d : Z),
        In (pres, sa, q, d) (missing_series db) ->
        (0 < sa < 2 ^ 53)%Z -> (sa + pres < 2 ^ 53)%Z ->
        exists (m : positive) (e : Z),
          q = Some (S754_finite false m e)
          /\ (2 ^ 52 <= Zpos m < 2 ^ 53)%Z /\ (e <= 0)%Z
          /\ (- (sa + pres)
              <= 2 * Zpos m * (sa + pres) - sa * 2 ^ (1 - e)
              <= sa + pres)%Z)
  /\ NoDup (map distance_of (substitution_series db))
  /\ NoDup (map distance_of (missing_series db)).
Proof.
  split; [|split; [|split; [|split; [|split]]]].
  - intros ss sb q d. apply substitution_series_spec.
  - intros pres sa q d. apply missing_series_spec.
  - intros ss sb q d Hin Hsb Hss.
    apply substitution_series_spec in Hin.
    destruct Hin as [_ [Hs [_ [Hq Hnz]]]].
    assert (Hpos : (0 <= ss)%Z).
    { rewrite Hs. apply sum_at_nonneg. apply Forall_forall. intros r _. lia. }
    destruct (double_div_nearest ss sb ltac:(lia) ltac:(lia))
      as [m [e [Heq H]]].
    exists m, e. split; [|exact H].
    rewrite Hq. unfold sql_div.
    replace (sb =? 0)%Z with false by (symmetry; apply Z.eqb_neq; lia).
    rewrite Heq. reflexivity.
  - intros pres sa q d Hin Hsa Hsum.
    apply missing_series_spec in Hin.
    destruct Hin as [_ [Hp [_ [Hq Hnz]]]].
    assert (Hpos : (0 <= pres)%Z).
    { rewrite Hp. apply sum_at_nonneg. apply Forall_forall. intros r _. lia. }
    destruct (double_div_nearest sa (sa + pres) ltac:(lia) ltac:(lia))
      as [m [e [Heq H]]].
    exists m, e. split; [|exact H].
    rewrite Hq. unfold sql_div.
    replace (sa + pres =? 0)%Z with false by (symmetry; apply Z.eqb_neq; lia).
    rewrite Heq. reflexivity.
  - apply (series_nodup _ sql_div).
  - apply (series_nodup _ (fun x y => sql_div y (y + x))).
Qed.

Lemma C5_smilogram_series_witness :
  exists (m : positive) (e : Z),
    Some (S754_finite false 4503599627370496 (-53))
    = Some (S754_finite false m e)
    /\ (2 ^ 52 <= Zpos m < 2 ^ 53)%Z /\ (e <= 0)%Z
    /\ (- 4 <= 2 * Zpos m * 4 - 2 * 2 ^ (1 - e) <= 4)%Z.
Proof.
  destruct (C5_smilogram_series example_store) as [_ [_ [H _]]].
  apply (H 2%Z 4%Z (Some (S754_finite false 4503599627370496 (-53))) 0%Z).
  - vm_compute. left. reflexivity.
  - split; reflexivity.
  - reflexivity.
Defined.

(** ** Opening an existing store *)

(** Whatever is typed at the prompt, a store that holds the table [loci]
    is removed and created anew. *)
Lemma existing_store_always_replaced (fuel : nat) (f : list table)
    (answer : string) (answers : list string) :
  has_table "loci" f = true ->
  create_differences_database (S (S fuel)) (Some f) (answer :: answers)
  = Some (Some fresh_store, answers, Ok tt).
Proof.
  intros H. cbn [create_differences_database].
  unfold schema at 1. cbn [create_tables]. unfold create_table at 1.
  rewrite H.
  change (String.eqb ("table " ++ "loci" ++ " already exists")
            "table loci already exists") with true.
  cbv iota.
  replace (truthy (py_or (PyBool (String.eqb answer "Y")) (PyStr "YES")))
    with true by (unfold py_or; destruct (String.eqb answer "Y"); reflexivity).
  reflexivity.
Qed.

(** C3.  The store of an earlier run is there and the user answers [n]
    (or anything else): the test [answer == "Y" or "YES"] holds for every
    answer, the file is removed and an empty store takes its place; the
    branch that would leave the store alone is never taken. *)
Theorem C3_overwrite_whatever_the_answer :
  create_differences_database 2 (Some existing_store) ["n"%string]
  = Some (Some fresh_store, [], Ok tt)
  /\ (forall answer : string,
        truthy (py_or (PyBool (String.eqb answer "Y")) (PyStr "YES")) = true)
  /\ (forall answer : string,
        create_differences_database 2 (Some existing_store) [answer]
        = Some (Some fresh_store, [], Ok tt)).
Proof.
  split; [reflexivity|]. split.
  - intros answer. unfold py_or. destruct (String.eqb answer "Y"); reflexivity.
  - intros answer. apply existing_store_always_replaced. reflexivity.
Qed.

(** ** The end-to-end example *)

(** C1.  The example alignment [ACGT], [ACGA], [AC-T]: [worker] returns;
    at column 0 every taxon is filed under [majallele]; the [by_locus]
    row of position 2 has 1 deletion and 3 bases; the row of position 3
    has 3 bases and 3 substitutions, not 1: the major allele of a column
    with a strict majority is kept as read (['T']) while each base is
    compared in lower case (['t']), so that no base of such a column
    equals it.  On the same alignment in lower case position 3 has the
    one substitution expected. *)
Theorem C1_example_alignment (rnd : nat -> nat) :
  exists wr,
    worker rnd "uce" example_alignment = Ok wr
    /\ Forall (fun e => In 0 (majallele e)) (values (wr_results wr))
    /\ map (fun r => (bl_position r, bl_majallele r, bl_substitutions r,
                      bl_deletions r, bl_bases r))
         (by_locus_rows wr)
       = [(0, 3, 0, 0, 3); (1, 3, 0, 0, 3); (2, 0, 2, 1, 3); (3, 0, 3, 0, 3)]
    /\ exists wr',
         worker rnd "uce" example_lower = Ok wr'
         /\ map (fun r => (bl_position r, bl_majallele r, bl_substitutions r,
                           bl_deletions r, bl_bases r))
              (by_locus_rows wr')
            = [(0, 3, 0, 0, 3); (1, 3, 0, 0, 3); (2, 2, 0, 1, 3);
               (3, 2, 1, 0, 3)].
Proof.
  eexists. split; [vm_compute; reflexivity|].
  split; [repeat constructor; simpl; auto|].
  split; [vm_compute; reflexivity|].
  eexists. split; vm_compute; reflexivity.
Qed.

(** ** The normaliser without data *)

(** C2.  The normaliser on a sequence without data does not return a
    sequence of the length it was given: on the empty sequence the loop
    variables are never bound and the function raises; on a sequence of
    [L > 0] gaps neither loop reaches its [break], both runs of question
    marks have length [L], and the result has length [2 * L].  (On a
    sequence with data it returns the normalisation of the specification,
    of the same length: [normalise_refines],
    [end_gaps_masked_length].) *)
Theorem C2_normaliser_without_data :
  replace_gaps_at_start_and_ends [] = Raise UnboundLocalError
  /\ replace_gaps_at_start_and_ends (seq_of "--") = Ok (seq_of "????")
  /\ forall n,
       replace_gaps_at_start_and_ends (repeat gap (S n))
       = Ok (repeat qmark (S n + S n)).
Proof.
  split; [reflexivity|]. split; [reflexivity|]. exact normalise_all_gaps.
Qed.

(** ** Padding incomplete alignments *)

Lemma rename_loop_ok (verbatim : bool) (L : nat) (aln : alignment) :
  forall (new_align : alignment) (organisms left : list string)
         (last : option string),
    Forall (fun r => List.length (rec_seq r) = L) aln ->
    new_align = [] \/ get_alignment_length new_align = L ->
    remove_all
      (map (fun r => new_seq_name verbatim (strip_reversal (rec_name r))) aln)
      organisms = Ok left ->
    rename_loop verbatim aln new_align (Some organisms) last
    = Ok (new_align ++ map (renamed verbatim) aln, Some left,
          last_name aln last).
Proof.
  induction aln as [|r t IH]; intros new_align organisms left last Hlen Hnew Hrm.
  - simpl in *. inversion Hrm; subst. rewrite app_nil_r. reflexivity.
  - inversion Hlen as [|? ? Hr Ht]; subst.
    cbn [map remove_all] in Hrm.
    apply bind_ok_inv in Hrm. destruct Hrm as [l1 [Hl1 Hrm]].
    cbn [rename_loop].
    destruct (@aln_append_same_length new_align (renamed verbatim r)
                (List.length (rec_seq r)) Hnew eq_refl) as [Happ [Hne Hlen']].
    unfold renamed in Happ at 1. rewrite Happ. cbn [bind].
    rewrite Hl1. cbn [bind].
    rewrite (IH _ _ left _ Ht (or_intror Hlen') Hrm).
    cbn [map last_name fold_left]. rewrite <- app_assoc. reflexivity.
Qed.

Lemma pad_loop_ok (verbatim : bool) (missing : missing_t) (L : nat)
    (name : string) (orgs : list string) :
  forall new_align : alignment,
    new_align <> [] -> get_alignment_length new_align = L ->
    Forall (fun org => check_missing missing (locus_of verbatim name) org
                       = Ok tt) orgs ->
    pad_loop verbatim missing L (Some name) orgs new_align
    = Ok (new_align ++ map (padding L) orgs).
Proof.
  induction orgs as [|org t IH]; intros new_align Hne Hlen Hchk.
  - simpl. rewrite app_nil_r. reflexivity.
  - inversion Hchk as [|? ? Ho Ht]; subst.
    cbn [pad_loop]. rewrite Ho. cbn [bind].
    destruct (@aln_append_same_length new_align
                (padding (get_alignment_length new_align) org)
                (get_alignment_length new_align) (or_intror eq_refl))
      as [Happ [Hne' Hlen']].
    { unfold padding, record_formatter, missing_string. simpl.
      apply repeat_length. }
    unfold padding in Happ at 1. rewrite Happ. cbn [bind].
    rewrite (IH _ Hne' Hlen' Ht). cbn [map]. rewrite <- app_assoc.
    reflexivity.
Qed.

Lemma last_name_some (aln : alignment) :
  forall last, aln <> [] -> exists name, last_name aln last = Some name.
Proof.
  unfold last_name. induction aln as [|r t IH]; intros last Hne; [congruence|].
  simpl. destruct t as [|r' t']; [simpl; eauto|].
  apply IH. discriminate.
Qed.

(** [add_gaps_to_align] gives [None] exactly on an alignment with fewer
    records than [min_taxa]. *)
Lemma add_gaps_none_iff (aln : alignment) (organisms : option (list string))
    (missing : missing_t) (verbatim : bool) (min_taxa : Z) :
  add_gaps_to_align aln organisms missing verbatim min_taxa = Ok None
  <-> (Z.of_nat (List.length aln) < min_taxa)%Z.
Proof.
  unfold add_gaps_to_align.
  destruct (Z.ltb_spec (Z.of_nat (List.length aln)) min_taxa) as [Hlt|Hge].
  - tauto.
  - split; [|lia]. intros H. exfalso.
    destruct (Z.of_nat (List.length aln) >=? min_taxa)%Z; [|discriminate].
    destruct aln as [|first rest]; [discriminate|].
    destruct (rename_loop verbatim (first :: rest) [] organisms None)
      as [[[new_align lo] last]|e]; [|discriminate].
    cbn [bind] in H. destruct lo as [orgs|]; [|discriminate].
    destruct (pad_loop verbatim missing (List.length (rec_seq first)) last
                orgs new_align); discriminate.
Qed.

(** [add_designators] gives back the name of the file exactly on such an
    alignment, and then writes nothing. *)
Lemma add_designators_dropped (file : string) (aln : alignment)
    (organisms : option (list string)) (missing : missing_t)
    (verbatim : bool) (min_taxa : Z) (output : string) :
  add_designators file aln organisms missing verbatim min_taxa output
  = Ok (Some file, [])
  <-> (Z.of_nat (List.length aln) < min_taxa)%Z.
Proof.
  unfold add_designators. split.
  - intros H.
    destruct (add_gaps_to_align aln organisms missing verbatim min_taxa)
      as [[a|]|e] eqn:E; cbn [bind] in *; try discriminate.
    apply add_gaps_none_iff in E. exact E.
  - intros H.
    rewrite (proj2 (add_gaps_none_iff aln organisms missing verbatim min_taxa) H).
    reflexivity.
Qed.

Lemma add_designators_path (file : string) (aln : alignment)
    (organisms : option (list string)) (missing : missing_t)
    (verbatim : bool) (min_taxa : Z) (output : string)
    (p : string) (written : list (string * alignment)) :
  add_designators file aln organisms missing verbatim min_taxa output
  = Ok (Some p, written) ->
  p = file /\ written = [] /\ (Z.of_nat (List.length aln) < min_taxa)%Z.
Proof.
  unfold add_designators. intros H.
  destruct (add_gaps_to_align aln organisms missing verbatim min_taxa)
    as [[a|]|e] eqn:E; cbn [bind] in *; try discriminate.
  inversion H; subst. repeat split. apply add_gaps_none_iff in E. exact E.
Qed.

Lemma list_remove_nodup (x : string) (l l' : list string) :
  NoDup l -> list_remove x l = Ok l' ->
  l' = filter (fun o => negb (String.eqb o x)) l /\ NoDup l'.
Proof.
  revert l'. induction l as [|y t IH]; intros l' Hnd H; [discriminate|].
  inversion Hnd as [|? ? Hnotin Hnd']; subst.
  cbn [list_remove] in H. cbn [filter].
  destruct (String.eqb_spec x y) as [->|Hne].
  - inversion H; subst. rewrite String.eqb_refl. cbn [negb].
    split; [|exact Hnd'].
    symmetry. apply forallb_filter_id. apply forallb_forall.
    intros o Ho. apply negb_true_iff, String.eqb_neq. congruence.
  - apply bind_ok_inv in H. destruct H as [t' [Ht' H]]. inversion H; subst.
    destruct (IH t' Hnd' Ht') as [-> Hnd''].
    replace (String.eqb y x) with false
      by (symmetry; apply String.eqb_neq; congruence).
    cbn [negb]. split; [reflexivity|].
    constructor; [|exact Hnd'']. rewrite filter_In. tauto.
Qed.

Lemma remove_all_nodup (names : list string) :
  forall organisms left,
    NoDup organisms -> remove_all names organisms = Ok left ->
    left = filter (fun o => negb (str_in o names)) organisms.
Proof.
  induction names as [|n t IH]; intros organisms left Hnd H.
  - inversion H; subst. symmetry. apply forallb_filter_id.
    apply forallb_forall. reflexivity.
  - cbn [remove_all] in H. apply bind_ok_inv in H.
    destruct H as [l1 [Hl1 H]].
    destruct (list_remove_nodup _ Hnd Hl1) as [-> Hnd1].
    rewrite (IH _ _ Hnd1 H). clear.
    induction organisms as [|o os IHo]; [reflexivity|].
    cbn [filter str_in existsb].
    destruct (String.eqb o n); cbn [negb orb filter]; rewrite IHo;
      reflexivity.
Qed.

(* ================================================================== *)
(** * Further properties of the scripts *)
(* ================================================================== *)

(** ** The normaliser on sequences with data *)

Lemma mask_leading_head (s : seq_t) :
  s <> [] -> is_gap (hd gap (mask_leading_gaps s)) = false.
Proof.
  destruct s as [|c t]; [congruence|]. intros _. simpl.
  destruct (is_gap c) eqn:E; [reflexivity | exact E].
Qed.

Lemma mask_leading_nonempty (s : seq_t) :
  s <> [] -> mask_leading_gaps s <> [].
Proof.
  destruct s as [|c t]; [congruence|]. intros _. simpl.
  destruct (is_gap c); discriminate.
Qed.

Lemma mask_leading_last (s : seq_t) :
  s <> [] -> is_gap (last s gap) = false ->
  last (mask_leading_gaps s) gap = last s gap.
Proof.
  induction s as [|c t IH]; [congruence|]. intros _ Hlast.
  cbn [mask_leading_gaps]. destruct (is_gap c) eqn:E; [|reflexivity].
  destruct t as [|c' t'].
  - simpl in Hlast. congruence.
  - change (last (c :: c' :: t') gap) with (last (c' :: t') gap) in *.
    rewrite <- (IH ltac:(discriminate) Hlast).
    pose proof (@mask_leading_nonempty (c' :: t') ltac:(discriminate)) as Hne.
    destruct (mask_leading_gaps (c' :: t')); [congruence | reflexivity].
Qed.

Lemma hd_rev (A : Type) (d : A) (s : list A) : hd d (rev s) = last s d.
Proof.
  induction s as [|c t IH] using rev_ind; [reflexivity|].
  rewrite rev_app_distr, last_last. reflexivity.
Qed.

Lemma last_rev (A : Type) (d : A) (s : list A) : last (rev s) d = hd d s.
Proof. rewrite <- (rev_involutive s) at 2. symmetry. apply hd_rev. Qed.

Lemma rev_nonempty (A : Type) (s : list A) : s <> [] -> rev s <> [].
Proof.
  intros H E. apply H. rewrite <- (rev_involutive s), E. reflexivity.
Qed.

(** The normalised sequence neither begins nor ends with a gap. *)
Lemma end_gaps_masked_ends (s : seq_t) :
  s <> [] ->
  end_gaps_masked s <> []
  /\ is_gap (hd gap (end_gaps_masked s)) = false
  /\ is_gap (last (end_gaps_masked s) gap) = false.
Proof.
  intros Hne. unfold end_gaps_masked.
  pose proof (mask_leading_nonempty Hne) as H1.
  pose proof (rev_nonempty H1) as H2.
  pose proof (mask_leading_nonempty H2) as H3.
  split; [apply rev_nonempty, H3|]. split.
  - rewrite hd_rev, mask_leading_last; [|exact H2|];
      rewrite last_rev; apply mask_leading_head, Hne.
  - rewrite last_rev. apply mask_leading_head, H2.
Qed.

(** A sequence that neither begins nor ends with a gap is returned as it
    is. *)
Lemma normalise_fixed (s : seq_t) :
  s <> [] -> is_gap (hd gap s) = false -> is_gap (last s gap) = false ->
  replace_gaps_at_start_and_ends s = Ok s.
Proof.
  intros Hne Hhd Hlast. destruct s as [|c1 t]; [congruence|].
  destruct t as [|c t'].
  { exact (@normalise_single 0 0 c1 Hhd). }
  destruct (@exists_last _ (c :: t') ltac:(discriminate)) as [core [c2 E]].
  rewrite E in *. clear E c t'. simpl in Hhd.
  assert (H2 : is_gap c2 = false).
  { change (c1 :: core ++ [c2]) with ((c1 :: core) ++ [c2]) in Hlast.
    rewrite last_last in Hlast. exact Hlast. }
  pose proof (@normalise_core 0 0 c1 c2 core Hhd H2) as H.
  simpl in H. rewrite !app_nil_r in H. exact H.
Qed.

Lemma has_data_nonempty (s : seq_t) : has_data s = true -> s <> [].
Proof. intros H ->. discriminate. Qed.

Lemma mask_leading_pointwise (s : seq_t) :
  Forall2 (fun c c' => c' = c \/ (c = gap /\ c' = qmark)) s
    (mask_leading_gaps s).
Proof.
  induction s as [|c t IH]; [constructor|]. simpl.
  destruct (is_gap c) eqn:E.
  - apply is_gap_true in E. constructor; [right; auto | exact IH].
  - constructor; [left; reflexivity|].
    clear. induction t; constructor; auto.
Qed.

Lemma forall2_rev (A B : Type) (R : A -> B -> Prop) (l : list A)
    (l' : list B) :
  Forall2 R l l' -> Forall2 R (rev l) (rev l').
Proof.
  induction 1 as [|a b t t' Hab Ht IH]; [constructor|].
  simpl. apply Forall2_app; [exact IH | repeat constructor; exact Hab].
Qed.

Lemma pointwise_trans (l1 l2 l3 : seq_t) :
  Forall2 (fun c c' => c' = c \/ (c = gap /\ c' = qmark)) l1 l2 ->
  Forall2 (fun c c' => c' = c \/ (c = gap /\ c' = qmark)) l2 l3 ->
  Forall2 (fun c c' => c' = c \/ (c = gap /\ c' = qmark)) l1 l3.
Proof.
  intros H1. revert l3. induction H1 as [|a b t t' Hab Ht IH]; intros l3 H2.
  - inversion H2. constructor.
  - inversion H2 as [|? c ? t'' Hbc Ht'']; subst. constructor; [|auto].
    destruct Hab as [->|[-> ->]]; destruct Hbc as [->|[E ->]]; auto.
Qed.

Lemma end_gaps_masked_pointwise (s : seq_t) :
  Forall2 (fun c c' => c' = c \/ (c = gap /\ c' = qmark)) s
    (end_gaps_masked s).
Proof.
  unfold end_gaps_masked.
  rewrite <- (rev_involutive s) at 1. apply forall2_rev.
  eapply pointwise_trans.
  - apply forall2_rev, mask_leading_pointwise.
  - apply mask_leading_pointwise.
Qed.

(** X1.  On a sequence that holds a character other than the gap the
    normaliser returns, the result has the length of the sequence, every
    character is kept except gaps, which are kept or turned into question
    marks, and the result is the sequence with the gaps before its first
    and after its last other character turned into question marks. *)
Theorem X1_normaliser_with_data (s : seq_t) :
  has_data s = true ->
  exists s',
    replace_gaps_at_start_and_ends s = Ok s'
    /\ s' = end_gaps_masked s
    /\ List.length s' = List.length s
    /\ Forall2 (fun c c' => c' = c \/ (c = gap /\ c' = qmark)) s s'.
Proof.
  intros Hdata. exists (end_gaps_masked s).
  split; [apply normalise_refines, Hdata|]. split; [reflexivity|].
  split; [apply end_gaps_masked_length | apply end_gaps_masked_pointwise].
Qed.

Lemma X1_normaliser_with_data_witness :
  exists s',
    replace_gaps_at_start_and_ends (seq_of "--AC-T-") = Ok s'
    /\ s' = end_gaps_masked (seq_of "--AC-T-")
    /\ List.length s' = List.length (seq_of "--AC-T-")
    /\ Forall2 (fun c c' => c' = c \/ (c = gap /\ c' = qmark))
         (seq_of "--AC-T-") s'.
Proof.
  apply (@X1_normaliser_with_data (seq_of "--AC-T-")). reflexivity.
Defined.

(** X2.  The result of the normaliser on a sequence with data neither
    begins nor ends with a gap, and normalising it again changes
    nothing. *)
Theorem X2_normaliser_idempotent (s s' : seq_t) :
  has_data s = true ->
  replace_gaps_at_start_and_ends s = Ok s' ->
  is_gap (hd gap s') = false
  /\ is_gap (last s' gap) = false
  /\ replace_gaps_at_start_and_ends s' = Ok s'.
Proof.
  intros Hdata H. rewrite (normalise_refines _ Hdata) in H.
  inversion H; subst s'.
  destruct (@end_gaps_masked_ends s (@has_data_nonempty s Hdata))
    as [Hne [Hhd Hlast]].
  split; [exact Hhd|]. split; [exact Hlast|].
  apply normalise_fixed; assumption.
Qed.

Lemma X2_normaliser_idempotent_witness :
  is_gap (hd gap (seq_of "??AC-T?")) = false
  /\ is_gap (last (seq_of "??AC-T?") gap) = false
  /\ replace_gaps_at_start_and_ends (seq_of "??AC-T?")
     = Ok (seq_of "??AC-T?").
Proof.
  apply (@X2_normaliser_idempotent (seq_of "--AC-T-") (seq_of "??AC-T?"));
    reflexivity.
Defined.

(** ** [replace_gaps] on whole alignments *)

(** X3.  On an alignment whose records have one length and all hold data,
    [replace_gaps] returns an alignment with the same records in the same
    order: identifiers, names and descriptions are kept, each sequence is
    the normalised one, and the alignment keeps its number of records and
    its length. *)
Theorem X3_replace_gaps_keeps_shape (aln : alignment) :
  rectangular aln ->
  Forall (fun r => has_data (rec_seq r) = true) aln ->
  exists aln',
    replace_gaps aln = Ok aln'
    /\ Forall2 (fun r r' =>
                  rec_seq r' = end_gaps_masked (rec_seq r)
                  /\ rec_id r' = rec_id r
                  /\ rec_name r' = rec_name r
                  /\ rec_description r' = rec_description r) aln aln'
    /\ List.length aln' = List.length aln
    /\ get_alignment_length aln' = get_alignment_length aln
    /\ rectangular aln'.
Proof.
  intros Hrect Hdata. exists (map normalised_record aln).
  pose proof (replace_gaps_total Hrect Hdata) as Hrg.
  split; [exact Hrg|]. split.
  { clear. induction aln as [|r t IH]; constructor; [|exact IH].
    repeat split. }
  split; [apply length_map|]. split.
  { destruct aln as [|r t]; [reflexivity|]. simpl.
    apply end_gaps_masked_length. }
  apply (replace_gaps_ok _ Hrg).
Qed.

Lemma X3_replace_gaps_keeps_shape_witness :
  exists aln',
    replace_gaps example_missing = Ok aln'
    /\ Forall2 (fun r r' =>
                  rec_seq r' = end_gaps_masked (rec_seq r)
                  /\ rec_id r' = rec_id r
                  /\ rec_name r' = rec_name r
                  /\ rec_description r' = rec_description r)
         example_missing aln'
    /\ List.length aln' = List.length example_missing
    /\ get_alignment_length aln' = get_alignment_length example_missing
    /\ rectangular aln'.
Proof.
  apply (@X3_replace_gaps_keeps_shape example_missing); repeat constructor.
Defined.

Lemma no_data_repeat (s : seq_t) :
  has_data s = false -> s = repeat gap (List.length s).
Proof.
  induction s as [|c t IH]; [reflexivity|]. simpl.
  destruct (is_gap c) eqn:E; simpl; [|discriminate].
  intros H. apply is_gap_true in E. subst c. f_equal. exact (IH H).
Qed.

(** The length of what the normaliser returns for a sequence of a length
    [L > 0]: [L] with data, [2 * L] without. *)
Lemma normalise_length (s : seq_t) (L : nat) :
  List.length s = L -> 0 < L ->
  exists s',
    replace_gaps_at_start_and_ends s = Ok s'
    /\ List.length s' = if has_data s then L else L + L.
Proof.
  intros Hlen HL. destruct (has_data s) eqn:E.
  - exists (end_gaps_masked s). split; [apply normalise_refines, E|].
    rewrite end_gaps_masked_length. exact Hlen.
  - rewrite (no_data_repeat _ E), Hlen.
    destruct L as [|n]; [lia|].
    exists (repeat qmark (S n + S n)).
    split; [apply normalise_all_gaps | apply repeat_length].
Qed.

Lemma replace_gaps_from_mismatch (L n0 : nat) (aln : alignment) :
  0 < L ->
  forall new_aln,
    new_aln <> [] -> get_alignment_length new_aln = n0 ->
    Forall (fun r => List.length (rec_seq r) = L) aln ->
    Exists (fun r => (if has_data (rec_seq r) then L else L + L) <> n0) aln ->
    replace_gaps_from aln new_aln = Raise ValueError.
Proof.
  intros HL. induction aln as [|r t IH]; intros new_aln Hne Hn0 Hlen Hex.
  - inversion Hex.
  - pose proof (Forall_inv Hlen) as Hr. pose proof (Forall_inv_tail Hlen) as Ht.
    cbv beta in Hr.
    destruct (@normalise_length (rec_seq r) L Hr HL) as [s' [Hs' Hls']].
    cbn [replace_gaps_from]. rewrite Hs'. cbn [bind].
    unfold aln_append. destruct new_aln as [|r0 t0]; [congruence|].
    cbn [rec_seq].
    destruct (Nat.eqb_spec (List.length s') (get_alignment_length (r0 :: t0)))
      as [Heq|Hneq]; [|reflexivity].
    cbn [bind]. apply IH.
    + discriminate.
    + exact Hn0.
    + exact Ht.
    + apply Exists_cons in Hex. destruct Hex as [Hhead|Htail]; [|exact Htail].
      exfalso. apply Hhead. rewrite <- Hls', <- Hn0. exact Heq.
Qed.

(** X4.  An alignment of at least one column that holds both a record
    with data and a record made of gaps only cannot be normalised: the
    record of gaps comes back twice as long as the others, the new
    alignment refuses the first record whose length differs, and
    [replace_gaps], hence [worker], raises [ValueError]. *)
Theorem X4_replace_gaps_mixed_records (aln : alignment) (r1 r2 : SeqRecord) :
  rectangular aln ->
  0 < get_alignment_length aln ->
  In r1 aln -> has_data (rec_seq r1) = true ->
  In r2 aln -> has_data (rec_seq r2) = false ->
  replace_gaps aln = Raise ValueError
  /\ forall rnd locus, worker rnd locus aln = Raise ValueError.
Proof.
  intros Hrect HL Hin1 Hd1 Hin2 Hd2.
  assert (Hrg : replace_gaps aln = Raise ValueError).
  { unfold replace_gaps. destruct aln as [|r t]; [contradiction|].
    set (L := get_alignment_length (r :: t)) in *.
    pose proof (Forall_inv Hrect) as Hr.
    pose proof (Forall_inv_tail Hrect) as Ht. cbv beta in Hr. fold L in Hr, Ht.
    destruct (@normalise_length (rec_seq r) L Hr HL) as [s' [Hs' Hls']].
    cbn [replace_gaps_from]. rewrite Hs'. cbn [bind aln_append].
    apply (@replace_gaps_from_mismatch L (List.length s')); try assumption.
    - discriminate.
    - reflexivity.
    - rewrite Hls'. apply Exists_exists.
      destruct (has_data (rec_seq r)) eqn:Er.
      + exists r2. split.
        * destruct Hin2 as [<-|H]; [congruence | exact H].
        * rewrite Hd2. lia.
      + exists r1. split.
        * destruct Hin1 as [<-|H]; [congruence | exact H].
        * rewrite Hd1. lia. }
  split; [exact Hrg|]. intros rnd locus. unfold worker.
  destruct (init_maps aln 0 [] []). rewrite Hrg. reflexivity.
Qed.

Lemma X4_replace_gaps_mixed_records_witness :
  replace_gaps (mk_aln [("t1", "AC-"); ("t2", "---")]%string)
  = Raise ValueError
  /\ forall rnd locus,
       worker rnd locus (mk_aln [("t1", "AC-"); ("t2", "---")]%string)
       = Raise ValueError.
Proof.
  apply (@X4_replace_gaps_mixed_records
           (mk_aln [("t1", "AC-"); ("t2", "---")]%string)
           (mkSeqRecord (seq_of "AC-") "t1" "t1" "t1")
           (mkSeqRecord (seq_of "---") "t2" "t2" "t2")).
  - repeat constructor.
  - simpl. lia.
  - left. reflexivity.
  - reflexivity.
  - right. left. reflexivity.
  - reflexivity.
Defined.

(** ** One classification for every base *)

(** An alignment of one length that has a record with data and a record
    of gaps only: the normaliser doubles the record without data, the new
    alignment refuses it, and [worker] raises. *)
Lemma worker_raises_on_mixed_records (rnd : nat -> nat) (locus : string)
    (aln : alignment) (r1 r2 : SeqRecord) :
  rectangular aln ->
  0 < get_alignment_length aln ->
  In r1 aln -> has_data (rec_seq r1) = true ->
  In r2 aln -> has_data (rec_seq r2) = false ->
  worker rnd locus aln = Raise ValueError.
Proof.
  intros Hrect HL Hin1 Hd1 Hin2 Hd2.
  assert (Hrg : replace_gaps aln = Raise ValueError).
  { unfold replace_gaps. destruct aln as [|r t]; [contradiction|].
    set (L := get_alignment_length (r :: t)) in *.
    pose proof (Forall_inv Hrect) as Hr.
    pose proof (Forall_inv_tail Hrect) as Ht. cbv beta in Hr. fold L in Hr, Ht.
    destruct (@normalise_length (rec_seq r) L Hr HL) as [s' [Hs' Hls']].
    cbn [replace_gaps_from]. rewrite Hs'. cbn [bind aln_append].
    apply (@replace_gaps_from_mismatch L (List.length s')); try assumption.
    - discriminate.
    - reflexivity.
    - rewrite Hls'. apply Exists_exists.
      destruct (has_data (rec_seq r)) eqn:Er.
      + exists r2. split.
        * destruct Hin2 as [<-|H]; [congruence | exact H].
        * rewrite Hd2. lia.
      + exists r1. split.
        * destruct Hin1 as [<-|H]; [congruence | exact H].
        * rewrite Hd1. lia. }
  unfold worker. destruct (init_maps aln 0 [] []). rewrite Hrg. reflexivity.
Qed.

(** C4.  Every base gets one classification on the alignments whose
    records each hold a character other than the gap, and none where a
    record of gaps only stands beside a record with data.  For an
    alignment of one length over the alphabet: when every record holds
    data, [worker] returns with the length of the alignment; the
    [if]/[elif] chain gives every base a label; every column is filed,
    for each taxon, in the five lists of that taxon as many times in all
    as there are records carrying the taxon's name (once when the names
    are distinct); [by_locus] gets one row per column, and in each row the
    five counts add up to the number of records.  When a record of gaps
    only stands beside a record with data, [worker] raises [ValueError]
    and no base is classified: so for the records [AC-T] and [----]. *)
Theorem C4_every_base_classified_once (rnd : nat -> nat) (locus : string)
    (aln : alignment) :
  rectangular aln ->
  over_alphabet aln ->
  (Forall (fun r => has_data (rec_seq r) = true) aln ->
   exists wr,
     worker rnd locus aln = Ok wr
     /\ wr_length wr = get_alignment_length aln
     /\ (forall (m b : ascii), exists k, classify (Some m) b = Ok (Some k))
     /\ (forall name p, p < get_alignment_length aln ->
           taxon_filed name p (wr_results wr)
           = occ String.eqb name (map rec_id aln))
     /\ map bl_position (by_locus_rows wr) = seq 0 (get_alignment_length aln)
     /\ Forall (fun row =>
                  bl_majallele row + bl_substitutions row + bl_deletions row
                  + bl_insertions row + bl_missing row = List.length aln)
          (by_locus_rows wr))
  /\ (forall r1 r2,
        0 < get_alignment_length aln ->
        In r1 aln -> has_data (rec_seq r1) = true ->
        In r2 aln -> has_data (rec_seq r2) = false ->
        worker rnd locus aln = Raise ValueError)
  /\ worker rnd locus (mk_aln [("t1", "AC-T"); ("t2", "----")]%string)
     = Raise ValueError.
Proof.
  intros Hrect Halpha. split; [|split].
  - intros Hdata.
    pose proof (replace_gaps_total Hrect Hdata) as Hrg.
    destruct (replace_gaps_ok _ Hrg) as [Hids [Hrect' Halpha']].
    specialize (Halpha' Halpha).
    destruct (@classify_alignment_ok rnd locus aln (map normalised_record aln)
                Hids Hrect' Halpha')
      as [wr [Hwr [Hlength [Hbases [Hrec Hfiled]]]]].
    assert (HL : get_alignment_length (map normalised_record aln)
                 = get_alignment_length aln).
    { destruct aln as [|r t]; [reflexivity|]. simpl.
      apply end_gaps_masked_length. }
    rewrite HL in *.
    exists wr. split.
    { unfold worker. destruct (init_maps aln 0 [] []) as [name_map results].
      rewrite Hrg. cbn [bind]. exact Hwr. }
    split; [exact Hlength|].
    split; [exact classify_exhaustive|]. split.
    { intros name p Hp. rewrite (Hfiled name p Hp), Hids. reflexivity. }
    split.
    { rewrite by_locus_positions, Hbases. apply sorted_seq. }
    rewrite <- (length_map normalised_record aln).
    apply (@by_locus_rows_total wr (get_alignment_length aln) _ Hbases Hrec).
  - intros r1 r2 HL Hin1 Hd1 Hin2 Hd2.
    apply (@worker_raises_on_mixed_records rnd locus aln r1 r2); assumption.
  - apply (@worker_raises_on_mixed_records rnd locus
             (mk_aln [("t1", "AC-T"); ("t2", "----")]%string)
             (mkSeqRecord (seq_of "AC-T") "t1" "t1" "t1")
             (mkSeqRecord (seq_of "----") "t2" "t2" "t2")).
    + repeat constructor.
    + simpl. lia.
    + simpl. auto.
    + reflexivity.
    + simpl. auto.
    + reflexivity.
Qed.

Lemma C4_every_base_classified_once_witness :
  exists wr,
    worker (fun _ => 0) "uce" example_alignment = Ok wr
    /\ wr_length wr = get_alignment_length example_alignment
    /\ (forall (m b : ascii), exists k, classify (Some m) b = Ok (Some k))
    /\ (forall name p, p < get_alignment_length example_alignment ->
          taxon_filed name p (wr_results wr)
          = occ String.eqb name (map rec_id example_alignment))
    /\ map bl_position (by_locus_rows wr)
       = seq 0 (get_alignment_length example_alignment)
    /\ Forall (fun row =>
                 bl_majallele row + bl_substitutions row + bl_deletions row
                 + bl_insertions row + bl_missing row
                 = List.length example_alignment)
         (by_locus_rows wr).
Proof.
  destruct (@C4_every_base_classified_once (fun _ => 0) "uce"%string
              example_alignment) as [H _].
  - repeat constructor.
  - repeat constructor.
  - apply H. repeat constructor.
Defined.

(** ** The major allele *)

Lemma fold_max_all (l : list nat) :
  forall x y, In y (x :: l) -> y <= fold_left Nat.max l x.
Proof.
  induction l as [|z t IH]; intros x y Hy; simpl.
  - destruct Hy as [->|[]]. lia.
  - destruct Hy as [->|[->|Hy]].
    + pose proof (fold_max_ge t (Nat.max y z)). lia.
    + pose proof (fold_max_ge t (Nat.max x y)). lia.
    + apply IH. right. exact Hy.
Qed.

Lemma py_max_all (l : list nat) (m : nat) :
  py_max l = Ok m -> forall y, In y l -> y <= m.
Proof.
  destruct l as [|x t]; [discriminate|]. simpl. intros H y Hy.
  inversion H; subst. apply fold_max_all. exact Hy.
Qed.

Section HeadMax.
Variable K : Type.

(** The first item of [most_common] has the largest count. *)
Lemma insert_desc_head (x : K * nat) (l : list (K * nat)) :
  (forall h t, l = h :: t -> Forall (fun z => snd z <= snd h) t) ->
  forall h t, insert_desc x l = h :: t ->
              Forall (fun z => snd z <= snd h) t.
Proof.
  intros Hl h t E. destruct l as [|y l']; simpl in E.
  - inversion E. constructor.
  - specialize (Hl y l' eq_refl).
    destruct (Nat.ltb_spec (snd y) (snd x)) as [Hlt|Hge].
    + inversion E; subst. constructor; [lia|].
      eapply Forall_impl; [|exact Hl]. simpl. intros z Hz. lia.
    + inversion E; subst.
      eapply Permutation_Forall; [symmetry; apply insert_desc_perm|].
      constructor; [exact Hge | exact Hl].
Qed.

Lemma most_common_head (c : list (K * nat)) (h : K * nat)
    (t : list (K * nat)) :
  most_common c = h :: t -> forall z, In z c -> snd z <= snd h.
Proof.
  intros E z Hz.
  assert (Hinv : forall acc,
             (forall h t, acc = h :: t -> Forall (fun z => snd z <= snd h) t) ->
             forall h t,
               fold_left (fun acc x => insert_desc x acc) c acc = h :: t ->
               Forall (fun z => snd z <= snd h) t).
  { clear. induction c as [|x c' IH]; intros acc Hacc h t E.
    - simpl in E. exact (Hacc h t E).
    - simpl in E. eapply IH; [|exact E].
      apply insert_desc_head. exact Hacc. }
  pose proof (Hinv [] ltac:(intros ? ? H; discriminate) h t E) as Ht.
  assert (Hin : In z (h :: t)).
  { rewrite <- E. eapply Permutation_in; [symmetry; apply most_common_perm|].
    exact Hz. }
  destruct Hin as [<-|Hin]; [lia|].
  rewrite Forall_forall in Ht. exact (Ht z Hin).
Qed.

(** Two items with distinct keys and the count [m]: [m] is met at least
    twice among the counts. *)
Lemma two_keys_two_counts (k1 k2 : K) (m : nat) (c : list (K * nat)) :
  In (k1, m) c -> In (k2, m) c -> k1 <> k2 ->
  2 <= occ Nat.eqb m (values c).
Proof.
  unfold values. induction c as [|[k n] t IH]; simpl; [tauto|].
  intros H1 H2 Hne.
  assert (Hpos : forall k0, In (k0, m) t -> 1 <= occ Nat.eqb m (map snd t)).
  { intros k0 Hk0. apply (occ_pos_in Nat.eqb nat_eqb_eq).
    change m with (snd (k0, m)). apply in_map. exact Hk0. }
  destruct H1 as [E1|H1], H2 as [E2|H2].
  - congruence.
  - inversion E1; subst. rewrite Nat.eqb_refl. specialize (Hpos _ H2). lia.
  - inversion E2; subst. rewrite Nat.eqb_refl. specialize (Hpos _ H1). lia.
  - specialize (IH H1 H2 Hne). destruct (Nat.eqb m n); lia.
Qed.
End HeadMax.

Lemma Counter_has (l : seq_t) (c : ascii) :
  In c l -> In (c, occ Ascii.eqb c l) (Counter Ascii.eqb l).
Proof.
  intros Hc. apply (keys_Counter Ascii.eqb ascii_eqb_true) in Hc.
  unfold keys in Hc. apply in_map_iff in Hc. destruct Hc as [[c' n] [E Hin]].
  simpl in E. subst c'.
  destruct (Counter_entry Ascii.eqb ascii_eqb_true _ _ _ Hin) as [-> _].
  exact Hin.
Qed.

(** X5.  When one base alone holds the maximal count among the considered
    bases of a column, the major allele is that base, in the case it was
    read in: it is one of the bases and every other base of the column is
    strictly less frequent. *)
Theorem X5_strict_majority (r : nat) (major : option ascii) (bases : seq_t) :
  branch_of bases = Ok B_majority ->
  exists b,
    major_allele r major bases = Ok (Some b)
    /\ In b bases
    /\ forall c, In c bases -> c <> b ->
                 occ Ascii.eqb c bases < occ Ascii.eqb b bases.
Proof.
  intros Hb. unfold major_allele. rewrite Hb. cbn [bind].
  unfold branch_of in Hb.
  destruct (List.length bases =? 0); [discriminate|].
  destruct (List.length (py_set Ascii.eqb bases) =? 1); [discriminate|].
  set (count := Counter Ascii.eqb bases) in *.
  destruct (py_max (keys (Counter Nat.eqb (values count)))) as [mx|e] eqn:Emx;
    [|discriminate].
  cbn [bind] in Hb.
  destruct (counter_get Nat.eqb (Counter Nat.eqb (values count)) mx =? 1)
    eqn:E1; [|discriminate].
  apply Nat.eqb_eq in E1.
  rewrite (counter_get_Counter Nat.eqb nat_eqb_eq) in E1.
  assert (Hmx_in : In mx (values count)).
  { apply py_max_in in Emx.
    apply (proj1 (keys_Counter Nat.eqb nat_eqb_eq _ _)) in Emx. exact Emx. }
  assert (Hmx_all : forall n, In n (values count) -> n <= mx).
  { intros n Hn. apply (py_max_all _ Emx).
    apply (keys_Counter Nat.eqb nat_eqb_eq). exact Hn. }
  destruct (most_common count) as [|[b n] t] eqn:Emc.
  { exfalso. unfold values in Hmx_in. apply in_map_iff in Hmx_in.
    destruct Hmx_in as [z [_ Hz]].
    assert (In z (most_common count))
      by (eapply Permutation_in; [symmetry; apply most_common_perm | exact Hz]).
    rewrite Emc in H. contradiction. }
  assert (Hbn : In (b, n) count).
  { eapply Permutation_in; [apply most_common_perm|]. rewrite Emc. left.
    reflexivity. }
  destruct (Counter_entry Ascii.eqb ascii_eqb_true _ _ _ Hbn) as [Hn Hbin].
  assert (Hnmx : n = mx).
  { apply Nat.le_antisymm.
    - apply Hmx_all. change n with (snd (b, n)). apply in_map. exact Hbn.
    - unfold values in Hmx_in. apply in_map_iff in Hmx_in.
      destruct Hmx_in as [z [Ez Hz]]. rewrite <- Ez.
      apply (most_common_head _ Emc z Hz). }
  exists b. split; [reflexivity|]. split; [exact Hbin|].
  intros c Hc Hne.
  pose proof (Counter_has _ _ Hc) as Hcin. fold count in Hcin.
  pose proof (most_common_head _ Emc _ Hcin) as Hle. simpl in Hle.
  rewrite <- Hn.
  destruct (Nat.eq_dec (occ Ascii.eqb c bases) n) as [Heq|Hneq]; [|lia].
  exfalso. rewrite Heq, Hnmx in Hcin. rewrite Hnmx in Hbn.
  pose proof (@two_keys_two_counts _ c b mx count Hcin Hbn Hne). lia.
Qed.

Lemma X5_strict_majority_witness :
  exists b,
    major_allele 0 None (seq_of "TAT-") = Ok (Some b)
    /\ In b (seq_of "TAT-")
    /\ forall c, In c (seq_of "TAT-") -> c <> b ->
                 occ Ascii.eqb c (seq_of "TAT-")
                 < occ Ascii.eqb b (seq_of "TAT-").
Proof.
  apply (@X5_strict_majority 0 None (seq_of "TAT-")). reflexivity.
Defined.

Lemma common_bases_inv (mx : nat) (m : ascii) (mc : list (ascii * nat)) :
  In m (common_bases_of mx mc) ->
  exists b, In (b, mx) mc /\ m = lower b /\ char_in m iupac_bases = true.
Proof.
  induction mc as [|[b0 c0] t IH]; [intros []|].
  cbn [common_bases_of].
  destruct (Nat.eqb_spec c0 mx) as [->|Hne]; cbn [andb].
  - destruct (char_in (lower b0) iupac_bases) eqn:E.
    + intros [<-|H].
      * exists b0. split; [left; reflexivity | auto].
      * destruct (IH H) as [b [H1 H2]]. exists b. split; [right|]; assumption.
    + intros H. destruct (IH H) as [b [H1 H2]].
      exists b. split; [right|]; assumption.
  - intros H. destruct (IH H) as [b [H1 H2]].
    exists b. split; [right|]; assumption.
Qed.

Lemma iupac_not_gap (m : ascii) : char_in m iupac_bases = true -> m <> gap.
Proof. by_characters m. Qed.

(** X6.  When several considered bases of a column over the alphabet hold
    the maximal count, the major allele drawn is the lower-case form of
    one of the bases that hold it; it is one of the fourteen nucleotide
    codes of the candidate list and never the gap, even when the gap is
    among the most frequent. *)
Theorem X6_tie_break_choice (r : nat) (major : option ascii) (bases : seq_t) :
  Forall (fun c => in_alphabet c = true) bases ->
  Forall (fun c => char_in c missing_chars = false) bases ->
  branch_of bases = Ok B_tie ->
  exists m b,
    major_allele r major bases = Ok (Some m)
    /\ m = lower b
    /\ In b bases
    /\ (forall c, In c bases -> occ Ascii.eqb c bases <= occ Ascii.eqb b bases)
    /\ char_in m iupac_bases = true
    /\ m <> gap.
Proof.
  intros Halpha Hcons Hb.
  destruct (tie_has_candidate Halpha Hcons Hb) as [mx [Hmx Hcb]].
  destruct (choice_nonempty r Hcb) as [m [Hm Hin]].
  destruct (common_bases_inv _ _ _ Hin) as [b [Hbmc [Hmb Hiupac]]].
  assert (Hbc : In (b, mx) (Counter Ascii.eqb bases)).
  { eapply Permutation_in; [apply most_common_perm | exact Hbmc]. }
  destruct (Counter_entry Ascii.eqb ascii_eqb_true _ _ _ Hbc) as [Hocc Hbin].
  exists m, b. split.
  { unfold major_allele. rewrite Hb. cbn [bind]. rewrite Hmx. cbn [bind].
    rewrite Hm. reflexivity. }
  split; [exact Hmb|]. split; [exact Hbin|]. split.
  { intros c Hc. rewrite <- Hocc. apply (py_max_all _ Hmx).
    apply (keys_Counter Nat.eqb nat_eqb_eq).
    pose proof (Counter_has _ _ Hc) as H.
    change (occ Ascii.eqb c bases) with (snd (c, occ Ascii.eqb c bases)).
    apply in_map. exact H. }
  split; [exact Hiupac | apply iupac_not_gap, Hiupac].
Qed.

Lemma X6_tie_break_choice_witness :
  exists m b,
    major_allele 5 None (seq_of "-A-A") = Ok (Some m)
    /\ m = lower b
    /\ In b (seq_of "-A-A")
    /\ (forall c, In c (seq_of "-A-A") ->
                  occ Ascii.eqb c (seq_of "-A-A")
                  <= occ Ascii.eqb b (seq_of "-A-A"))
    /\ char_in m iupac_bases = true
    /\ m <> gap.
Proof.
  apply (@X6_tie_break_choice 5 None (seq_of "-A-A")).
  - repeat constructor.
  - repeat constructor.
  - reflexivity.
Defined.

Lemma lower_idempotent (c : ascii) : lower (lower c) = lower c.
Proof. by_characters c. Qed.

Lemma lower_gap_eq (c : ascii) : Ascii.eqb (lower c) gap = Ascii.eqb c gap.
Proof. by_characters c. Qed.

(** X7.  Against a major allele that is an upper-case letter no base is
    ever filed under [majallele], since bases are compared in lower case:
    every base that is not missing data is filed as a deletion when it is
    a gap and as a substitution otherwise, the bases equal to the major
    allele included. *)
Theorem X7_upper_case_major (m b : ascii) :
  lower m <> m ->
  char_in b missing_chars = false ->
  classify (Some m) b
  = Ok (Some (if is_gap b then K_deletion else K_substitution))
  /\ classify (Some m) m <> Ok (Some K_majallele).
Proof.
  intros Hm Hb.
  assert (Hall : forall c, Ascii.eqb (lower c) m = false).
  { intros c. apply Ascii.eqb_neq. intros E. apply Hm.
    rewrite <- E. apply lower_idempotent. }
  assert (Hmg : Ascii.eqb m gap = false).
  { apply Ascii.eqb_neq. intros ->. apply Hm. reflexivity. }
  split.
  - unfold classify. rewrite lower_missing, Hb, Hall, Hmg, lower_gap_eq.
    unfold is_gap. destruct (Ascii.eqb b gap); reflexivity.
  - unfold classify. destruct (char_in (lower m) missing_chars);
      [discriminate|].
    rewrite Hall, Hmg, lower_gap_eq, Hmg. simpl. discriminate.
Qed.

Lemma X7_upper_case_major_witness :
  classify (Some "T"%char) "T"%char
  = Ok (Some (if is_gap "T"%char then K_deletion else K_substitution))
  /\ classify (Some "T"%char) "T"%char <> Ok (Some K_majallele).
Proof.
  apply (@X7_upper_case_major "T"%char "T"%char).
  - discriminate.
  - reflexivity.
Defined.

(** ** What [worker] has recorded when it returns *)

Lemma classify_inv (major : option ascii) (b : ascii) (k : option kind) :
  classify major b = Ok k ->
  exists k', k = Some k' /\ kind_eqb K_None k' = char_in b missing_chars.
Proof.
  unfold classify. rewrite lower_missing.
  destruct (char_in b missing_chars).
  - intros H. inversion H. exists K_None. auto.
  - destruct major as [m|]; [|discriminate].
    destruct (Ascii.eqb (lower b) m) eqn:E1.
    { intros H. inversion H. eexists. split; reflexivity. }
    destruct (Ascii.eqb m gap) eqn:E2;
      destruct (Ascii.eqb (lower b) gap) eqn:E3; simpl;
      intros H; inversion H; try (eexists; split; reflexivity).
    apply Ascii.eqb_eq in E2, E3. apply Ascii.eqb_neq in E1. congruence.
Qed.

Lemma classify_column_inv (name_map : list (nat * string))
    (major : option ascii) (idx : nat) (col : seq_t) :
  forall pos results results',
    classify_column name_map major idx pos col results = Ok results' ->
    exists ks, Forall2 (fun b k => classify major b = Ok (Some k)) col ks.
Proof.
  induction col as [|b t IH]; intros pos results results' H.
  - exists []. constructor.
  - cbn [classify_column] in H.
    apply bind_ok_inv in H. destruct H as [k [Hk H]].
    apply bind_ok_inv in H. destruct H as [r1 [_ H]].
    destruct (@classify_inv major b k Hk) as [k' [-> _]].
    destruct (IH _ _ _ H) as [ks Hks].
    exists (k' :: ks). constructor; assumption.
Qed.

Lemma occ_none_considered (major : option ascii) (col : seq_t)
    (ks : list kind) :
  Forall2 (fun b k => classify major b = Ok (Some k)) col ks ->
  occ kind_eqb K_None ks + List.length (strip_missing col) = List.length col.
Proof.
  unfold strip_missing.
  induction 1 as [|b k t ks' Hk _ IH]; [reflexivity|].
  destruct (@classify_inv major b (Some k) Hk) as [k' [E Hnone]].
  inversion E; subst k'.
  cbn [occ filter List.length]. rewrite Hnone.
  destruct (char_in b missing_chars); cbn [negb List.length]; lia.
Qed.

Lemma column_step_inv (rnd : nat -> nat) (aln : alignment)
    (name_map : list (nat * string)) (st st' : state) (idx : nat) :
  names_ok name_map (st_results st) 0 (map rec_id aln) ->
  column_step rnd aln name_map st idx = Ok st' ->
  exists col ks,
    column aln idx = Ok col
    /\ Forall2 (fun b k => classify (st_major st') b = Ok (Some k)) col ks
    /\ st_base_count st'
       = dict_set Nat.eqb idx (List.length (strip_missing col))
           (st_base_count st)
    /\ keys (st_results st') = keys (st_results st)
    /\ forall k j,
         recorded k j (st_results st')
         = recorded k j (st_results st)
           + (if Nat.eqb j idx then occ kind_eqb k ks else 0).
Proof.
  intros Hok H. unfold column_step in H.
  apply bind_ok_inv in H. destruct H as [col [Hcol H]].
  apply bind_ok_inv in H. destruct H as [major' [Hmajor H]].
  apply bind_ok_inv in H. destruct H as [results' [Hres H]].
  inversion H; subst st'. cbn [st_major st_base_count st_results].
  destruct (@classify_column_inv name_map major' idx col 0 (st_results st) results' Hres) as [ks Hks].
  destruct (@classify_column_ok name_map major' idx col ks (map rec_id aln) 0
              (st_results st) Hks)
    as [r2 [Hr2 [Hkeys [Hrec _]]]].
  { rewrite length_map. symmetry. eapply column_length. exact Hcol. }
  { exact Hok. }
  rewrite Hres in Hr2. inversion Hr2; subst r2.
  exists col, ks. repeat split; assumption.
Qed.

Lemma column_loop_inv (rnd : nat -> nat) (aln : alignment)
    (name_map : list (nat * string)) (n : nat) :
  forall (a : nat) (st st' : state),
    column_loop rnd aln name_map (seq a n) st = Ok st' ->
    names_ok name_map (st_results st) 0 (map rec_id aln) ->
    keys (st_base_count st) = seq 0 a ->
    (forall k j, a <= j -> recorded k j (st_results st) = 0) ->
    (forall j, j < a ->
       column_done aln (st_base_count st) (st_results st) j) ->
    keys (st_results st') = keys (st_results st)
    /\ keys (st_base_count st') = seq 0 (a + n)
    /\ (forall k j, a + n <= j -> recorded k j (st_results st') = 0)
    /\ (forall j, j < a + n ->
          column_done aln (st_base_count st') (st_results st') j).
Proof.
  induction n as [|n IH]; intros a st st' H Hok Hkeys Hzero Hdone.
  - simpl in H. inversion H; subst st'. rewrite Nat.add_0_r. auto.
  - cbn [seq column_loop] in H.
    apply bind_ok_inv in H. destruct H as [st1 [Hstep H]].
    destruct (@column_step_inv rnd aln name_map st st1 a Hok Hstep)
      as [col [ks [Hcol [Hks [Hbc [Hk1 Hrec]]]]]].
    destruct (IH (S a) st1 st' H) as [Hk2 [Hbc2 [Hzero2 Hdone2]]].
    + destruct Hok as [H1 H2]. split; [exact H1|].
      intros name Hname. rewrite Hk1. apply H2. exact Hname.
    + rewrite Hbc, (keys_dict_set_absent Nat.eqb nat_eqb_eq), Hkeys.
      * symmetry. apply seq_S.
      * rewrite Hkeys, in_seq. lia.
    + intros k j Hj. rewrite Hrec, Hzero by lia.
      replace (j =? a) with false by (symmetry; apply Nat.eqb_neq; lia).
      reflexivity.
    + intros j Hj. destruct (Nat.eq_dec j a) as [->|Hne].
      * exists col. split; [exact Hcol|]. split.
        { unfold counter_get. rewrite Hbc.
          rewrite (dict_get_set_same Nat.eqb nat_eqb_eq). reflexivity. }
        split.
        { rewrite Hrec, Nat.eqb_refl, Hzero by lia.
          apply (@occ_none_considered (st_major st1) col ks Hks). }
        { unfold recorded_all. rewrite !Hrec, Nat.eqb_refl, !Hzero by lia.
          rewrite (Forall2_length Hks), <- (occ_kind_total ks). lia. }
      * destruct (Hdone j ltac:(lia)) as [c [H1 [H2 [H3 H4]]]].
        exists c. split; [exact H1|].
        assert (Hf : (j =? a) = false) by (apply Nat.eqb_neq; exact Hne).
        split.
        { unfold counter_get in *. rewrite Hbc.
          rewrite (dict_get_set_other Nat.eqb nat_eqb_eq) by exact Hne.
          exact H2. }
        split.
        { rewrite Hrec, Hf. lia. }
        { unfold recorded_all in *. rewrite !Hrec, Hf. lia. }
    + split; [congruence|]. split; [rewrite Hbc2; f_equal; lia|].
      split.
      * intros k j Hj. apply Hzero2. lia.
      * intros j Hj. apply Hdone2. lia.
Qed.

(** Whenever [worker] returns, the normalisation went through and every
    column of the normalised alignment has been gone through. *)
Lemma worker_inv (rnd : nat -> nat) (locus : string) (aln : alignment)
    (wr : worker_result) :
  worker rnd locus aln = Ok wr ->
  exists aln',
    replace_gaps aln = Ok aln'
    /\ List.length aln' = List.length aln
    /\ wr_locus wr = locus
    /\ wr_length wr = get_alignment_length aln'
    /\ keys (wr_results wr) = keys (snd (init_maps aln 0 [] []))
    /\ keys (wr_bases wr) = seq 0 (wr_length wr)
    /\ (forall k j, wr_length wr <= j -> recorded k j (wr_results wr) = 0)
    /\ (forall j, j < wr_length wr ->
          column_done aln' (wr_bases wr) (wr_results wr) j).
Proof.
  unfold worker. intros H.
  pose proof (names_ok_init aln) as Hok.
  destruct (init_maps_ok aln 0 [] []) as [_ [_ [_ Hempty]]].
  specialize (Hempty ltac:(constructor)).
  destruct (init_maps aln 0 [] []) as [name_map results].
  cbn [fst snd] in *.
  apply bind_ok_inv in H. destruct H as [aln' [Hrg H]].
  destruct (replace_gaps_ok _ Hrg) as [Hids _].
  unfold classify_alignment in H.
  apply bind_ok_inv in H. destruct H as [st [Hloop H]].
  inversion H; subst wr. cbn [wr_locus wr_length wr_results wr_bases].
  destruct (@column_loop_inv rnd aln' name_map (get_alignment_length aln') 0
              (mkState None results []) st Hloop)
    as [Hk [Hbc [Hzero Hdone]]].
  - cbn [st_results]. rewrite Hids. exact Hok.
  - reflexivity.
  - intros k j _. apply all_empty_recorded. exact Hempty.
  - intros j Hj. lia.
  - exists aln'. split; [exact Hrg|]. split.
    { rewrite <- (length_map rec_id aln'), Hids. apply length_map. }
    repeat split; assumption.
Qed.

(** X8.  Whenever [worker] returns, the rows written to [by_locus] for
    the locus are one per column of the normalised alignment, and in each
    row [bases] is the number of characters of the column that are not
    missing data, [missing] and [bases] add up to the number of records,
    and the four other counts add up to [bases]. *)
Theorem X8_by_locus_counts (rnd : nat -> nat) (locus : string)
    (aln : alignment) (wr : worker_result) :
  worker rnd locus aln = Ok wr ->
  exists aln',
    replace_gaps aln = Ok aln'
    /\ map bl_position (by_locus_rows wr) = seq 0 (get_alignment_length aln')
    /\ Forall (fun row =>
                 (exists col,
                     column aln' (bl_position row) = Ok col
                     /\ bl_bases row = List.length (strip_missing col))
                 /\ bl_missing row + bl_bases row = List.length aln
                 /\ bl_majallele row + bl_substitutions row
                    + bl_deletions row + bl_insertions row = bl_bases row)
         (by_locus_rows wr).
Proof.
  intros H.
  destruct (@worker_inv rnd locus aln wr H)
    as [aln' [Hrg [Hlen [_ [HL [_ [Hbases [_ Hdone]]]]]]]].
  exists aln'. split; [exact Hrg|].
  assert (Hpos : map bl_position (by_locus_rows wr)
                 = seq 0 (get_alignment_length aln')).
  { rewrite by_locus_positions, Hbases, HL. apply sorted_seq. }
  split; [exact Hpos|].
  apply Forall_forall. intros row Hrow.
  assert (Hp : bl_position row < wr_length wr).
  { assert (Hin : In (bl_position row) (map bl_position (by_locus_rows wr)))
      by (apply in_map; exact Hrow).
    rewrite Hpos in Hin. apply in_seq in Hin. lia. }
  destruct (Hdone _ Hp) as [col [Hcol [Hb [Hnone Hall]]]].
  pose proof (column_length _ _ Hcol) as Hcl.
  pose proof (by_locus_row_sum _ _ Hrow) as Hsum.
  unfold by_locus_rows in Hrow. apply in_map_iff in Hrow.
  destruct Hrow as [pos [<- _]].
  cbn [bl_position bl_bases bl_missing bl_majallele bl_substitutions
       bl_deletions bl_insertions] in *.
  rewrite !position_count_recorded in *. unfold bases_at.
  split; [exists col; split; assumption|]. lia.
Qed.


Lemma X8_by_locus_counts_witness :
  exists wr aln',
    worker (fun _ => 0) "uce" example_missing = Ok wr
    /\ replace_gaps example_missing = Ok aln'
    /\ map bl_position (by_locus_rows wr) = seq 0 (get_alignment_length aln')
    /\ Forall (fun row =>
                 (exists col,
                     column aln' (bl_position row) = Ok col
                     /\ bl_bases row = List.length (strip_missing col))
                 /\ bl_missing row + bl_bases row
                    = List.length example_missing
                 /\ bl_majallele row + bl_substitutions row
                    + bl_deletions row + bl_insertions row = bl_bases row)
         (by_locus_rows wr).
Proof.
  destruct (worker (fun _ => 0) "uce" example_missing) as [wr|e] eqn:E;
    [|vm_compute in E; discriminate].
  destruct (@X8_by_locus_counts (fun _ => 0) "uce"%string example_missing
              wr E) as [aln' H].
  exists wr, aln'. split; [reflexivity | exact H].
Defined.

(** ** The rows of [by_taxon] and [by_locus_missing] *)

Lemma list_sum_zero (A : Type) (l : list A) :
  list_sum (map (fun _ => 0) l) = 0.
Proof. induction l as [|x t IH]; simpl; [reflexivity | exact IH]. Qed.

Lemma list_sum_head (x : nat) (l : list nat) :
  list_sum (x :: l) = x + list_sum l.
Proof. reflexivity. Qed.

Lemma flat_map_head (A B : Type) (f : A -> list B) (x : A) (l : list A) :
  flat_map f (x :: l) = f x ++ flat_map f l.
Proof. reflexivity. Qed.

Lemma list_sum_add (A : Type) (f g : A -> nat) (l : list A) :
  list_sum (map (fun x => f x + g x) l)
  = list_sum (map f l) + list_sum (map g l).
Proof. induction l as [|x t IH]; simpl; [reflexivity | rewrite IH; lia]. Qed.

Lemma list_sum_const (A : Type) (f : A -> nat) (c : nat) (l : list A) :
  (forall x, In x l -> f x = c) ->
  list_sum (map f l) = c * List.length l.
Proof.
  induction l as [|x t IH]; intros H; simpl; [lia|].
  rewrite (H x (or_introl eq_refl)), IH by (intros y Hy; apply H; right; exact Hy).
  lia.
Qed.

Lemma sum_indicator (x : nat) :
  forall n s,
    list_sum (map (fun j => if Nat.eqb j x then 1 else 0) (seq s n))
    = if (s <=? x) && (x <? s + n) then 1 else 0.
Proof.
  induction n as [|n IH]; intros s.
  - simpl. destruct (s <=? x) eqn:E1; [|reflexivity].
    apply Nat.leb_le in E1.
    replace (x <? s + 0) with false by (symmetry; apply Nat.ltb_ge; lia).
    reflexivity.
  - cbn [seq map]. rewrite list_sum_head, IH.
    destruct (Nat.eqb_spec s x) as [->|Hne].
    + replace (S x <=? x) with false by (symmetry; apply Nat.leb_gt; lia).
      rewrite Nat.leb_refl.
      replace (x <? x + S n) with true by (symmetry; apply Nat.ltb_lt; lia).
      reflexivity.
    + destruct (S s <=? x) eqn:E1.
      * apply Nat.leb_le in E1.
        replace (s <=? x) with true by (symmetry; apply Nat.leb_le; lia).
        replace (S s + n) with (s + S n) by lia. reflexivity.
      * apply Nat.leb_gt in E1.
        replace (s <=? x) with false by (symmetry; apply Nat.leb_gt; lia).
        reflexivity.
Qed.

(** A list of positions below [a] is as long as its positions occur in
    it. *)
Lemma length_by_position (a : nat) (l : list nat) :
  (forall j, a <= j -> occ Nat.eqb j l = 0) ->
  List.length l = list_sum (map (fun j => occ Nat.eqb j l) (seq 0 a)).
Proof.
  induction l as [|x t IH]; intros H.
  - simpl. symmetry. apply list_sum_zero.
  - cbn [occ List.length].
    rewrite (list_sum_add (fun j => if Nat.eqb j x then 1 else 0)
               (fun j => occ Nat.eqb j t)).
    rewrite sum_indicator, <- IH.
    + assert (Hx : x < a).
      { destruct (Nat.lt_ge_cases x a) as [Hlt|Hge]; [exact Hlt|].
        specialize (H x Hge). cbn [occ] in H.
        rewrite Nat.eqb_refl in H. lia. }
      simpl. replace (x <? a) with true by (symmetry; apply Nat.ltb_lt; lia).
      reflexivity.
    + intros j Hj. specialize (H j Hj). cbn [occ] in H. lia.
Qed.

Lemma by_taxon_rows_length (wr : worker_result) :
  List.length (by_taxon_rows wr)
  = List.length (gather K_insertion (wr_results wr))
    + List.length (gather K_deletion (wr_results wr))
    + List.length (gather K_substitution (wr_results wr))
    + List.length (gather K_majallele (wr_results wr))
    + List.length (gather K_None (wr_results wr)).
Proof.
  unfold by_taxon_rows.
  generalize (wr_locus wr) (wr_length wr). intros locus len.
  induction (wr_results wr) as [|[name vals] t IH]; [reflexivity|].
  rewrite flat_map_head, length_app, IH. unfold gather.
  rewrite !flat_map_head, !length_app.
  cbn [flat_map all_kinds]. rewrite !length_app, !length_map.
  cbn [List.length]. lia.
Qed.

Lemma by_taxon_rows_in (wr : worker_result) (row : by_taxon_row) :
  In row (by_taxon_rows wr) ->
  bt_locus row = wr_locus wr
  /\ In (bt_taxon row) (keys (wr_results wr))
  /\ In (bt_position row) (gather (bt_type row) (wr_results wr))
  /\ bt_position_from_center row
     = position_from_center (bt_position row) (wr_length wr).
Proof.
  unfold by_taxon_rows. intros H.
  apply in_flat_map in H. destruct H as [[name vals] [Hnv H]].
  apply in_flat_map in H. destruct H as [typ [_ H]].
  apply in_map_iff in H. destruct H as [pos [<- Hpos]].
  cbn [bt_locus bt_taxon bt_position bt_type bt_position_from_center].
  split; [reflexivity|]. split.
  - unfold keys. apply in_map_iff. exists (name, vals). auto.
  - split; [|reflexivity].
    unfold gather. apply in_flat_map. exists (name, vals). auto.
Qed.

(** X9.  Whenever [worker] returns, the rows written to [by_taxon] for
    the locus number records times columns, one per character of the
    alignment, and each names the locus, a taxon of the alignment and a
    column of it, with the column's distance from the centre. *)
Theorem X9_by_taxon_rows (rnd : nat -> nat) (locus : string)
    (aln : alignment) (wr : worker_result) :
  worker rnd locus aln = Ok wr ->
  List.length (by_taxon_rows wr) = List.length aln * wr_length wr
  /\ Forall (fun row =>
               bt_locus row = locus
               /\ In (bt_taxon row) (map rec_id aln)
               /\ bt_position row < wr_length wr
               /\ bt_position_from_center row
                  = (Z.of_nat (bt_position row)
                     - Z.of_nat (wr_length wr) / 2)%Z)
       (by_taxon_rows wr).
Proof.
  intros H.
  destruct (@worker_inv rnd locus aln wr H)
    as [aln' [_ [Hlen [Hloc [_ [Hkeys [_ [Hzero Hdone]]]]]]]].
  split.
  - rewrite by_taxon_rows_length.
    rewrite (@length_by_position (wr_length wr)
               (gather K_insertion (wr_results wr)))
      by (intros j Hj; apply (Hzero K_insertion j Hj)).
    rewrite (@length_by_position (wr_length wr)
               (gather K_deletion (wr_results wr)))
      by (intros j Hj; apply (Hzero K_deletion j Hj)).
    rewrite (@length_by_position (wr_length wr)
               (gather K_substitution (wr_results wr)))
      by (intros j Hj; apply (Hzero K_substitution j Hj)).
    rewrite (@length_by_position (wr_length wr)
               (gather K_majallele (wr_results wr)))
      by (intros j Hj; apply (Hzero K_majallele j Hj)).
    rewrite (@length_by_position (wr_length wr)
               (gather K_None (wr_results wr)))
      by (intros j Hj; apply (Hzero K_None j Hj)).
    rewrite <- !list_sum_add.
    rewrite (@list_sum_const nat _ (List.length aln)).
    + rewrite length_seq. reflexivity.
    + intros j Hj. apply in_seq in Hj.
      destruct (Hdone j ltac:(lia)) as [col [Hcol [_ [_ Hall]]]].
      rewrite <- Hlen, <- (column_length _ _ Hcol), <- Hall.
      unfold recorded_all, recorded. lia.
  - apply Forall_forall. intros row Hrow.
    destruct (by_taxon_rows_in _ _ Hrow) as [H1 [H2 [H3 H4]]].
    split; [congruence|]. split.
    { rewrite Hkeys in H2.
      destruct (init_maps_ok aln 0 [] []) as [_ [_ [Hin _]]].
      apply Hin in H2. destruct H2 as [H2|[]]. exact H2. }
    split; [|exact H4].
    destruct (Nat.lt_ge_cases (bt_position row) (wr_length wr))
      as [Hlt|Hge]; [exact Hlt|].
    specialize (Hzero (bt_type row) _ Hge). unfold recorded in Hzero.
    apply (occ_pos_in Nat.eqb nat_eqb_eq) in H3. lia.
Qed.

Lemma X9_by_taxon_rows_witness :
  exists wr,
    worker (fun _ => 0) "uce" example_alignment = Ok wr
    /\ List.length (by_taxon_rows wr)
       = List.length example_alignment * wr_length wr
    /\ Forall (fun row =>
                 bt_locus row = "uce"%string
                 /\ In (bt_taxon row) (map rec_id example_alignment)
                 /\ bt_position row < wr_length wr
                 /\ bt_position_from_center row
                    = (Z.of_nat (bt_position row)
                       - Z.of_nat (wr_length wr) / 2)%Z)
         (by_taxon_rows wr).
Proof.
  destruct (worker (fun _ => 0) "uce" example_alignment) as [wr|e] eqn:E;
    [|vm_compute in E; discriminate].
  exists wr. split; [reflexivity|].
  apply (@X9_by_taxon_rows (fun _ => 0) "uce"%string example_alignment
           wr E).
Defined.

Lemma init_maps_keys (aln : alignment) :
  forall (idx : nat) (name_map : list (nat * string)) (results : results_t),
    NoDup (keys results ++ map rec_id aln) ->
    keys (snd (init_maps aln idx name_map results))
    = keys results ++ map rec_id aln.
Proof.
  induction aln as [|r t IH]; intros idx name_map results Hnd.
  - simpl. rewrite app_nil_r. reflexivity.
  - cbn [init_maps map] in *.
    assert (Hk : keys (dict_set String.eqb (rec_id r) no_events results)
                 = keys results ++ [rec_id r]).
    { apply (keys_dict_set_absent String.eqb string_eqb_eq).
      intros Hin. apply NoDup_remove_2 in Hnd. apply Hnd.
      apply in_or_app. left. exact Hin. }
    rewrite IH; rewrite Hk, <- app_assoc; [reflexivity | exact Hnd].
Qed.

Lemma forall2_map_same (A B C : Type) (P : B -> C -> Prop)
    (f : A -> B) (g : A -> C) (l : list A) :
  (forall x, In x l -> P (f x) (g x)) ->
  Forall2 P (map f l) (map g l).
Proof.
  induction l as [|x t IH]; intros H; simpl; constructor.
  - apply H. left. reflexivity.
  - apply IH. intros y Hy. apply H. right. exact Hy.
Qed.

(** X10.  For an alignment whose records have distinct ids, whenever
    [worker] returns, the rows of [by_locus_missing] go with those of
    [by_locus] one to one: same locus, position and distance from the
    centre, [present] is [bases] and [absent] is [missing], so that
    [present] and [absent] add up to the number of records. *)
Theorem X10_by_locus_missing_rows (rnd : nat -> nat) (locus : string)
    (aln : alignment) (wr : worker_result) :
  NoDup (map rec_id aln) ->
  worker rnd locus aln = Ok wr ->
  Forall2 (fun m s =>
             blm_locus m = bl_locus s
             /\ blm_position m = bl_position s
             /\ blm_position_from_center m = bl_position_from_center s
             /\ blm_present m = bl_bases s
             /\ blm_absent m = Z.of_nat (bl_missing s)
             /\ (Z.of_nat (blm_present m) + blm_absent m
                 = Z.of_nat (List.length aln))%Z)
    (by_locus_missing_rows wr) (by_locus_rows wr).
Proof.
  intros Hnd H.
  destruct (@worker_inv rnd locus aln wr H)
    as [aln' [_ [Hlen [_ [_ [Hkeys [Hbases [_ Hdone]]]]]]]].
  assert (Hn : List.length (keys (wr_results wr)) = List.length aln).
  { rewrite Hkeys, (@init_maps_keys aln 0 [] []) by exact Hnd.
    simpl. apply length_map. }
  unfold by_locus_missing_rows, by_locus_rows.
  apply forall2_map_same. intros pos Hpos.
  cbn [blm_locus blm_position blm_position_from_center blm_present
       blm_absent bl_locus bl_position bl_position_from_center bl_bases
       bl_missing].
  rewrite Hbases, sorted_seq in Hpos. apply in_seq in Hpos.
  destruct (Hdone pos ltac:(lia)) as [col [Hcol [Hb [Hnone _]]]].
  pose proof (column_length _ _ Hcol) as Hcl.
  rewrite position_count_recorded, Hn. unfold bases_at. rewrite Hb.
  repeat split; lia.
Qed.

Lemma X10_by_locus_missing_rows_witness :
  exists wr,
    worker (fun _ => 0) "uce" example_missing = Ok wr
    /\ Forall2 (fun m s =>
                  blm_locus m = bl_locus s
                  /\ blm_position m = bl_position s
                  /\ blm_position_from_center m = bl_position_from_center s
                  /\ blm_present m = bl_bases s
                  /\ blm_absent m = Z.of_nat (bl_missing s)
                  /\ (Z.of_nat (blm_present m) + blm_absent m
                      = Z.of_nat (List.length example_missing))%Z)
         (by_locus_missing_rows wr) (by_locus_rows wr).
Proof.
  destruct (worker (fun _ => 0) "uce" example_missing) as [wr|e] eqn:E;
    [|vm_compute in E; discriminate].
  exists wr. split; [reflexivity|].
  apply (@X10_by_locus_missing_rows (fun _ => 0) "uce"%string
           example_missing wr); [|exact E].
  repeat constructor; simpl; intuition discriminate.
Defined.

(** ** Filling the store *)

Lemma ingest_all_spec (wrs : list worker_result) :
  forall db : database,
    NoDup (map l_locus (loci db)) ->
    match ingest_all db wrs with
    | Ok db' =>
        NoDup (map l_locus (loci db) ++ map wr_locus wrs)
        /\ loci db' = loci db ++ loci (store_of wrs)
        /\ by_taxon db' = by_taxon db ++ by_taxon (store_of wrs)
        /\ by_locus db' = by_locus db ++ by_locus (store_of wrs)
        /\ by_locus_missing db'
           = by_locus_missing db ++ by_locus_missing (store_of wrs)
    | Raise e =>
        e = IntegrityError
        /\ ~ NoDup (map l_locus (loci db) ++ map wr_locus wrs)
    end.
Proof.
  induction wrs as [|wr rest IH]; intros db Hnd.
  - simpl. rewrite !app_nil_r. auto.
  - cbn [ingest_all]. unfold ingest.
    destruct (existsb (fun r => String.eqb (l_locus r) (wr_locus wr))
                (loci db)) eqn:E.
    + cbn [bind]. split; [reflexivity|].
      apply existsb_exists in E. destruct E as [r [Hr Heq]].
      apply String.eqb_eq in Heq.
      intros Hno. cbn [map] in Hno. apply NoDup_remove_2 in Hno.
      apply Hno, in_or_app. left. rewrite <- Heq. apply in_map. exact Hr.
    + cbn [bind].
      assert (Hnotin : ~ In (wr_locus wr) (map l_locus (loci db))).
      { intros Hin. apply in_map_iff in Hin. destruct Hin as [r [Heq Hr]].
        assert (Ht : existsb (fun r => String.eqb (l_locus r) (wr_locus wr))
                       (loci db) = true).
        { apply existsb_exists. exists r. split; [exact Hr|].
          apply String.eqb_eq. exact Heq. }
        congruence. }
      match goal with
      | |- match ingest_all ?d rest with _ => _ end =>
          specialize (IH d); set (db1 := d) in *
      end.
      assert (Hl1 : map l_locus (loci db1)
                    = map l_locus (loci db) ++ [wr_locus wr]).
      { unfold db1. cbn [loci]. rewrite map_app. reflexivity. }
      assert (Hnd1 : NoDup (map l_locus (loci db1))).
      { rewrite Hl1. apply NoDup_app; [exact Hnd | repeat constructor; tauto|].
        intros x Hx [Hy|[]]. subst x. contradiction. }
      specialize (IH Hnd1). rewrite Hl1, <- app_assoc in IH.
      cbn [app] in IH. cbn [map].
      destruct (ingest_all db1 rest) as [db'|e]; [|exact IH].
      destruct IH as [H0 [H1 [H2 [H3 H4]]]].
      split; [exact H0|].
      unfold db1 in H1, H2, H3, H4.
      cbn [loci by_taxon by_locus by_locus_missing] in H1, H2, H3, H4.
      rewrite H1, H2, H3, H4, <- !app_assoc.
      cbn [store_of loci by_taxon by_locus by_locus_missing map flat_map app].
      auto.
Qed.

(** X11.  Filling an empty store from the results of the workers
    succeeds exactly when no two results carry the same locus name, and
    then the four tables hold the rows of the results in their order; two
    results of one name make the second [INSERT INTO loci] fail with
    [IntegrityError]. *)
Theorem X11_ingest_all_distinct_loci (wrs : list worker_result) :
  match ingest_all empty_database wrs with
  | Ok db => NoDup (map wr_locus wrs) /\ db = store_of wrs
  | Raise e => e = IntegrityError /\ ~ NoDup (map wr_locus wrs)
  end.
Proof.
  pose proof (@ingest_all_spec wrs empty_database) as H.
  cbn [empty_database loci by_taxon by_locus by_locus_missing map app] in H.
  specialize (H (NoDup_nil _)).
  destruct (ingest_all empty_database wrs) as [db|e]; [|exact H].
  destruct H as [H0 [H1 [H2 [H3 H4]]]]. split; [exact H0|].
  destruct db as [l bt bl blm].
  cbn [loci by_taxon by_locus by_locus_missing] in H1, H2, H3, H4.
  subst. reflexivity.
Qed.

Lemma run_workers_inv (rnd : nat -> nat -> nat)
    (work : list (string * alignment)) :
  forall (i : nat) (wrs : list worker_result),
    run_workers rnd i work = Ok wrs -> Forall2 worker_returned work wrs.
Proof.
  induction work as [|[locus aln] rest IH]; intros i wrs H.
  - simpl in H. inversion H. constructor.
  - cbn [run_workers] in H.
    apply bind_ok_inv in H. destruct H as [wr [Hwr H]].
    apply bind_ok_inv in H. destruct H as [wrs' [Hrest H]].
    inversion H; subst wrs. constructor.
    + exists (rnd i). exact Hwr.
    + apply (IH (S i)). exact Hrest.
Qed.

Lemma worker_returned_locus (work : list (string * alignment))
    (wrs : list worker_result) :
  Forall2 worker_returned work wrs -> map wr_locus wrs = map fst work.
Proof.
  induction 1 as [|item wr t ws [rnd Hwr] _ IH]; [reflexivity|].
  destruct (@worker_inv rnd (fst item) (snd item) wr Hwr)
    as [_ [_ [_ [Hloc _]]]].
  simpl. rewrite Hloc, IH. reflexivity.
Qed.

Lemma worker_returned_in (work : list (string * alignment))
    (wrs : list worker_result) (wr : worker_result) :
  Forall2 worker_returned work wrs -> In wr wrs ->
  exists item, In item work /\ worker_returned item wr.
Proof.
  induction 1 as [|item wr0 t ws Hit _ IH]; intros Hin; [contradiction|].
  destruct Hin as [->|Hin].
  - exists item. split; [left; reflexivity | exact Hit].
  - destruct (IH Hin) as [it [H1 H2]]. exists it. split; [right|]; assumption.
Qed.

(** What [main] has stored when the ingestion ends. *)
Lemma main_store_inv (rnd : nat -> nat -> nat)
    (work : list (string * alignment)) (db : database) :
  main_store rnd work empty_database = Ok db ->
  exists wrs,
    Forall2 worker_returned work wrs
    /\ NoDup (map fst work)
    /\ db = store_of wrs.
Proof.
  unfold main_store. intros H.
  apply bind_ok_inv in H. destruct H as [wrs [Hrun H]].
  apply run_workers_inv in Hrun.
  pose proof (@ingest_all_spec wrs empty_database) as Hs.
  cbn [empty_database loci by_taxon by_locus by_locus_missing map app] in Hs.
  specialize (Hs (NoDup_nil _)).
  change (mkDatabase [] [] [] []) with empty_database in Hs.
  rewrite H in Hs. destruct Hs as [H0 [H1 [H2 [H3 H4]]]].
  exists wrs. split; [exact Hrun|]. split.
  - rewrite <- (@worker_returned_locus work wrs Hrun). exact H0.
  - destruct db as [l bt bl blm].
    cbn [loci by_taxon by_locus by_locus_missing] in H1, H2, H3, H4.
    subst. reflexivity.
Qed.

Lemma by_locus_rows_length (rnd : nat -> nat) (locus : string)
    (aln : alignment) (wr : worker_result) :
  worker rnd locus aln = Ok wr ->
  List.length (by_locus_rows wr) = wr_length wr
  /\ List.length (by_locus_missing_rows wr) = wr_length wr.
Proof.
  intros H.
  destruct (@worker_inv rnd locus aln wr H)
    as [_ [_ [_ [_ [_ [_ [Hbases _]]]]]]].
  unfold by_locus_rows, by_locus_missing_rows.
  rewrite !length_map, Hbases, sorted_seq, length_seq. auto.
Qed.

Lemma length_flat_map_sum (A B : Type) (f : A -> list B) (g : A -> nat)
    (l : list A) :
  (forall x, In x l -> List.length (f x) = g x) ->
  List.length (flat_map f l) = list_sum (map g l).
Proof.
  induction l as [|x t IH]; intros H; [reflexivity|].
  rewrite flat_map_head, length_app, (H x (or_introl eq_refl)).
  rewrite IH by (intros y Hy; apply H; right; exact Hy). reflexivity.
Qed.

(** X12.  When [main] has filled the store, [loci] names the input files
    in their order, each once; every row of the other three tables names
    a locus of [loci], so the foreign keys hold; and [by_locus] and
    [by_locus_missing] have one row per column of every locus. *)
Theorem X12_store_after_main (rnd : nat -> nat -> nat)
    (work : list (string * alignment)) (db : database) :
  main_store rnd work empty_database = Ok db ->
  map l_locus (loci db) = map fst work
  /\ NoDup (map l_locus (loci db))
  /\ Forall (fun r => In (bt_locus r) (map l_locus (loci db))) (by_taxon db)
  /\ Forall (fun r => In (bl_locus r) (map l_locus (loci db))) (by_locus db)
  /\ Forall (fun r => In (blm_locus r) (map l_locus (loci db)))
       (by_locus_missing db)
  /\ List.length (by_locus db) = list_sum (map l_length (loci db))
  /\ List.length (by_locus_missing db) = list_sum (map l_length (loci db)).
Proof.
  intros H. destruct (@main_store_inv rnd work db H) as [wrs [Hret [Hnd ->]]].
  pose proof (@worker_returned_locus work wrs Hret) as Hloc.
  cbn [store_of loci by_taxon by_locus by_locus_missing].
  assert (E1 : map l_locus
                 (map (fun wr => mkLoci (wr_locus wr) (wr_length wr)) wrs)
               = map wr_locus wrs) by (rewrite map_map; reflexivity).
  assert (E2 : map l_length
                 (map (fun wr => mkLoci (wr_locus wr) (wr_length wr)) wrs)
               = map wr_length wrs) by (rewrite map_map; reflexivity).
  rewrite E1, E2.
  split; [exact Hloc|]. split; [rewrite Hloc; exact Hnd|].
  split; [|split; [|split; [|split]]].
  - apply Forall_forall. intros r Hr.
    apply in_flat_map in Hr. destruct Hr as [wr [Hwr Hr]].
    destruct (by_taxon_rows_in _ _ Hr) as [-> _].
    apply in_map. exact Hwr.
  - apply Forall_forall. intros r Hr.
    apply in_flat_map in Hr. destruct Hr as [wr [Hwr Hr]].
    unfold by_locus_rows in Hr. apply in_map_iff in Hr.
    destruct Hr as [pos [<- _]]. cbn [bl_locus]. apply in_map. exact Hwr.
  - apply Forall_forall. intros r Hr.
    apply in_flat_map in Hr. destruct Hr as [wr [Hwr Hr]].
    unfold by_locus_missing_rows in Hr. apply in_map_iff in Hr.
    destruct Hr as [pos [<- _]]. cbn [blm_locus]. apply in_map. exact Hwr.
  - apply length_flat_map_sum. intros wr Hwr.
    destruct (@worker_returned_in work wrs wr Hret Hwr)
      as [item [_ [r Hw]]].
    apply (@by_locus_rows_length r (fst item) (snd item) wr Hw).
  - apply length_flat_map_sum. intros wr Hwr.
    destruct (@worker_returned_in work wrs wr Hret Hwr)
      as [item [_ [r Hw]]].
    apply (@by_locus_rows_length r (fst item) (snd item) wr Hw).
Qed.

Lemma X12_store_after_main_witness :
  exists db,
    main_store (fun _ _ => 0)
      [("uce1"%string, example_alignment); ("uce2"%string, example_missing)]
      empty_database = Ok db
    /\ map l_locus (loci db) = ["uce1"%string; "uce2"%string]
    /\ NoDup (map l_locus (loci db))
    /\ Forall (fun r => In (bt_locus r) (map l_locus (loci db)))
         (by_taxon db)
    /\ Forall (fun r => In (bl_locus r) (map l_locus (loci db)))
         (by_locus db)
    /\ Forall (fun r => In (blm_locus r) (map l_locus (loci db)))
         (by_locus_missing db)
    /\ List.length (by_locus db) = list_sum (map l_length (loci db))
    /\ List.length (by_locus_missing db)
       = list_sum (map l_length (loci db)).
Proof.
  destruct (main_store (fun _ _ => 0)
              [("uce1"%string, example_alignment);
               ("uce2"%string, example_missing)] empty_database)
    as [db|e] eqn:E; [|vm_compute in E; discriminate].
  exists db. split; [reflexivity|].
  apply (@X12_store_after_main (fun _ _ => 0)
           [("uce1"%string, example_alignment);
            ("uce2"%string, example_missing)] db E).
Defined.

(** ** Every column of every taxon is filed *)








(** ** The two series over a store filled by [main] *)

Lemma worker_rows_bounds (rnd : nat -> nat) (locus : string)
    (aln : alignment) (wr : worker_result) :
  worker rnd locus aln = Ok wr ->
  Forall (fun row => bl_substitutions row <= bl_bases row) (by_locus_rows wr)
  /\ (NoDup (map rec_id aln) ->
      Forall (fun row => (0 <= blm_absent row)%Z) (by_locus_missing_rows wr)).
Proof.
  intros H.
  destruct (@worker_inv rnd locus aln wr H)
    as [aln' [_ [Hlen [_ [_ [Hkeys [Hbases [_ Hdone]]]]]]]].
  split.
  - apply Forall_forall. intros row Hrow.
    pose proof (by_locus_row_sum _ _ Hrow) as Hsum.
    unfold by_locus_rows in Hrow. apply in_map_iff in Hrow.
    destruct Hrow as [pos [<- Hpos]].
    rewrite Hbases, sorted_seq in Hpos. apply in_seq in Hpos.
    destruct (Hdone pos ltac:(lia)) as [col [_ [Hb [Hnone Hall]]]].
    cbn [bl_position bl_bases bl_missing bl_majallele bl_substitutions
         bl_deletions bl_insertions] in *.
    rewrite !position_count_recorded in *. unfold bases_at. lia.
  - intros Hnd.
    assert (Hn : List.length (keys (wr_results wr)) = List.length aln).
    { rewrite Hkeys, (@init_maps_keys aln 0 [] []) by exact Hnd.
      simpl. apply length_map. }
    apply Forall_forall. intros row Hrow.
    unfold by_locus_missing_rows in Hrow. apply in_map_iff in Hrow.
    destruct Hrow as [pos [<- Hpos]].
    rewrite Hbases, sorted_seq in Hpos. apply in_seq in Hpos.
    destruct (Hdone pos ltac:(lia)) as [col [Hcol [Hb [Hnone _]]]].
    pose proof (column_length _ _ Hcol) as Hcl.
    cbn [blm_absent]. rewrite Hn. unfold bases_at. lia.
Qed.

(** X13.  Over a store filled by [main], every row of the substitution
    series has a positive sum of substitutions that does not exceed the sum
    of bases, so the division never meets a zero and the frequency is
    never [NULL]: for sums below [2 ^ 53] it is the double nearest to the
    exact quotient (within half a unit of its last place), above 0 and at
    most 1. *)
Theorem X13_substitution_frequency (rnd : nat -> nat -> nat)
    (work : list (string * alignment)) (db : database)
    (ss sb : Z) (q : option double) (d : Z) :
  main_store rnd work empty_database = Ok db ->
  In (ss, sb, q, d) (substitution_series db) ->
  (sb < 2 ^ 53)%Z ->
  (0 < ss <= sb)%Z
  /\ exists (m : positive) (e : Z),
       q = Some (S754_finite false m e)
       /\ (2 ^ 52 <= Zpos m < 2 ^ 53)%Z /\ (e <= 0)%Z
       /\ (- sb <= 2 * Zpos m * sb - ss * 2 ^ (1 - e) <= sb)%Z
       /\ SFltb (S754_zero false) (S754_finite false m e) = true
       /\ SFleb (S754_finite false m e) (SFone 53 1024) = true.
Proof.
  intros H Hin Hbound.
  destruct (@main_store_inv rnd work db H) as [wrs [Hret [_ ->]]].
  apply substitution_series_spec in Hin.
  destruct Hin as [_ [Hss [Hsb [Hq Hnz]]]].
  unfold sum_substitutions, sum_bases in Hss, Hsb.
  cbn [store_of by_locus] in Hss, Hsb.
  assert (Hle : (0 <= ss <= sb)%Z).
  { subst ss sb. split.
    - apply sum_at_nonneg. apply Forall_forall. intros r _. lia.
    - apply sum_at_le. apply Forall_forall. intros r Hr.
      apply in_flat_map in Hr. destruct Hr as [wr [Hwr Hr]].
      destruct (@worker_returned_in work wrs wr Hret Hwr)
        as [item [_ [r0 Hw]]].
      destruct (@worker_rows_bounds r0 (fst item) (snd item) wr Hw)
        as [Hb _].
      rewrite Forall_forall in Hb. specialize (Hb r Hr). lia. }
  split; [lia|].
  destruct (double_div_proportion ss sb ltac:(lia) ltac:(lia) Hbound)
    as [m [e [Heq [Hm [He [Hn [Hone _]]]]]]].
  exists m, e. split.
  { rewrite Hq. unfold sql_div.
    replace (sb =? 0)%Z with false by (symmetry; apply Z.eqb_neq; lia).
    rewrite Heq. reflexivity. }
  repeat split; try assumption; lia.
Qed.

Lemma X13_substitution_frequency_witness :
  (0 < 2 <= 4)%Z
  /\ exists (m : positive) (e : Z),
       Some (S754_finite false 4503599627370496 (-53))
       = Some (S754_finite false m e)
       /\ (2 ^ 52 <= Zpos m < 2 ^ 53)%Z /\ (e <= 0)%Z
       /\ (- 4 <= 2 * Zpos m * 4 - 2 * 2 ^ (1 - e) <= 4)%Z
       /\ SFltb (S754_zero false) (S754_finite false m e) = true
       /\ SFleb (S754_finite false m e) (SFone 53 1024) = true.
Proof.
  apply (@X13_substitution_frequency (fun _ _ => 0) example_work
           example_store 2%Z 4%Z
           (Some (S754_finite false 4503599627370496 (-53))) 0%Z).
  - vm_compute. reflexivity.
  - vm_compute. left. reflexivity.
  - reflexivity.
Defined.

(** X14.  When the records of every alignment have distinct ids, every
    row of the missing-data series over a store filled by [main] has a
    positive sum of [present] and a sum of [absent] that is not negative,
    so the frequency, [absent] over their total, is never [NULL]: for a
    total below [2 ^ 53] it is zero when nothing is absent and otherwise
    the double nearest to the exact quotient, and in both cases at least
    0 and below 1. *)
Theorem X14_missing_frequency (rnd : nat -> nat -> nat)
    (work : list (string * alignment)) (db : database)
    (pres sa : Z) (q : option double) (d : Z) :
  Forall (fun item => NoDup (map rec_id (snd item))) work ->
  main_store rnd work empty_database = Ok db ->
  In (pres, sa, q, d) (missing_series db) ->
  (sa + pres < 2 ^ 53)%Z ->
  (0 < pres)%Z /\ (0 <= sa)%Z
  /\ exists f : double,
       q = Some f
       /\ (sa = 0%Z -> f = S754_zero false)
       /\ ((0 < sa)%Z ->
           exists (m : positive) (e : Z),
             f = S754_finite false m e
             /\ (2 ^ 52 <= Zpos m < 2 ^ 53)%Z /\ (e <= 0)%Z
             /\ (- (sa + pres)
                 <= 2 * Zpos m * (sa + pres) - sa * 2 ^ (1 - e)
                 <= sa + pres)%Z)
       /\ SFleb (S754_zero false) f = true
       /\ SFltb f (SFone 53 1024) = true.
Proof.
  intros Hids H Hin Hbound.
  destruct (@main_store_inv rnd work db H) as [wrs [Hret [_ ->]]].
  apply missing_series_spec in Hin.
  destruct Hin as [_ [Hp [Ha [Hq Hnz]]]].
  unfold sum_present, sum_absent in Hp, Ha.
  cbn [store_of by_locus_missing] in Hp, Ha.
  assert (Hp0 : (0 <= pres)%Z).
  { subst pres. apply sum_at_nonneg. apply Forall_forall. intros r _. lia. }
  assert (Ha0 : (0 <= sa)%Z).
  { subst sa. apply sum_at_nonneg. apply Forall_forall. intros r Hr.
    apply in_flat_map in Hr. destruct Hr as [wr [Hwr Hr]].
    destruct (@worker_returned_in work wrs wr Hret Hwr)
      as [item [Hitem [r0 Hw]]].
    destruct (@worker_rows_bounds r0 (fst item) (snd item) wr Hw)
      as [_ Hb].
    rewrite Forall_forall in Hids. specialize (Hb (Hids item Hitem)).
    rewrite Forall_forall in Hb. apply Hb, Hr. }
  split; [lia|]. split; [exact Ha0|].
  rewrite Hq. unfold sql_div.
  replace (sa + pres =? 0)%Z with false by (symmetry; apply Z.eqb_neq; lia).
  eexists. split; [reflexivity|].
  destruct (Z.eq_dec sa 0) as [Hz|Hz].
  - rewrite Hz. cbn [Z.add].
    destruct pres as [|p|p]; try lia.
    destruct (double_of_pos p ltac:(lia)) as [A [ea [-> _]]].
    repeat split; try reflexivity. intros Hlt. lia.
  - destruct (double_div_proportion sa (sa + pres) ltac:(lia) ltac:(lia)
                Hbound)
      as [m [e [Heq [Hm [He [Hn [_ Hlt]]]]]]].
    rewrite Heq. split; [intros; lia|]. split.
    + intros _. exists m, e. repeat split; try assumption; lia.
    + split; [reflexivity|]. apply Hlt. lia.
Qed.

Lemma X14_missing_frequency_witness :
  (0 < 4)%Z /\ (0 <= 1)%Z
  /\ exists f : double,
       Some (S754_finite false 7205759403792794 (-55)) = Some f
       /\ (1%Z = 0%Z -> f = S754_zero false)
       /\ ((0 < 1)%Z ->
           exists (m : positive) (e : Z),
             f = S754_finite false m e
             /\ (2 ^ 52 <= Zpos m < 2 ^ 53)%Z /\ (e <= 0)%Z
             /\ (- (1 + 4) <= 2 * Zpos m * (1 + 4) - 1 * 2 ^ (1 - e)
                 <= 1 + 4)%Z)
       /\ SFleb (S754_zero false) f = true
       /\ SFltb f (SFone 53 1024) = true.
Proof.
  apply (@X14_missing_frequency (fun _ _ => 0) example_work example_store
           4%Z 1%Z (Some (S754_finite false 7205759403792794 (-55))) 0%Z).
  - repeat constructor; simpl; intuition discriminate.
  - vm_compute. reflexivity.
  - vm_compute. do 2 right. left. reflexivity.
  - reflexivity.
Defined.

(** ** Opening the store: the other cases *)

Lemma has_table_app (name : string) (f g : list table) :
  has_table name (f ++ g) = has_table name f || has_table name g.
Proof. unfold has_table. apply existsb_app. Qed.

Lemma create_tables_fresh (names : list string) :
  forall f : list table,
    NoDup names ->
    Forall (fun n => has_table n f = false) names ->
    create_tables names f = (f ++ map (fun n => (n, [])) names, Ok tt).
Proof.
  induction names as [|n rest IH]; intros f Hnd Habs.
  - simpl. rewrite app_nil_r. reflexivity.
  - inversion Hnd as [|? ? Hnotin Hnd']; subst.
    inversion Habs as [|? ? Hn Hrest]; subst.
    cbn [create_tables]. unfold create_table. rewrite Hn.
    rewrite IH; [cbn [map]; rewrite <- app_assoc; reflexivity | exact Hnd'|].
    apply Forall_forall. intros m Hm.
    rewrite Forall_forall in Hrest.
    rewrite has_table_app, (Hrest m Hm). simpl.
    rewrite orb_false_r. apply String.eqb_neq. intros ->. contradiction.
Qed.

Lemma create_tables_stop (pre : list string) (t : string)
    (post : list string) :
  forall f : list table,
    NoDup pre ->
    Forall (fun n => has_table n f = false) pre ->
    has_table t f = true ->
    create_tables (pre ++ t :: post) f
    = (f ++ map (fun n => (n, [])) pre,
       Raise (OperationalError ("table " ++ t ++ " already exists"))).
Proof.
  induction pre as [|n rest IH]; intros f Hnd Habs Ht.
  - cbn [app create_tables map]. unfold create_table. rewrite Ht.
    rewrite app_nil_r. reflexivity.
  - inversion Hnd as [|? ? Hnotin Hnd']; subst.
    inversion Habs as [|? ? Hn Hrest]; subst.
    cbn [app create_tables]. unfold create_table at 1. rewrite Hn.
    rewrite IH; [cbn [map]; rewrite <- app_assoc; reflexivity | exact Hnd'| |].
    + apply Forall_forall. intros m Hm.
      rewrite Forall_forall in Hrest.
      rewrite has_table_app, (Hrest m Hm). simpl.
      rewrite orb_false_r. apply String.eqb_neq. intros ->. contradiction.
    + rewrite has_table_app, Ht. reflexivity.
Qed.

(** X15.  Where the path holds no file, or a file with none of the four
    tables, [create_differences_database] creates the four tables, empty,
    after whatever the file holds, asks nothing and returns the
    connection. *)
Theorem X15_store_created (fuel : nat) (d : disk) (answers : list string)
    (f : list table) :
  f = match d with Some f => f | None => [] end ->
  Forall (fun n => has_table n f = false) schema ->
  create_differences_database (S fuel) d answers
  = Some (Some (f ++ fresh_store), answers, Ok tt).
Proof.
  intros Hf Habs. cbn [create_differences_database]. rewrite <- Hf.
  rewrite (@create_tables_fresh schema f); [reflexivity | | exact Habs].
  unfold schema. repeat constructor; simpl; intuition discriminate.
Qed.

Lemma X15_store_created_witness :
  create_differences_database 1 (Some [("notes"%string, ["kept"%string])])
    ["Y"%string]
  = Some (Some ([("notes"%string, ["kept"%string])] ++ fresh_store),
          ["Y"%string], Ok tt).
Proof.
  apply (@X15_store_created 0 (Some [("notes"%string, ["kept"%string])])
           ["Y"%string] [("notes"%string, ["kept"%string])]).
  - reflexivity.
  - repeat constructor.
Defined.

(** X16.  A file that lacks the table [loci] but holds another of the
    four tables: the tables ahead of the first one present are created,
    then the [OperationalError] of that table is raised again; nothing is
    asked and the file stays. *)
Theorem X16_store_half_created (fuel : nat) (f : list table)
    (answers : list string) (pre : list string) (t : string)
    (post : list string) :
  schema = pre ++ t :: post ->
  pre <> [] ->
  Forall (fun n => has_table n f = false) pre ->
  has_table t f = true ->
  create_differences_database (S fuel) (Some f) answers
  = Some (Some (f ++ map (fun n => (n, [])) pre), answers,
          Raise (OperationalError ("table " ++ t ++ " already exists"))).
Proof.
  intros Hs Hpre Habs Ht. cbn [create_differences_database].
  assert (Hnd : NoDup pre).
  { assert (Hall : NoDup schema)
      by (unfold schema; repeat constructor; simpl; intuition discriminate).
    rewrite Hs in Hall. apply NoDup_app_remove_r in Hall. exact Hall. }
  rewrite Hs, (@create_tables_stop pre t post f Hnd Habs Ht).
  replace (String.eqb ("table " ++ t ++ " already exists")
             "table loci already exists") with false; [reflexivity|].
  unfold schema in Hs.
  destruct pre as [|p0 pre]; [congruence|].
  injection Hs as _ Hs.
  destruct pre as [|p1 pre]; [injection Hs as <- _; reflexivity|].
  injection Hs as _ Hs.
  destruct pre as [|p2 pre]; [injection Hs as <- _; reflexivity|].
  injection Hs as _ Hs.
  destruct pre as [|p3 pre]; [injection Hs as <- _; reflexivity|].
  injection Hs as _ Hs. destruct pre; discriminate.
Qed.

Lemma X16_store_half_created_witness :
  create_differences_database 1
    (Some [("by_locus"%string, ["row"%string])]) ["Y"%string]
  = Some (Some ([("by_locus"%string, ["row"%string])]
                ++ [("loci"%string, []); ("by_taxon"%string, [])]),
          ["Y"%string],
          Raise (OperationalError "table by_locus already exists")).
Proof.
  apply (@X16_store_half_created 0 [("by_locus"%string, ["row"%string])]
           ["Y"%string] ["loci"%string; "by_taxon"%string] "by_locus"%string
           ["by_locus_missing"%string]).
  - reflexivity.
  - discriminate.
  - repeat constructor.
  - reflexivity.
Defined.

(** X17.  [create_differences_database] calls itself at most once: the
    second call finds no file and creates the store.  So it always
    returns or raises, and a bound of two calls gives what any larger
    bound gives.  With the table [loci] there and nothing to read at the
    prompt it raises [EOFError] and the file is left as it was. *)
Theorem X17_one_nested_call (fuel : nat) (d : disk) (answers : list string) :
  create_differences_database (S (S fuel)) d answers
  = create_differences_database 2 d answers
  /\ (exists o, create_differences_database 2 d answers = Some o)
  /\ (forall f, d = Some f -> has_table "loci" f = true -> answers = [] ->
        create_differences_database 2 d answers
        = Some (Some f, [], Raise EOFError)).
Proof.
  split; [|split].
  - cbn [create_differences_database].
    destruct (create_tables schema match d with Some f => f | None => [] end)
      as [f' [[]|e]]; [reflexivity|].
    destruct e; reflexivity.
  - cbn [create_differences_database].
    destruct (create_tables schema match d with Some f => f | None => [] end)
      as [f' [[]|e]]; [eexists; reflexivity|].
    destruct e; try (eexists; reflexivity).
    destruct (String.eqb message "table loci already exists");
      [|eexists; reflexivity].
    destruct answers as [|answer answers']; [eexists; reflexivity|].
    destruct (truthy (py_or (PyBool (String.eqb answer "Y")) (PyStr "YES")));
      eexists; reflexivity.
  - intros f -> Hl ->. cbn [create_differences_database].
    unfold schema at 1. cbn [create_tables]. unfold create_table at 1.
    rewrite Hl. reflexivity.
Qed.

Lemma X17_one_nested_call_witness :
  create_differences_database 2 (Some existing_store) []
  = Some (Some existing_store, [], Raise EOFError).
Proof.
  apply (proj2 (proj2 (@X17_one_nested_call 0 (Some existing_store) []))
           existing_store).
  - reflexivity.
  - reflexivity.
  - reflexivity.
Defined.

(** ** What [add_gaps_to_align] returns, and when it raises *)

Lemma list_remove_perm (x : string) (l : list string) :
  forall l', list_remove x l = Ok l' -> Permutation l (x :: l').
Proof.
  induction l as [|y t IH]; intros l' H; [discriminate|].
  cbn [list_remove] in H. destruct (String.eqb x y) eqn:E.
  - apply String.eqb_eq in E. inversion H; subst. apply Permutation_refl.
  - apply bind_ok_inv in H. destruct H as [t' [Ht H]]. inversion H; subst.
    apply perm_trans with (y :: x :: t'); [|apply perm_swap].
    apply perm_skip. apply IH. exact Ht.
Qed.

Lemma remove_all_perm (names : list string) :
  forall organisms left,
    remove_all names organisms = Ok left ->
    Permutation organisms (names ++ left).
Proof.
  induction names as [|n t IH]; intros organisms left H.
  - inversion H; subst. apply Permutation_refl.
  - cbn [remove_all] in H. apply bind_ok_inv in H.
    destruct H as [l1 [Hl1 H]].
    apply perm_trans with (n :: l1); [apply list_remove_perm; exact Hl1|].
    cbn [app]. apply perm_skip. apply IH. exact H.
Qed.

Lemma list_remove_raises (x : string) (l : list string) :
  forall e, list_remove x l = Raise e -> e = ValueError /\ ~ In x l.
Proof.
  induction l as [|y t IH]; intros e H.
  - inversion H. split; [reflexivity | tauto].
  - cbn [list_remove] in H. destruct (String.eqb x y) eqn:E; [discriminate|].
    destruct (list_remove x t) as [t'|e'] eqn:Ht; [discriminate|].
    cbn [bind] in H. inversion H; subst e'.
    destruct (IH e eq_refl) as [He Hnotin]. split; [exact He|].
    apply String.eqb_neq in E. intros [Hy|Hin]; [congruence | tauto].
Qed.

Lemma rename_loop_inv (verbatim : bool) (aln : alignment) :
  forall (new_align : alignment) (lo : option (list string))
         (last : option string) (new_align' : alignment)
         (lo' : option (list string)) (last' : option string),
    rename_loop verbatim aln new_align lo last
    = Ok (new_align', lo', last') ->
    new_align' = new_align ++ map (renamed verbatim) aln
    /\ last' = last_name aln last
    /\ (rectangular new_align -> rectangular new_align')
    /\ match lo with
       | Some orgs =>
           exists left,
             lo' = Some left
             /\ remove_all
                  (map (fun r => new_seq_name verbatim
                                   (strip_reversal (rec_name r))) aln)
                  orgs = Ok left
       | None => aln = [] /\ lo' = None
       end.
Proof.
  induction aln as [|r t IH];
    intros new_align lo last new_align' lo' last' H.
  - simpl in H. inversion H; subst. rewrite app_nil_r.
    repeat split; [auto|]. destruct lo' as [orgs|]; [|auto].
    exists orgs. auto.
  - cbn [rename_loop] in H.
    apply bind_ok_inv in H. destruct H as [a1 [Happ H]].
    destruct lo as [orgs|]; [|discriminate].
    apply bind_ok_inv in H. destruct H as [l1 [Hl1 H]].
    destruct (IH _ _ _ _ _ _ H) as [H1 [H2 [H3 [left [H4 H5]]]]].
    destruct (aln_append_ok _ _ Happ) as [-> _].
    split; [rewrite H1, <- app_assoc; reflexivity|].
    split; [exact H2|]. split.
    + intros Hrect. apply H3.
      apply (@rectangular_append new_align _ _ Hrect Happ).
    + exists left. split; [exact H4|].
      cbn [map remove_all]. rewrite Hl1. cbn [bind]. exact H5.
Qed.

Lemma pad_loop_inv (verbatim : bool) (missing : missing_t) (L : nat)
    (last : option string) (orgs : list string) :
  forall new_align new_align' : alignment,
    pad_loop verbatim missing L last orgs new_align = Ok new_align' ->
    new_align' = new_align ++ map (padding L) orgs
    /\ (rectangular new_align -> rectangular new_align')
    /\ (orgs <> [] ->
        exists name,
          last = Some name
          /\ Forall (fun org =>
                       check_missing missing (locus_of verbatim name) org
                       = Ok tt) orgs).
Proof.
  induction orgs as [|org t IH]; intros new_align new_align' H.
  - simpl in H. inversion H; subst. rewrite app_nil_r.
    repeat split; [auto | congruence].
  - cbn [pad_loop] in H. destruct last as [name|]; [|discriminate].
    apply bind_ok_inv in H. destruct H as [[] [Hchk H]].
    apply bind_ok_inv in H. destruct H as [a1 [Happ H]].
    destruct (IH _ _ H) as [H1 [H2 H3]].
    destruct (aln_append_ok _ _ Happ) as [-> _].
    split; [rewrite H1, <- app_assoc; reflexivity|]. split.
    + intros Hrect. apply H2.
      apply (@rectangular_append new_align _ _ Hrect Happ).
    + intros _. exists name. split; [reflexivity|].
      constructor; [exact Hchk|].
      destruct t as [|o t']; [constructor|].
      destruct (H3 ltac:(discriminate)) as [name' [Heq Hall]].
      inversion Heq; subst name'. exact Hall.
Qed.

Lemma get_alignment_length_renamed (verbatim : bool) (aln : alignment)
    (rest : alignment) :
  aln <> [] ->
  get_alignment_length (map (renamed verbatim) aln ++ rest)
  = get_alignment_length aln.
Proof. destruct aln as [|r t]; [congruence | reflexivity]. Qed.

Lemma add_gaps_inv (aln new_align : alignment)
    (organisms : option (list string)) (missing : missing_t)
    (verbatim : bool) (min_taxa : Z) :
  add_gaps_to_align aln organisms missing verbatim min_taxa
  = Ok (Some new_align) ->
  exists orgs left,
    organisms = Some orgs
    /\ aln <> []
    /\ (min_taxa <= Z.of_nat (List.length aln))%Z
    /\ remove_all
         (map (fun r => new_seq_name verbatim (strip_reversal (rec_name r)))
            aln) orgs = Ok left
    /\ new_align
       = map (renamed verbatim) aln
         ++ map (padding (get_alignment_length aln)) left
    /\ rectangular new_align.
Proof.
  unfold add_gaps_to_align. intros H.
  destruct (Z.ltb_spec (Z.of_nat (List.length aln)) min_taxa) as [Hlt|Hge];
    [discriminate|].
  destruct (Z.of_nat (List.length aln) >=? min_taxa)%Z; [|discriminate].
  destruct aln as [|first rest]; [discriminate|].
  apply bind_ok_inv in H. destruct H as [[[a1 lo] last] [Hloop H]].
  destruct lo as [left|]; [|discriminate].
  apply bind_ok_inv in H. destruct H as [a2 [Hpad H]].
  inversion H; subst a2.
  destruct (rename_loop_inv _ _ _ _ _ Hloop) as [H1 [_ [H3 H4]]].
  destruct organisms as [orgs|]; [|destruct H4; discriminate].
  destruct H4 as [left' [Heq Hrm]]. inversion Heq; subst left'.
  destruct (pad_loop_inv _ _ _ _ _ _ Hpad) as [H5 [H6 _]].
  exists orgs, left. split; [reflexivity|]. split; [discriminate|].
  split; [exact Hge|]. split; [exact Hrm|]. split.
  - rewrite H5, H1. reflexivity.
  - apply H6, H3. constructor.
Qed.

(** X18.  Whenever [add_gaps_to_align] returns an alignment, it holds the
    input records renamed, in their order and with their sequences, then
    one record of question marks for each organism left; its records are
    the organisms of the configuration, each as often as listed; every
    record has the length of the first input sequence; and the input was
    of one length throughout. *)
Theorem X18_padded_alignment (aln new_align : alignment)
    (organisms : option (list string)) (missing : missing_t)
    (verbatim : bool) (min_taxa : Z) :
  add_gaps_to_align aln organisms missing verbatim min_taxa
  = Ok (Some new_align) ->
  exists orgs left,
    organisms = Some orgs
    /\ new_align
       = map (renamed verbatim) aln
         ++ map (padding (get_alignment_length aln)) left
    /\ map rec_seq (firstn (List.length aln) new_align) = map rec_seq aln
    /\ Permutation (map rec_id new_align) orgs
    /\ List.length new_align = List.length orgs
    /\ Forall (fun r => List.length (rec_seq r) = get_alignment_length aln)
         new_align
    /\ rectangular aln.
Proof.
  intros H.
  destruct (add_gaps_inv _ _ _ _ _ H)
    as [orgs [left [Ho [Hne [_ [Hrm [Hnew Hrect]]]]]]].
  exists orgs, left. split; [exact Ho|]. split; [exact Hnew|].
  assert (Hids : map rec_id new_align
                 = map (fun r => new_seq_name verbatim
                                   (strip_reversal (rec_name r))) aln
                   ++ left).
  { rewrite Hnew, map_app, !map_map. cbn [renamed padding record_formatter
      rec_id]. rewrite map_id. reflexivity. }
  assert (Hlen : get_alignment_length new_align = get_alignment_length aln).
  { rewrite Hnew. apply get_alignment_length_renamed. exact Hne. }
  unfold rectangular in Hrect. rewrite Hlen in Hrect.
  split.
  { rewrite Hnew.
    rewrite <- (length_map (renamed verbatim) aln) at 1.
    rewrite firstn_app, Nat.sub_diag, firstn_all. cbn [firstn].
    rewrite app_nil_r, map_map. reflexivity. }
  split.
  { rewrite Hids. apply Permutation_sym, remove_all_perm. exact Hrm. }
  split.
  { rewrite <- (length_map rec_id new_align), Hids.
    symmetry. rewrite <- (length_map (fun x => x) orgs), map_id.
    apply Permutation_length, remove_all_perm. exact Hrm. }
  split; [exact Hrect|].
  unfold rectangular. rewrite Hnew in Hrect.
  apply Forall_app in Hrect. destruct Hrect as [Hr _].
  rewrite Forall_map in Hr. exact Hr.
Qed.

Lemma X18_padded_alignment_witness :
  exists orgs left,
    Some example_organisms = Some orgs
    /\ mk_aln [("a", "AC"); ("b", "AG"); ("c", "A-"); ("d", "??")]%string
       = map (renamed false) example_incomplete
         ++ map (padding (get_alignment_length example_incomplete)) left
    /\ map rec_seq
         (firstn (List.length example_incomplete)
            (mk_aln [("a", "AC"); ("b", "AG"); ("c", "A-");
                     ("d", "??")]%string))
       = map rec_seq example_incomplete
    /\ Permutation
         (map rec_id
            (mk_aln [("a", "AC"); ("b", "AG"); ("c", "A-");
                     ("d", "??")]%string)) orgs
    /\ List.length
         (mk_aln [("a", "AC"); ("b", "AG"); ("c", "A-"); ("d", "??")]%string)
       = List.length orgs
    /\ Forall (fun r => List.length (rec_seq r)
                        = get_alignment_length example_incomplete)
         (mk_aln [("a", "AC"); ("b", "AG"); ("c", "A-"); ("d", "??")]%string)
    /\ rectangular example_incomplete.
Proof.
  apply (@X18_padded_alignment example_incomplete
           (mk_aln [("a", "AC"); ("b", "AG"); ("c", "A-"); ("d", "??")]%string)
           (Some example_organisms) example_table false 3%Z).
  reflexivity.
Defined.

Lemma rename_loop_raises (verbatim : bool) (aln : alignment) :
  forall (new_align : alignment) (orgs : list string)
         (last : option string) (e : exn),
    rename_loop verbatim aln new_align (Some orgs) last = Raise e ->
    e = ValueError.
Proof.
  induction aln as [|r t IH]; intros new_align orgs last e H;
    [discriminate|].
  cbn [rename_loop] in H.
  destruct (aln_append new_align
              (record_formatter (rec_seq r)
                 (new_seq_name verbatim (strip_reversal (rec_name r)))))
    as [a1|e1] eqn:Happ.
  - cbn [bind] in H.
    destruct (list_remove
                (new_seq_name verbatim (strip_reversal (rec_name r))) orgs)
      as [l1|e2] eqn:Hrm.
    + cbn [bind] in H. apply (IH _ _ _ _ H).
    + cbn [bind] in H. inversion H; subst e2.
      apply (list_remove_raises _ _ Hrm).
  - cbn [bind] in H. inversion H; subst e1.
    unfold aln_append in Happ. destruct new_align as [|r0 t0]; [discriminate|].
    destruct (_ =? _); [discriminate|]. inversion Happ. reflexivity.
Qed.

(** X19.  A record whose new name is not among the organisms of the
    configuration stops [add_gaps_to_align] with the [ValueError] of
    [list.remove], whenever the alignment is not dropped for its size. *)
Theorem X19_unknown_taxon (aln : alignment) (orgs : list string)
    (missing : missing_t) (verbatim : bool) (min_taxa : Z) (r : SeqRecord) :
  (min_taxa <= Z.of_nat (List.length aln))%Z ->
  In r aln ->
  ~ In (new_seq_name verbatim (strip_reversal (rec_name r))) orgs ->
  add_gaps_to_align aln (Some orgs) missing verbatim min_taxa
  = Raise ValueError.
Proof.
  intros Hmin Hin Hnot. unfold add_gaps_to_align.
  replace (Z.of_nat (List.length aln) <? min_taxa)%Z with false
    by (symmetry; apply Z.ltb_ge; lia).
  replace (Z.of_nat (List.length aln) >=? min_taxa)%Z with true
    by (symmetry; apply Z.geb_le; lia).
  destruct aln as [|first rest]; [contradiction|].
  destruct (rename_loop verbatim (first :: rest) [] (Some orgs) None)
    as [[[a1 lo] last]|e] eqn:Hloop.
  - exfalso.
    destruct (rename_loop_inv _ _ _ _ _ Hloop) as [_ [_ [_ [left [_ Hrm]]]]].
    apply remove_all_perm in Hrm. apply Hnot.
    apply (Permutation_in _ (Permutation_sym Hrm)).
    apply in_or_app. left.
    apply (in_map (fun r => new_seq_name verbatim
                              (strip_reversal (rec_name r)))). exact Hin.
  - cbn [bind]. rewrite (@rename_loop_raises verbatim (first :: rest) [] orgs None e Hloop). reflexivity.
Qed.

Lemma X19_unknown_taxon_witness :
  add_gaps_to_align example_incomplete (Some ["a"; "b"; "d"]%string)
    example_table false 3
  = Raise ValueError.
Proof.
  apply (@X19_unknown_taxon example_incomplete ["a"; "b"; "d"]%string
           example_table false 3%Z
           (mkSeqRecord (seq_of "A-") "_R_uce1_c" "_R_uce1_c" "_R_uce1_c")).
  - vm_compute. discriminate.
  - simpl. auto.
  - simpl. intuition discriminate.
Defined.

Lemma add_designators_no_organisms (file : string) (aln : alignment)
    (missing : missing_t) (verbatim : bool) (min_taxa : Z)
    (output : string) :
  (0 < min_taxa)%Z ->
  add_designators file aln None missing verbatim min_taxa output
  = if too_few min_taxa (file, aln) then Ok (Some file, [])
    else Raise AttributeError.
Proof.
  intros Hmin. unfold add_designators, add_gaps_to_align, too_few.
  cbn [snd].
  destruct (Z.ltb_spec (Z.of_nat (List.length aln)) min_taxa) as [Hlt|Hge];
    [reflexivity|].
  replace (Z.of_nat (List.length aln) >=? min_taxa)%Z with true
    by (symmetry; apply Z.geb_le; lia).
  destruct aln as [|first rest]; [simpl in Hge; lia|].
  reflexivity.
Qed.

(** X20.  A configuration without the section [Organisms]: [main] writes
    no file.  It reports every file as dropped when each has fewer than
    [min_taxa] records, and otherwise fails with [AttributeError] at the
    first alignment that is large enough. *)
Theorem X20_no_organisms_section (config : config_t)
    (incomplete : option config_t) (work : list (string * alignment))
    (verbatim : bool) (min_taxa : Z) (output : string) :
  dict_get String.eqb "Organisms"%string config = None ->
  (0 < min_taxa)%Z ->
  DesignatorsMain.main config incomplete work verbatim min_taxa output
  = if forallb (too_few min_taxa) work then Ok (map fst work, [])
    else Raise AttributeError.
Proof.
  intros Hsec Hmin. unfold DesignatorsMain.main, get_names_from_config.
  rewrite Hsec.
  generalize (match incomplete with
              | Some conf => Some (get_missing_loci_from_conf_file conf)
              | None => None
              end). intros missing.
  assert (Hrun :
    run_designators work None missing verbatim min_taxa output
    = if forallb (too_few min_taxa) work
      then Ok (map (fun item => Some (fst item)) work, [])
      else Raise AttributeError).
  { induction work as [|[file aln] rest IH]; [reflexivity|].
    cbn [run_designators forallb map fst].
    rewrite (@add_designators_no_organisms file aln missing verbatim min_taxa output Hmin).
    destruct (too_few min_taxa (file, aln)); [|reflexivity].
    cbn [bind andb]. rewrite IH.
    destruct (forallb (too_few min_taxa) rest); reflexivity. }
  rewrite Hrun. destruct (forallb (too_few min_taxa) work); [|reflexivity].
  cbn [bind fst snd]. f_equal. f_equal.
  clear. induction work as [|item rest IH]; [reflexivity|].
  cbn [map dropped]. rewrite IH. reflexivity.
Qed.

Lemma X20_no_organisms_section_witness :
  DesignatorsMain.main [("Loci"%string, [])] None
    [("a.nex"%string, mk_aln [("uce1_a", "AC")]%string);
     ("b.nex"%string, example_incomplete)] false 3 "out"
  = Raise AttributeError.
Proof.
  apply (@X20_no_organisms_section [("Loci"%string, [])] None
           [("a.nex"%string, mk_aln [("uce1_a", "AC")]%string);
            ("b.nex"%string, example_incomplete)] false 3%Z "out"%string).
  - reflexivity.
  - reflexivity.
Defined.

(** ** Names *)

Lemma split_shape (sep : ascii) (s : string) :
  exists w ws,
    split sep s = w :: ws
    /\ has_char sep w = false
    /\ join (String sep EmptyString) (w :: ws) = s
    /\ (has_char sep s = false -> ws = [])
    /\ (has_char sep s = true -> ws <> []).
Proof.
  induction s as [|c rest IH].
  - exists EmptyString, []. simpl. repeat split; auto; discriminate.
  - destruct IH as [w [ws [Hs [Hw [Hj [Hf Ht]]]]]].
    cbn [split has_char]. destruct (Ascii.eqb c sep) eqn:E.
    + apply Ascii.eqb_eq in E. subst c.
      exists EmptyString, (w :: ws). rewrite Hs.
      split; [reflexivity|]. split; [reflexivity|]. split.
      { change (String sep (join (String sep EmptyString) (w :: ws))
                = String sep rest).
        rewrite Hj. reflexivity. }
      split; [discriminate | intros _; discriminate].
    + exists (String c w), ws. rewrite Hs.
      split; [reflexivity|]. split.
      { cbn [has_char]. rewrite E, Hw. reflexivity. }
      split.
      { destruct ws as [|w1 ws'].
        - change (String c (join (String sep EmptyString) [w])
                  = String c rest).
          rewrite Hj. reflexivity.
        - change (String c (join (String sep EmptyString) (w :: w1 :: ws'))
                  = String c rest).
          rewrite Hj. reflexivity. }
      cbn [orb]. auto.
Qed.

(** X21.  The names [add_gaps_to_align] takes from a record name when
    [verbatim] is off: the locus is what stands before the first
    underscore and holds none, the new name is what stands after it, and
    the two with an underscore between them give the name back; a name
    without underscore is a locus with an empty new name.  Joining what
    [split] gives restores the name. *)
Theorem X21_locus_and_taxon (name : string) :
  has_char "_" (locus_of false name) = false
  /\ (if has_char "_" name
      then name = (locus_of false name ++ "_" ++ new_seq_name false name)%string
      else locus_of false name = name
           /\ new_seq_name false name = EmptyString)
  /\ join "_" (split "_" name) = name.
Proof.
  unfold locus_of, new_seq_name. cbn [negb].
  destruct (split_shape "_" name) as [w [ws [Hs [Hw [Hj [Hf Ht]]]]]].
  rewrite Hs. cbn [firstn tl]. change (join "_" [w]) with w.
  split; [exact Hw|]. split; [|exact Hj].
  destruct (has_char "_" name).
  - destruct ws as [|w1 ws']; [exfalso; apply (Ht eq_refl); reflexivity|].
    rewrite <- Hj. reflexivity.
  - rewrite (Hf eq_refl) in *. split; [exact Hj | reflexivity].
Qed.

Lemma lstrip_spec (chars : list ascii) (s : string) :
  exists p,
    s = (p ++ lstrip chars s)%string
    /\ all_in chars p = true
    /\ (forall c rest, lstrip chars s = String c rest ->
          char_in c chars = false)
    /\ lstrip chars (lstrip chars s) = lstrip chars s.
Proof.
  induction s as [|c rest IH].
  - exists EmptyString. simpl. repeat split. discriminate.
  - cbn [lstrip]. destruct (char_in c chars) eqn:E.
    + destruct IH as [p [H1 [H2 [H3 H4]]]].
      exists (String c p). cbn [append all_in]. rewrite <- H1, E, H2.
      repeat split; assumption.
    + exists EmptyString. cbn [append all_in lstrip]. rewrite E.
      repeat split. intros c' rest' H. inversion H; subst. exact E.
Qed.

(** X22.  [seq.name.lstrip('_R_')] takes away every leading underscore
    and capital [R], not the prefix [_R_] alone: the name is a run of
    these two characters followed by what is kept, what is kept begins
    with neither, and stripping again changes nothing. *)
Theorem X22_strip_reversal (name : string) :
  exists p,
    name = (p ++ strip_reversal name)%string
    /\ all_in ["_"; "R"]%char p = true
    /\ (forall c rest, strip_reversal name = String c rest ->
          c <> "_"%char /\ c <> "R"%char)
    /\ strip_reversal (strip_reversal name) = strip_reversal name.
Proof.
  unfold strip_reversal.
  destruct (lstrip_spec ["_"; "R"; "_"]%char name) as [p [H1 [H2 [H3 H4]]]].
  exists p. split; [exact H1|]. split.
  - clear -H2. induction p as [|c t IH]; [reflexivity|].
    cbn [all_in] in *. apply andb_prop in H2. destruct H2 as [Hc Ht].
    rewrite (IH Ht), andb_true_r.
    unfold char_in in *. cbn [existsb] in *.
    destruct (Ascii.eqb c "_"); [reflexivity|].
    destruct (Ascii.eqb c "R"); [reflexivity | exact Hc].
  - split; [|exact H4].
    intros c rest Hc. specialize (H3 c rest Hc).
    unfold char_in in H3. cbn [existsb] in H3.
    split; intros ->; discriminate.
Qed.

Lemma X22_strip_reversal_witness :
  "u"%char <> "_"%char /\ "u"%char <> "R"%char.
Proof.
  destruct (X22_strip_reversal "_R_uce1_c") as [p [_ [_ [H _]]]].
  apply (H "u"%char "ce1_c"%string). reflexivity.
Defined.

(** ** Padding: every case of [add_gaps_to_align] *)

Lemma check_missing_listed (missing : missing_t) (loc org : string) :
  check_missing missing loc org
  = if listed_as_missing missing loc org then Ok tt
    else Raise AssertionError.
Proof.
  unfold check_missing, listed_as_missing.
  destruct missing as [[|e m]|]; try reflexivity.
  destruct (str_in loc (missing_get (e :: m) org)); [reflexivity|].
  destruct (str_in loc (missing_get (e :: m) (org ++ "*"))); reflexivity.
Qed.

Lemma pad_loop_raises (verbatim : bool) (missing : missing_t) (L : nat)
    (name : string) (orgs : list string) :
  forall new_align : alignment,
    new_align <> [] -> get_alignment_length new_align = L ->
    Exists (fun org => listed_as_missing missing (locus_of verbatim name) org
                       = false) orgs ->
    pad_loop verbatim missing L (Some name) orgs new_align
    = Raise AssertionError.
Proof.
  induction orgs as [|org t IH]; intros new_align Hne Hlen Hex.
  - inversion Hex.
  - subst L. cbn [pad_loop]. rewrite check_missing_listed.
    destruct (listed_as_missing missing (locus_of verbatim name) org) eqn:E;
      [|reflexivity].
    cbn [bind].
    destruct (@aln_append_same_length new_align
                (padding (get_alignment_length new_align) org)
                (get_alignment_length new_align) (or_intror eq_refl))
      as [Happ [Hne' Hlen']].
    { unfold padding, record_formatter, missing_string. simpl.
      apply repeat_length. }
    unfold padding in Happ at 1. rewrite Happ. cbn [bind].
    apply IH; [exact Hne' | exact Hlen'|].
    apply Exists_cons in Hex. destruct Hex as [H|H]; [congruence | exact H].
Qed.

Lemma rename_loop_fails (verbatim : bool) (aln : alignment)
    (orgs : list string) (e : exn) :
  remove_all
    (map (fun r => new_seq_name verbatim (strip_reversal (rec_name r))) aln)
    orgs = Raise e ->
  rename_loop verbatim aln [] (Some orgs) None = Raise ValueError.
Proof.
  intros Hrm.
  destruct (rename_loop verbatim aln [] (Some orgs) None)
    as [[[a1 lo] last]|e'] eqn:Hloop.
  - destruct (@rename_loop_inv verbatim aln [] (Some orgs) None a1 lo last
                Hloop) as [_ [_ [_ [left [_ Hok]]]]].
    congruence.
  - rewrite (@rename_loop_raises verbatim aln [] orgs None e' Hloop).
    reflexivity.
Qed.

(** C10.  [add_gaps_to_align] returns [None] exactly when the alignment
    has fewer than [min_taxa] records.  On an alignment of one length
    with at least [min_taxa] records, the renamed input names are removed
    in turn from the list of organisms.  When a name cannot be removed,
    as when a record's new name is not among the organisms, the function
    raises [ValueError].  When all can, and the table of missing loci is
    absent or empty or lists the locus for every organism left, under its
    name or its name followed by a star, it returns the input records,
    renamed, followed by one record of question marks, as long as the
    first sequence, for each organism left; with organisms listed once
    these are the organisms that are not among the renamed input names.
    When the locus is not so listed for some organism left it raises
    [AssertionError].  [add_designators] writes the alignment returned
    under the base name of the file in the output directory and returns
    [None]; it raises where [add_gaps_to_align] raises; and it returns
    the file name, having written nothing, exactly when the alignment has
    fewer than [min_taxa] records. *)
Theorem C10_padding_of_incomplete_alignments
    (aln : alignment) (organisms : list string) (missing : missing_t)
    (verbatim : bool) (min_taxa : Z) (file output : string)
    (first : SeqRecord) (name : string) :
  hd_error aln = Some first ->
  rectangular aln ->
  (min_taxa <= Z.of_nat (List.length aln))%Z ->
  last_name aln None = Some name ->
  (forall left,
      remove_all
        (map (fun r => new_seq_name verbatim (strip_reversal (rec_name r)))
           aln) organisms = Ok left ->
      (Forall (fun org =>
                 listed_as_missing missing (locus_of verbatim name) org
                 = true) left ->
       add_gaps_to_align aln (Some organisms) missing verbatim min_taxa
       = Ok (Some (map (renamed verbatim) aln
                   ++ map (padding (List.length (rec_seq first))) left))
       /\ add_designators file aln (Some organisms) missing verbatim
            min_taxa output
          = Ok (None,
                [(path_join output (basename file),
                  map (renamed verbatim) aln
                  ++ map (padding (List.length (rec_seq first))) left)]))
      /\ (Exists (fun org =>
                    listed_as_missing missing (locus_of verbatim name) org
                    = false) left ->
          add_gaps_to_align aln (Some organisms) missing verbatim min_taxa
          = Raise AssertionError
          /\ add_designators file aln (Some organisms) missing verbatim
               min_taxa output
             = Raise AssertionError)
      /\ (NoDup organisms ->
          left = filter
                   (fun o =>
                      negb (str_in o
                              (map (fun r => new_seq_name verbatim
                                               (strip_reversal (rec_name r)))
                                 aln)))
                   organisms))
  /\ (forall e,
        remove_all
          (map (fun r => new_seq_name verbatim (strip_reversal (rec_name r)))
             aln) organisms = Raise e ->
        add_gaps_to_align aln (Some organisms) missing verbatim min_taxa
        = Raise ValueError
        /\ add_designators file aln (Some organisms) missing verbatim
             min_taxa output
           = Raise ValueError)
  /\ (forall r,
        In r aln ->
        ~ In (new_seq_name verbatim (strip_reversal (rec_name r)))
            organisms ->
        add_gaps_to_align aln (Some organisms) missing verbatim min_taxa
        = Raise ValueError)
  /\ (forall (orgs : option (list string)) (mt : Z),
        add_gaps_to_align aln orgs missing verbatim mt = Ok None
        <-> (Z.of_nat (List.length aln) < mt)%Z)
  /\ (forall (orgs : option (list string)) (mt : Z),
        add_designators file aln orgs missing verbatim mt output
        = Ok (Some file, [])
        <-> (Z.of_nat (List.length aln) < mt)%Z)
  /\ (forall (orgs : option (list string)) (mt : Z) (p : string)
             (written : list (string * alignment)),
        add_designators file aln orgs missing verbatim mt output
        = Ok (Some p, written) ->
        p = file /\ written = [] /\ (Z.of_nat (List.length aln) < mt)%Z).
Proof.
  intros Hfirst Hrect Hmin Hlast.
  destruct aln as [|r0 t]; [discriminate|].
  inversion Hfirst; subst r0.
  assert (Hunfold : forall res,
    (looped <- rename_loop verbatim (first :: t) [] (Some organisms) None ;;
     let '(new_align, local_organisms', last) := looped in
     match local_organisms' with
     | None => Raise AttributeError
     | Some orgs =>
         new_align' <- pad_loop verbatim missing (List.length (rec_seq first))
                         last orgs new_align ;;
         Ok (Some new_align')
     end) = res ->
    add_gaps_to_align (first :: t) (Some organisms) missing verbatim min_taxa
    = res).
  { intros res H. unfold add_gaps_to_align.
    replace (Z.of_nat (List.length (first :: t)) <? min_taxa)%Z with false
      by (symmetry; apply Z.ltb_ge; lia).
    replace (Z.of_nat (List.length (first :: t)) >=? min_taxa)%Z with true
      by (symmetry; apply Z.geb_le; lia).
    exact H. }
  assert (Hval : forall e,
    remove_all
      (map (fun r => new_seq_name verbatim (strip_reversal (rec_name r)))
         (first :: t)) organisms = Raise e ->
    add_gaps_to_align (first :: t) (Some organisms) missing verbatim min_taxa
    = Raise ValueError).
  { intros e Hrm. apply Hunfold.
    rewrite (@rename_loop_fails verbatim (first :: t) organisms e Hrm).
    reflexivity. }
  split; [|split; [|split; [|split; [|split]]]].
  - intros left Hrm.
    pose proof (@rename_loop_ok verbatim (List.length (rec_seq first))
                  (first :: t) [] organisms left None Hrect
                  (or_introl eq_refl) Hrm) as Hloop.
    split; [|split].
    + intros Hall.
      assert (Hgaps :
        add_gaps_to_align (first :: t) (Some organisms) missing verbatim
          min_taxa
        = Ok (Some (map (renamed verbatim) (first :: t)
                    ++ map (padding (List.length (rec_seq first))) left))).
      { apply Hunfold. rewrite Hloop. cbn [bind app]. rewrite Hlast.
        rewrite (@pad_loop_ok verbatim missing (List.length (rec_seq first))
                   name left (map (renamed verbatim) (first :: t))).
        - reflexivity.
        - discriminate.
        - reflexivity.
        - eapply Forall_impl; [|exact Hall]. intros org Ho.
          rewrite check_missing_listed, Ho. reflexivity. }
      split; [exact Hgaps|].
      unfold add_designators. rewrite Hgaps. reflexivity.
    + intros Hex.
      assert (Hgaps :
        add_gaps_to_align (first :: t) (Some organisms) missing verbatim
          min_taxa = Raise AssertionError).
      { apply Hunfold. rewrite Hloop. cbn [bind app]. rewrite Hlast.
        rewrite (@pad_loop_raises verbatim missing
                   (List.length (rec_seq first)) name left
                   (map (renamed verbatim) (first :: t))).
        - reflexivity.
        - discriminate.
        - reflexivity.
        - exact Hex. }
      split; [exact Hgaps|].
      unfold add_designators. rewrite Hgaps. reflexivity.
    + intros Hnd. eapply remove_all_nodup; eassumption.
  - intros e Hrm. split; [apply (Hval e Hrm)|].
    unfold add_designators. rewrite (Hval e Hrm). reflexivity.
  - intros r Hin Hnot.
    destruct (remove_all
                (map (fun r => new_seq_name verbatim
                                 (strip_reversal (rec_name r)))
                   (first :: t)) organisms) as [left|e] eqn:Hrm.
    + exfalso. apply remove_all_perm in Hrm. apply Hnot.
      apply (Permutation_in _ (Permutation_sym Hrm)).
      apply in_or_app. left.
      apply (in_map (fun r => new_seq_name verbatim
                                (strip_reversal (rec_name r)))). exact Hin.
    + apply (Hval e eq_refl).
  - intros; apply add_gaps_none_iff.
  - intros; apply add_designators_dropped.
  - intros orgs mt p written H. eapply add_designators_path. exact H.
Qed.

Lemma C10_padding_of_incomplete_alignments_witness :
  add_gaps_to_align example_incomplete (Some example_organisms)
    example_table false 3
  = Ok (Some (mk_aln [("a", "AC"); ("b", "AG"); ("c", "A-"); ("d", "??")]%string))
  /\ add_designators "alignments/uce1.nexus" example_incomplete
       (Some example_organisms) example_table false 3 "padded"
     = Ok (None,
           [("padded/uce1.nexus"%string,
             mk_aln [("a", "AC"); ("b", "AG"); ("c", "A-"); ("d", "??")]%string)]).
Proof.
  destruct (@C10_padding_of_incomplete_alignments example_incomplete
              example_organisms example_table false 3%Z
              "alignments/uce1.nexus" "padded"
              (mkSeqRecord (seq_of "AC") "uce1_a" "uce1_a" "uce1_a") "uce1_c")
    as [H _].
  - reflexivity.
  - repeat constructor.
  - vm_compute. discriminate.
  - reflexivity.
  - destruct (H ["d"%string] eq_refl) as [Hok _].
    apply Hok. repeat constructor.
Defined.

(** C10, without the conditions: with three records and [min_taxa = 3]
    the alignment is not dropped, yet no alignment is returned when the
    locus is not listed as missing for the organism without sequence; the
    assertion [Locus missing] fails. *)
Lemma C10_counterexample :
  add_gaps_to_align example_incomplete (Some example_organisms)
    example_table_other false 3
  = Raise AssertionError
  /\ ~ ((Z.of_nat (List.length example_incomplete) < 3)%Z
        \/ exists new_align,
             add_gaps_to_align example_incomplete (Some example_organisms)
               example_table_other false 3
             = Ok (Some new_align)).
Proof.
  split; [reflexivity|].
  intros [H|[new_align H]]; [vm_compute in H; discriminate | discriminate].
Qed.

(** ** The two configurations *)

Lemma rstrip_spec (chars : list ascii) (s : string) :
  exists suffix,
    s = (rstrip chars s ++ suffix)%string
    /\ all_in chars suffix = true
    /\ (forall c, last_char (rstrip chars s) = Some c ->
          char_in c chars = false).
Proof.
  induction s as [|c rest IH].
  - exists EmptyString. simpl. repeat split. discriminate.
  - destruct IH as [suffix [H1 [H2 H3]]].
    cbn [rstrip]. destruct (rstrip chars rest) as [|c1 r1] eqn:E.
    + cbn [append] in H1. destruct (char_in c chars) eqn:Ec.
      * exists (String c suffix). split; [cbn [append]; congruence|].
        split; [cbn [all_in]; rewrite Ec, H2; reflexivity | discriminate].
      * exists suffix. split; [cbn [append]; congruence|].
        split; [exact H2|].
        intros c' Hc'. simpl in Hc'. inversion Hc'; subst. exact Ec.
    + exists suffix.
      split; [change (String c rest = String c (String c1 r1 ++ suffix));
              congruence|].
      split; [exact H2|].
      intros c' Hc'. apply H3. exact Hc'.
Qed.

(** X23.  [get_names_from_config] gives [None] exactly when the
    configuration lacks the section; otherwise one name for each entry of
    the section, in their order: the key of the entry without the stars
    at its end, so that no name ends with a star. *)
Theorem X23_names_from_config (config : config_t) (group : string) :
  (get_names_from_config config group = None
   <-> dict_get String.eqb group config = None)
  /\ forall names,
       get_names_from_config config group = Some names ->
       exists items,
         dict_get String.eqb group config = Some items
         /\ Forall2 (fun item name =>
                       (exists stars,
                           fst item = (name ++ stars)%string
                           /\ all_in ["*"%char] stars = true)
                       /\ last_char name <> Some "*"%char)
              items names.
Proof.
  unfold get_names_from_config.
  destruct (dict_get String.eqb group config) as [items|].
  - split; [split; discriminate|].
    intros names H. inversion H; subst names. exists items.
    split; [reflexivity|]. clear H.
    induction items as [|item t IH]; [constructor|].
    cbn [map]. constructor; [|exact IH].
    destruct (rstrip_spec ["*"%char] (fst item)) as [suffix [H1 [H2 H3]]].
    split; [exists suffix; auto|].
    intros Hl. specialize (H3 _ Hl). discriminate.
  - split; [tauto | discriminate].
Qed.

Lemma X23_names_from_config_witness :
  exists items,
    dict_get String.eqb "Organisms"%string example_config = Some items
    /\ Forall2 (fun item name =>
                  (exists stars,
                      fst item = (name ++ stars)%string
                      /\ all_in ["*"%char] stars = true)
                  /\ last_char name <> Some "*"%char)
         items ["a"; "b"; "c"; "d"]%string.
Proof.
  apply (proj2 (@X23_names_from_config example_config "Organisms"%string)
           ["a"; "b"; "c"; "d"]%string).
  reflexivity.
Defined.

Lemma missing_get_append (sec x k : string)
    (m : list (string * list string)) :
  missing_get (dd_append sec x m) k
  = if String.eqb sec k then (missing_get m k ++ [x])%list
    else missing_get m k.
Proof.
  unfold dd_append, missing_get at 1.
  destruct (String.eqb sec k) eqn:E.
  - apply String.eqb_eq in E. subst k.
    rewrite (dict_get_set_same String.eqb string_eqb_eq). reflexivity.
  - apply String.eqb_neq in E.
    rewrite (dict_get_set_other String.eqb string_eqb_eq)
      by (intros ->; congruence).
    reflexivity.
Qed.

Lemma missing_get_section (sec k : string)
    (items : list (string * option string)) :
  forall m,
    missing_get
      (fold_left (fun m (item : string * option string) =>
                    dd_append sec (fst item) m) items m) k
    = (missing_get m k
       ++ (if String.eqb sec k then map fst items else []))%list.
Proof.
  induction items as [|item t IH]; intros m.
  - simpl. destruct (String.eqb sec k); rewrite app_nil_r; reflexivity.
  - cbn [fold_left map]. rewrite IH, missing_get_append.
    destruct (String.eqb sec k); [|reflexivity].
    rewrite <- app_assoc. reflexivity.
Qed.

Lemma missing_get_conf (k : string) (config : config_t) :
  forall m,
    missing_get
      (fold_left
         (fun missing '(sec, items) =>
            fold_left (fun m (item : string * option string) =>
                         dd_append sec (fst item) m)
              items missing)
         config m) k
    = (missing_get m k
       ++ flat_map (fun s => if String.eqb (fst s) k then map fst (snd s)
                             else [])
            config)%list.
Proof.
  induction config as [|[sec items] t IH]; intros m.
  - simpl. rewrite app_nil_r. reflexivity.
  - cbn [fold_left flat_map fst snd]. rewrite IH, missing_get_section.
    rewrite <- app_assoc. reflexivity.
Qed.

Lemma dict_set_nonempty (k : string) (v : list string)
    (m : list (string * list string)) :
  dict_set String.eqb k v m <> [].
Proof.
  destruct m as [|[k0 v0] t]; simpl; [discriminate|].
  destruct (String.eqb k k0); discriminate.
Qed.

Lemma section_fold_nonempty (sec : string)
    (items : list (string * option string)) :
  forall m,
    (m <> [] \/ items <> []) ->
    fold_left (fun m (item : string * option string) =>
                 dd_append sec (fst item) m) items m <> [].
Proof.
  induction items as [|item t IH]; intros m H.
  - simpl. destruct H as [H|H]; [exact H | congruence].
  - cbn [fold_left]. apply IH. left. apply dict_set_nonempty.
Qed.

Lemma conf_fold_empty (config : config_t) :
  forall m,
    fold_left
      (fun missing '(sec, items) =>
         fold_left (fun m (item : string * option string) =>
                      dd_append sec (fst item) m)
           items missing)
      config m = []
    <-> m = [] /\ no_entries config = true.
Proof.
  induction config as [|[sec items] t IH]; intros m.
  - simpl. tauto.
  - cbn [fold_left no_entries forallb snd]. rewrite IH.
    destruct items as [|item items'].
    + simpl. tauto.
    + split.
      * intros [H _]. exfalso.
        apply (@section_fold_nonempty sec (item :: items') m);
          [right; discriminate | exact H].
      * intros [_ H]. discriminate.
Qed.

(** X24.  The assertion of [add_gaps_to_align] against the table read
    from the configuration of incomplete loci: it holds when no section
    of that configuration has an entry, or when the locus is an entry of
    the section of the organism or of the section of its name followed by
    a star; in every other case it fails with [AssertionError]. *)
Theorem X24_locus_listed_as_missing (config : config_t) (loc org : string) :
  check_missing (Some (get_missing_loci_from_conf_file config)) loc org
  = if no_entries config
       || listed config org loc
       || listed config (org ++ "*") loc
    then Ok tt
    else Raise AssertionError.
Proof.
  unfold check_missing, listed.
  pose proof (conf_fold_empty config []) as Hempty.
  pose proof (missing_get_conf org config []) as Horg.
  pose proof (missing_get_conf (org ++ "*") config []) as Hstar.
  fold (get_missing_loci_from_conf_file config) in Hempty, Horg, Hstar.
  cbn [missing_get dict_get app] in Horg, Hstar.
  change (missing_get [] org) with (@nil string) in Horg.
  change (missing_get [] (org ++ "*")) with (@nil string) in Hstar.
  cbn [app] in Horg, Hstar.
  destruct (get_missing_loci_from_conf_file config) as [|e m] eqn:E.
  - rewrite (proj2 (proj1 Hempty eq_refl)). reflexivity.
  - replace (no_entries config) with false.
    + rewrite Horg, Hstar. cbn [orb].
      destruct (str_in loc _); [reflexivity|].
      destruct (str_in loc _); reflexivity.
    + destruct (no_entries config) eqn:En; [|reflexivity].
      exfalso. assert (H : e :: m = []) by (apply Hempty; auto).
      discriminate.
Qed.

(** ** The run of [add_missing_data_designators.py] *)

Lemma run_designators_inv (organisms : option (list string))
    (missing : missing_t) (verbatim : bool) (min_taxa : Z)
    (output : string) (work : list (string * alignment)) :
  forall (results : list (option string))
         (written : list (string * alignment)),
    run_designators work organisms missing verbatim min_taxa output
    = Ok (results, written) ->
    dropped results = map fst (filter (too_few min_taxa) work)
    /\ Forall2 (fun item w =>
                  fst w = path_join output (basename (fst item))
                  /\ add_gaps_to_align (snd item) organisms missing verbatim
                       min_taxa = Ok (Some (snd w)))
         (filter (fun item => negb (too_few min_taxa item)) work) written.
Proof.
  induction work as [|[file aln] rest IH]; intros results written H.
  - simpl in H. inversion H. split; [reflexivity | constructor].
  - cbn [run_designators] in H.
    apply bind_ok_inv in H. destruct H as [[r w] [Hone H]].
    apply bind_ok_inv in H. destruct H as [[rs ws] [Hrest H]].
    cbn [fst snd] in H. inversion H; subst results written.
    destruct (IH _ _ Hrest) as [IH1 IH2].
    unfold add_designators in Hone.
    apply bind_ok_inv in Hone. destruct Hone as [na [Hgaps Hone]].
    cbn [filter].
    destruct na as [a|].
    + inversion Hone; subst r w.
      assert (Hge : too_few min_taxa (file, aln) = false).
      { unfold too_few. cbn [snd].
        destruct (Z.ltb_spec (Z.of_nat (List.length aln)) min_taxa)
          as [Hlt|Hge]; [|reflexivity].
        apply (proj2 (add_gaps_none_iff aln organisms missing verbatim
                        min_taxa)) in Hlt. congruence. }
      rewrite Hge. cbn [negb dropped app]. split; [exact IH1|].
      constructor; [|exact IH2]. cbn [fst snd]. auto.
    + inversion Hone; subst r w.
      assert (Hlt : too_few min_taxa (file, aln) = true).
      { unfold too_few. cbn [snd]. apply Z.ltb_lt.
        apply (proj1 (add_gaps_none_iff aln organisms missing verbatim
                        min_taxa)). exact Hgaps. }
      rewrite Hlt. cbn [negb dropped map fst app].
      rewrite IH1. auto.
Qed.

(** X25.  When [main] ends, the files it reports as dropped are the
    input files with fewer than [min_taxa] records, in their order; every
    other file has been written under its base name in the output
    directory; and the records of every alignment written are the
    organisms of the section [Organisms], each as often as listed. *)
Theorem X25_designators_main (config : config_t)
    (incomplete : option config_t) (work : list (string * alignment))
    (verbatim : bool) (min_taxa : Z) (output : string)
    (dropped_files : list string) (written : list (string * alignment)) :
  DesignatorsMain.main config incomplete work verbatim min_taxa output
  = Ok (dropped_files, written) ->
  dropped_files = map fst (filter (too_few min_taxa) work)
  /\ map fst written
     = map (fun item => path_join output (basename (fst item)))
         (filter (fun item => negb (too_few min_taxa item)) work)
  /\ Forall (fun w =>
               exists orgs,
                 get_names_from_config config "Organisms" = Some orgs
                 /\ Permutation (map rec_id (snd w)) orgs)
       written.
Proof.
  unfold DesignatorsMain.main. intros H.
  apply bind_ok_inv in H. destruct H as [[rs ws] [Hrun H]].
  cbn [fst snd] in H. inversion H; subst dropped_files written.
  apply run_designators_inv in Hrun. destruct Hrun as [H1 H2].
  split; [exact H1|]. clear H H1.
  induction H2 as [|item w t ws' [Hp Hg] _ IH]; [split; constructor|].
  destruct IH as [IH1 IH2]. split.
  - cbn [map]. rewrite Hp, IH1. reflexivity.
  - constructor; [|exact IH2].
    destruct (@add_gaps_inv (snd item) (snd w) _ _ verbatim min_taxa Hg)
      as [orgs [left [Ho [_ [_ [Hrm [Hnew _]]]]]]].
    exists orgs. split; [exact Ho|].
    assert (Hids : map rec_id (snd w)
                   = map (fun r => new_seq_name verbatim
                                     (strip_reversal (rec_name r)))
                       (snd item) ++ left).
    { rewrite Hnew, map_app, !map_map.
      cbn [renamed padding record_formatter rec_id]. rewrite map_id.
      reflexivity. }
    exact (eq_ind_r (fun l => Permutation l orgs)
             (Permutation_sym (@remove_all_perm _ orgs left Hrm)) Hids).
Qed.

Lemma X25_designators_main_witness :
  exists dropped_files written,
    DesignatorsMain.main example_config (Some example_incomplete_config)
      example_files false 3 "padded"
    = Ok (dropped_files, written)
    /\ dropped_files = map fst (filter (too_few 3) example_files)
    /\ map fst written
       = map (fun item => path_join "padded" (basename (fst item)))
           (filter (fun item => negb (too_few 3 item)) example_files)
    /\ Forall (fun w =>
                 exists orgs,
                   get_names_from_config example_config "Organisms"
                   = Some orgs
                   /\ Permutation (map rec_id (snd w)) orgs)
         written.
Proof.
  destruct (DesignatorsMain.main example_config
              (Some example_incomplete_config) example_files false 3
              "padded") as [[dr wr]|e] eqn:E;
    [|vm_compute in E; discriminate].
  exists dr, wr. split; [reflexivity|].
  apply (@X25_designators_main example_config
           (Some example_incomplete_config) example_files false 3%Z
           "padded"%string dr wr E).
Defined.

(** ** A locus without data *)

Lemma replace_gaps_from_all_gaps (L : nat) (aln : alignment) :
  0 < L ->
  Forall (fun r => rec_seq r = repeat gap L) aln ->
  forall new_aln,
    new_aln = [] \/ get_alignment_length new_aln = L + L ->
    replace_gaps_from aln new_aln
    = Ok (new_aln ++ map (doubled_record L) aln).
Proof.
  intros HL. induction 1 as [|r t Hr _ IH]; intros new_aln Hnew.
  - simpl. rewrite app_nil_r. reflexivity.
  - cbn [replace_gaps_from]. rewrite Hr.
    destruct L as [|n]; [lia|].
    rewrite normalise_all_gaps. cbn [bind].
    destruct (@aln_append_same_length new_aln (doubled_record (S n) r)
                (S n + S n) Hnew)
      as [Happ [Hne Hlen]].
    { cbn [doubled_record rec_seq]. apply repeat_length. }
    unfold doubled_record in Happ at 1. rewrite Happ. cbn [bind].
    rewrite (IH _ (or_intror Hlen)). cbn [map].
    rewrite <- app_assoc. reflexivity.
Qed.

Lemma column_members (idx : nat) (aln : alignment) :
  forall col,
    column aln idx = Ok col ->
    Forall (fun c => exists r, In r aln /\ In c (rec_seq r)) col.
Proof.
  induction aln as [|r t IH]; intros col H.
  - simpl in H. inversion H. constructor.
  - cbn [column] in H.
    destruct (nth_error (rec_seq r) idx) as [c|] eqn:E; [|discriminate].
    apply bind_ok_inv in H. destruct H as [rest [Hrest H]].
    inversion H; subst col. constructor.
    + exists r. split; [left; reflexivity|].
      apply (nth_error_In _ _ E).
    + eapply Forall_impl; [|apply (IH _ Hrest)].
      intros c' [r' [Hin Hc]]. exists r'. split; [right|]; assumption.
Qed.

(** X26.  A locus whose records are all gaps, of a length [L > 0]: the
    normaliser doubles every record, so [worker] returns the locus with
    the length [2 * L], and each of its [2 * L] rows of [by_locus] counts
    every record as missing and no base. *)
Theorem X26_locus_without_data (rnd : nat -> nat) (locus : string)
    (aln : alignment) (L : nat) :
  0 < L ->
  Forall (fun r => rec_seq r = repeat gap L) aln ->
  exists wr,
    worker rnd locus aln = Ok wr
    /\ replace_gaps aln = Ok (map (doubled_record L) aln)
    /\ (aln <> [] -> wr_length wr = L + L)
    /\ map bl_position (by_locus_rows wr) = seq 0 (wr_length wr)
    /\ Forall (fun row =>
                 bl_missing row = List.length aln
                 /\ bl_bases row = 0
                 /\ bl_majallele row = 0 /\ bl_substitutions row = 0
                 /\ bl_deletions row = 0 /\ bl_insertions row = 0)
         (by_locus_rows wr).
Proof.
  intros HL Hgaps.
  assert (Hrg : replace_gaps aln = Ok (map (doubled_record L) aln)).
  { unfold replace_gaps.
    rewrite (@replace_gaps_from_all_gaps L aln HL Hgaps [] (or_introl eq_refl)).
    reflexivity. }
  set (aln' := map (doubled_record L) aln) in *.
  assert (Hids : map rec_id aln' = map rec_id aln).
  { unfold aln'. rewrite map_map. reflexivity. }
  assert (Hrect : rectangular aln').
  { unfold rectangular, aln'. apply Forall_forall. intros r Hr.
    apply in_map_iff in Hr. destruct Hr as [r0 [<- Hin]].
    destruct aln as [|r1 t]; [destruct Hin|].
    cbn [map get_alignment_length doubled_record rec_seq]. reflexivity. }
  assert (Hq : Forall (fun r => Forall (fun c => c = qmark) (rec_seq r)) aln').
  { unfold aln'. apply Forall_forall. intros r Hr.
    apply in_map_iff in Hr. destruct Hr as [r0 [<- _]].
    cbn [doubled_record rec_seq]. apply Forall_forall.
    intros c Hc. apply repeat_spec in Hc. exact Hc. }
  assert (Halpha : over_alphabet aln').
  { unfold over_alphabet. eapply Forall_impl; [|exact Hq].
    intros r Hr. eapply Forall_impl; [|exact Hr].
    intros c ->. reflexivity. }
  destruct (@classify_alignment_ok rnd locus aln aln' Hids Hrect Halpha)
    as [wr [Hwr [HwL _]]].
  assert (Hw : worker rnd locus aln = Ok wr).
  { unfold worker. destruct (init_maps aln 0 [] []) as [name_map results].
    rewrite Hrg. cbn [bind]. exact Hwr. }
  exists wr. split; [exact Hw|]. split; [exact Hrg|].
  destruct (@worker_inv rnd locus aln wr Hw)
    as [aln2 [Hrg2 [Hlen [_ [_ [_ [Hbases [_ Hdone]]]]]]]].
  rewrite Hrg in Hrg2. inversion Hrg2; subst aln2.
  split.
  { intros Hne. rewrite HwL. unfold aln'.
    destruct aln as [|r1 t]; [congruence|].
    cbn [map get_alignment_length doubled_record rec_seq].
    apply repeat_length. }
  assert (Hpos : map bl_position (by_locus_rows wr) = seq 0 (wr_length wr)).
  { rewrite by_locus_positions, Hbases. apply sorted_seq. }
  split; [exact Hpos|].
  apply Forall_forall. intros row Hrow.
  assert (Hp : bl_position row < wr_length wr).
  { assert (Hin : In (bl_position row) (map bl_position (by_locus_rows wr)))
      by (apply in_map; exact Hrow).
    rewrite Hpos in Hin. apply in_seq in Hin. lia. }
  destruct (Hdone _ Hp) as [col [Hcol [Hb [Hnone Hall]]]].
  assert (Hstrip : strip_missing col = []).
  { destruct (strip_missing col) as [|c t] eqn:E; [reflexivity|].
    exfalso.
    assert (Hc : In c (strip_missing col)) by (rewrite E; left; reflexivity).
    apply strip_missing_in in Hc. destruct Hc as [Hc Hm].
    pose proof (column_members _ _ Hcol) as Hmem.
    rewrite Forall_forall in Hmem. destruct (Hmem c Hc) as [r [Hr Hcr]].
    rewrite Forall_forall in Hq. specialize (Hq r Hr).
    rewrite Forall_forall in Hq. rewrite (Hq c Hcr) in Hm. discriminate. }
  rewrite Hstrip in Hb, Hnone. cbn [List.length] in Hb, Hnone.
  pose proof (column_length _ _ Hcol) as Hcl.
  pose proof (by_locus_row_sum _ _ Hrow) as Hsum.
  unfold by_locus_rows in Hrow. apply in_map_iff in Hrow.
  destruct Hrow as [pos [<- _]].
  cbn [bl_position bl_bases bl_missing bl_majallele bl_substitutions
       bl_deletions bl_insertions] in *.
  rewrite !position_count_recorded in *. unfold bases_at.
  repeat split; lia.
Qed.

Lemma X26_locus_without_data_witness :
  exists wr,
    worker (fun _ => 0) "uce" (mk_aln [("t1", "--"); ("t2", "--")]%string)
    = Ok wr
    /\ replace_gaps (mk_aln [("t1", "--"); ("t2", "--")]%string)
       = Ok (map (doubled_record 2)
               (mk_aln [("t1", "--"); ("t2", "--")]%string))
    /\ (mk_aln [("t1", "--"); ("t2", "--")]%string <> [] ->
        wr_length wr = 2 + 2)
    /\ map bl_position (by_locus_rows wr) = seq 0 (wr_length wr)
    /\ Forall (fun row =>
                 bl_missing row
                 = List.length (mk_aln [("t1", "--"); ("t2", "--")]%string)
                 /\ bl_bases row = 0
                 /\ bl_majallele row = 0 /\ bl_substitutions row = 0
                 /\ bl_deletions row = 0 /\ bl_insertions row = 0)
         (by_locus_rows wr).
Proof.
  apply (@X26_locus_without_data (fun _ => 0) "uce"%string
           (mk_aln [("t1", "--"); ("t2", "--")]%string) 2).
  - lia.
  - repeat constructor.
Defined.
